(** * club::transport -- AckSet and TransmitQueue

    A shallow embedding of [club/transport/ack_set.h] and
    [club/transport/transmit_queue.h], followed by the properties of the two
    classes that the transport design relies on. *)

From Stdlib Require Import ZArith Lia List Bool Sorted.
From stdpp Require Import base gmap sets list sorting.

Local Open Scope Z_scope.

(* ===================================================================== *)
(** * Sequence numbers                                                    *)
(* ===================================================================== *)

Module SequenceNumber.

(** Modelled from the spec: [club/transport/sequence_number.h] is included
    by [ack_set.h] but is not part of the sources.  The design document
    describes the type as an unsigned 32-bit counter whose arithmetic wraps
    and whose comparison is modular: [a < b] iff [b - a], read as a signed
    32-bit integer, is positive and non-zero; equality is bitwise. *)
Definition t := Z.

Definition valid (a : t) : Prop := 0 <= a < 2 ^ 32.

Definition wrap (z : Z) : t := z mod 2 ^ 32.

Definition to_signed (z : Z) : Z := if z <? 2 ^ 31 then z else z - 2 ^ 32.

Definition add (a b : t) : t := wrap (a + b).
Definition sub (a b : t) : t := wrap (a - b).

Definition ltb (a b : t) : bool := 0 <? to_signed (sub b a).
Definition gtb (a b : t) : bool := ltb b a.
Definition eqb (a b : t) : bool := a =? b.

(** Signed distance from [b] up to [a]: how far [a] is ahead of [b]. *)
Definition dist (a b : t) : Z := to_signed (sub a b).

End SequenceNumber.

(* ===================================================================== *)
(** * AckSet                                                              *)
(* ===================================================================== *)

Module AckSet.

Module SN := SequenceNumber.

(** [uint32_t predecessors : 31, is_empty : 1] *)
Record t : Type := mk
  { highest_sequence_number : SN.t
  ; lowest_sequence_number  : SN.t
  ; predecessors            : Z
  ; is_empty                : bool }.

(** A store into the 31-bit bit-field keeps the low 31 bits. *)
Definition bits31 (z : Z) : Z := z mod 2 ^ 31.

Definition wf (a : t) : Prop :=
  SN.valid (highest_sequence_number a) /\
  SN.valid (lowest_sequence_number a) /\
  0 <= predecessors a < 2 ^ 31.

(** [AckSet::AckSet()] initialises only [predecessors] and [is_empty];
    the two sequence numbers keep whatever the storage held, which is
    what the arguments stand for. *)
Definition create (h0 l0 : SN.t) : t :=
  {| highest_sequence_number := h0
   ; lowest_sequence_number  := l0
   ; predecessors            := 0
   ; is_empty                := true |}.

(** [predecessors & (1 << k)] is non-zero *)
Definition has_bit (p k : Z) : bool := negb (Z.land p (Z.shiftl 1 k) =? 0).

(** The body of the guard loop of [try_add] at index [i]. *)
Definition shift_allowed (a : t) (hsn i : Z) : bool :=
  SN.ltb hsn (SN.sub (SN.add (lowest_sequence_number a) 31) i)
  || has_bit (predecessors a) (30 - i).

(** [for (i = 0; i < shift; ++i) if (!(...)) return false;]
    [n] counts the iterations that remain ([shift] of them at the start,
    and [shift] is between 1 and 31 where the loop is reached, so that [i]
    runs through 0 .. shift - 1); the result is [false] when the loop
    leaves the function early. *)
Fixpoint shift_guard (n : nat) (a : t) (hsn i : Z) : bool :=
  match n with
  | O => true
  | S n' => if shift_allowed a hsn i
            then shift_guard n' a hsn (i + 1)
            else false
  end.

Definition try_add (a : t) (new_sn : SN.t) : bool * t :=
  if is_empty a then
    (true, {| highest_sequence_number := new_sn
            ; lowest_sequence_number  := new_sn
            ; predecessors            := 0
            ; is_empty                := false |})
  else
    let hsn := highest_sequence_number a in
    if SN.eqb new_sn hsn then (true, a)
    else if SN.ltb new_sn hsn then
      if SN.ltb new_sn (SN.sub hsn 31) then (true, a)
      else
        (true, {| highest_sequence_number := highest_sequence_number a
                ; lowest_sequence_number  := lowest_sequence_number a
                ; predecessors :=
                    bits31 (Z.lor (predecessors a)
                                  (Z.shiftl 1 (SN.sub (SN.sub hsn new_sn) 1)))
                ; is_empty := is_empty a |})
    else
      if SN.gtb new_sn (SN.add hsn 31) then (false, a)
      else
        let shift := SN.sub new_sn hsn in
        if shift_guard (Z.to_nat shift) a hsn 0 then
          let was_empty := is_empty a in
          let shifted := bits31 (Z.shiftl (predecessors a) shift) in
          (true, {| highest_sequence_number := new_sn
                  ; lowest_sequence_number  := lowest_sequence_number a
                  ; predecessors :=
                      bits31 (Z.lor shifted (Z.shiftl 1 (SN.sub shift 1)))
                  ; is_empty := was_empty |})
        else (false, a).

(** ** Iteration *)

(** [iterator::operator*].  Its [assert(!acks.is_empty)] cannot fail in an
    iteration from [begin()] to [end()], which are equal for an empty set. *)
Definition deref (a : t) (pos : Z) : SN.t :=
  SN.sub (highest_sequence_number a) pos.

(** [iterator::operator++]:
    [while (pos < 32 && (predecessors & (1 << (++pos - 1))) == 0) {}].
    [None] stands for a loop that has not left within [fuel] rounds. *)
Fixpoint incr_loop (fuel : nat) (a : t) (pos : Z) : option Z :=
  match fuel with
  | O => None
  | S fuel' =>
      if pos <? 32 then
        let pos' := pos + 1 in
        if Z.land (predecessors a) (Z.shiftl 1 (pos' - 1)) =? 0
        then incr_loop fuel' a pos'
        else Some pos'
      else Some pos
  end.

Definition incr (a : t) (pos : Z) : option Z := incr_loop 40 a pos.

Definition iter_end : Z := 32.
Definition iter_begin (a : t) : Z := if is_empty a then iter_end else 0.

(** [for (auto i = acks.begin(); i != acks.end(); ++i) yield *i] *)
Fixpoint iterate_from (fuel : nat) (a : t) (pos : Z) : option (list SN.t) :=
  match fuel with
  | O => None
  | S fuel' =>
      if pos =? iter_end then Some []
      else
        match incr a pos with
        | Some pos' =>
            match iterate_from fuel' a pos' with
            | Some l => Some (deref a pos :: l)
            | None => None
            end
        | None => None
        end
  end.

Definition iterate (a : t) : option (list SN.t) :=
  iterate_from 40 a (iter_begin a).

(** The sequence numbers the set represents are those its iteration
    yields. *)
Definition contains (a : t) (x : SN.t) : Prop :=
  exists l, iterate a = Some l /\ In x l.

(** ** Notions used to state what [try_add] and the iteration do *)

Fixpoint zrange (n : nat) (start : Z) : list Z :=
  match n with
  | O => []
  | S k => start :: zrange k (start + 1)
  end.

(** Positions [q] with [from <= q <= 31] whose bit [q - 1] is set. *)
Definition marked (p from : Z) : list Z :=
  List.filter (fun q => Z.testbit p (q - 1)) (zrange (Z.to_nat (32 - from)) from).

(** [x] is represented, with plain integer arithmetic. *)
Definition repr (a : t) (x : Z) : Prop :=
  x = highest_sequence_number a \/
  (1 <= highest_sequence_number a - x /\
   Z.testbit (predecessors a) (highest_sequence_number a - x - 1) = true).

Record added (a : t) (P : list SN.t) : Prop :=
  { added_nonempty : is_empty a = false
  ; added_highest  : In (highest_sequence_number a) P
  ; added_lowest   : In (lowest_sequence_number a) P
  ; added_bits     : 0 <= predecessors a < 2 ^ 31
  ; added_repr     : forall x, repr a x <-> In x P }.

(** The state after the numbers [P] were passed to [try_add], the first
    of them being [first]: every marked position names a number of [P], and
    so does every position that has left the window since [first]. *)
Record fed (first : Z) (a : t) (P : list SN.t) : Prop :=
  { fed_nonempty : is_empty a = false
  ; fed_lowest   : lowest_sequence_number a = first
  ; fed_highest  : In (highest_sequence_number a) P
  ; fed_order    : first <= highest_sequence_number a
  ; fed_bits     : forall k, 0 <= k <= 30 ->
                             Z.testbit (predecessors a) k = true ->
                             In (highest_sequence_number a - (k + 1)) P
  ; fed_gaps     : forall x, first <= x < highest_sequence_number a - 31 ->
                             In x P }.

(** Feeding a whole sequence to [try_add], keeping every return value. *)
Fixpoint add_all (a : t) (s : list SN.t) : list bool * t :=
  match s with
  | [] => ([], a)
  | sn :: s' =>
      let '(r, a1) := try_add a sn in
      let '(rs, a2) := add_all a1 s' in
      (r :: rs, a2)
  end.

End AckSet.

(* ===================================================================== *)
(** * Outcomes of running code                                            *)
(* ===================================================================== *)

(** Code either completes with a value or stops: on a failed [assert], on
    an operation the language leaves undefined (an invalid iterator), or,
    for the unbounded loop, because the model ran out of rounds. *)
Inductive fault : Set := AssertionFailed | UndefinedBehaviour | OutOfFuel.

Inductive result (A : Type) : Type :=
| Ok (a : A)
| Err (f : fault).
Arguments Ok {A} a.
Arguments Err {A} f.

#[global] Instance result_ret : MRet result := @Ok.
#[global] Instance result_bind : MBind result :=
  fun A B f m => match m with Ok a => f a | Err e => Err e end.

Definition defined {A} (o : option A) : result A :=
  match o with Some a => Ok a | None => Err UndefinedBehaviour end.

(* ===================================================================== *)
(** * std::list with its iterators                                        *)
(* ===================================================================== *)

Module StdList.

(** A list node keeps its identity while other nodes come and go, and an
    iterator is the identity of the node it points to; [None] is the
    past-the-end iterator. *)
Definition node := nat.
Definition iterator := option node.
Definition t (A : Type) := list (node * A).

Definition nodes {A} (l : t A) : list node := map fst l.

Definition begin_ {A} (l : t A) : iterator :=
  match l with [] => None | (h, _) :: _ => Some h end.
Definition end_ : iterator := None.

Definition empty {A} (l : t A) : bool :=
  match l with [] => true | _ => false end.

Definition iter_eqb (i j : iterator) : bool := bool_decide (i = j).

(** [l.insert(pos, x)]: a new node [fresh] before [pos]. *)
Fixpoint insert {A} (l : t A) (pos : iterator) (fresh : node) (x : A)
  : option (t A) :=
  match l with
  | [] => match pos with None => Some [(fresh, x)] | Some _ => None end
  | (h, y) :: l' =>
      if iter_eqb pos (Some h) then Some ((fresh, x) :: (h, y) :: l')
      else cons (h, y) <$> insert l' pos fresh x
  end.

(** [l.erase(i)]: the list without node [i], and the iterator that
    follows it. *)
Fixpoint erase {A} (l : t A) (i : node) : option (t A * iterator) :=
  match l with
  | [] => None
  | (h, y) :: l' =>
      if Nat.eqb h i then Some (l', begin_ l')
      else (fun r => ((h, y) :: fst r, snd r)) <$> erase l' i
  end.

(** [++i] *)
Fixpoint succ {A} (l : t A) (i : node) : option iterator :=
  match l with
  | [] => None
  | (h, _) :: l' => if Nat.eqb h i then Some (begin_ l') else succ l' i
  end.

(** [--i] for an iterator to a node; the first node has none before it. *)
Fixpoint pred {A} (l : t A) (i : node) : option iterator :=
  match l with
  | (h1, _) :: (((h2, _) :: _) as l') =>
      if Nat.eqb h2 i then Some (Some h1) else pred l' i
  | _ => None
  end.

(** [--l.end()] *)
Definition back {A} (l : t A) : option iterator :=
  match List.last (map Some (nodes l)) None with
  | Some h => Some (Some h)
  | None => None
  end.

(** [--i] *)
Definition decr {A} (l : t A) (i : iterator) : option iterator :=
  match i with
  | None => back l
  | Some h => pred l h
  end.

(** [*i] *)
Fixpoint get {A} (l : t A) (i : node) : option A :=
  match l with
  | [] => None
  | (h, y) :: l' => if Nat.eqb h i then Some y else get l' i
  end.

End StdList.

(* ===================================================================== *)
(** * binary::encoder                                                     *)
(* ===================================================================== *)

Module Encoder.

(** Modelled from the spec: [binary/encoder.h] is not part of the
    sources.  The encoder holds a write cursor, the end of the buffer and
    an error flag; a write that does not fit sets the flag and leaves the
    buffer alone.  The buffer itself is memory outside the encoder. *)
Record t : Type := mk
  { current_begin : nat
  ; current_end   : nat
  ; was_error     : bool }.

Definition error (e : t) : bool := was_error e.

Definition set_error (e : t) : t :=
  {| current_begin := current_begin e
   ; current_end   := current_end e
   ; was_error     := true |}.

Definition room (e : t) : nat := current_end e - current_begin e.

Definition write_at (mem : list Z) (off : nat) (bs : list Z) : list Z :=
  take off mem ++ bs ++ drop (off + length bs) mem.

Definition put_raw (e : t) (mem : list Z) (bs : list Z) : t * list Z :=
  if was_error e then (e, mem)
  else if (current_end e <? current_begin e + length bs)%nat then (set_error e, mem)
  else ({| current_begin := current_begin e + length bs
         ; current_end   := current_end e
         ; was_error     := was_error e |},
        write_at mem (current_begin e) bs).

Definition put_u8 (e : t) (mem : list Z) (b : Z) : t * list Z :=
  put_raw e mem [b mod 256].

(** Several writes in a row. *)
Definition put_all (e : t) (mem : list Z) (chunks : list (list Z)) : t * list Z :=
  fold_left (fun em bs => put_raw (fst em) (snd em) bs) chunks (e, mem).

End Encoder.

(* ===================================================================== *)
(** * Messages and the registry of outbound messages                      *)
(* ===================================================================== *)

Definition uuid := N.

(** The sixteen bytes of a uuid, most significant first. *)
Definition uuid_bytes (u : uuid) : list Z :=
  map (fun i => Z.of_N ((u / 256 ^ (15 - N.of_nat i)) mod 256)%N) (seq 0 16).

Module Message.

(** Modelled from the spec: [transport/message.h] is not part of the
    sources.  A message has a source, the set of targets that still need
    it, its wire bytes and a delivery class. *)
Record t : Type := mk
  { source   : uuid
  ; targets  : gset uuid
  ; bytes    : list Z
  ; reliable : bool }.

Definition is_reliable (m : t) : bool := reliable m.

Definition set_targets (m : t) (ts : gset uuid) : t :=
  {| source := source m; targets := ts; bytes := bytes m; reliable := reliable m |}.

End Message.

(** A [shared_ptr<Message>] is the address of the one message object that
    all queues referring to it share. *)
Abbreviation MessagePtr := nat.

Module OutboundMessages.

(** Modelled from the spec: [transport/outbound_messages.h] is not part of
    the sources.  Of the registry only [release] is used here: it
    decrements the hold count of the message. *)
Definition t := gmap MessagePtr nat.

Definition release (o : t) (m : MessagePtr) : t := alter Nat.pred m o.

End OutboundMessages.

(* ===================================================================== *)
(** * TransmitQueue                                                       *)
(* ===================================================================== *)

Module TransmitQueue.

Import StdList.

Record t : Type := mk
  { _targets : gset uuid
  ; _messages : StdList.t MessagePtr
  ; _next : iterator
  ; _target_intersection : list uuid
  ; node_supply : node
    (** not a field of the class: the identity that the next list node
        allocated by [insert] gets *) }.

(** What a queue works on besides its own fields: the message objects it
    shares with other queues, the registry, and the encoder with its
    buffer that [encode_few] is handed.  [encoded] is not in the code: it
    lists, latest first, the messages encoded with success, each with
    the buffer offset of its record. *)
Record state : Type := mkState
  { queue    : t
  ; heap     : gmap MessagePtr Message.t
  ; outbound : OutboundMessages.t
  ; encoder  : Encoder.t
  ; memory   : list Z
  ; encoded  : list (MessagePtr * nat) }.

Definition set_messages (q : t) (l : StdList.t MessagePtr) : t :=
  mk (_targets q) l (_next q) (_target_intersection q) (node_supply q).
Definition set_next (q : t) (i : iterator) : t :=
  mk (_targets q) (_messages q) i (_target_intersection q) (node_supply q).
Definition set_target_intersection (q : t) (v : list uuid) : t :=
  mk (_targets q) (_messages q) (_next q) v (node_supply q).

Definition set_queue (s : state) (q : t) : state :=
  mkState q (heap s) (outbound s) (encoder s) (memory s) (encoded s).

(** [TransmitQueue::TransmitQueue] *)
Definition create : t :=
  {| _targets := ∅; _messages := []; _next := end_
   ; _target_intersection := []; node_supply := 0%nat |}.

Definition add_target (q : t) (id : uuid) : t :=
  mk ({[id]} ∪ _targets q) (_messages q) (_next q)
     (_target_intersection q) (node_supply q).

Definition insert_message (q : t) (message : MessagePtr) : result t :=
  l ← defined (insert (_messages q) (_next q) (node_supply q) message);
  let q := mk (_targets q) l (_next q) (_target_intersection q)
              (S (node_supply q)) in
  if iter_eqb (_next q) end_ then Ok (set_next q (begin_ (_messages q)))
  else Ok q.

(** The invariant written next to [_messages] in the class:
    [_messages.empty() <=> _next == _messages.end()]. *)
Definition invariant (q : t) : Prop := _messages q = [] <-> _next q = end_.

(** What the language asks of the object: list nodes are distinct, the
    node supply is ahead of them, and [_next] is a valid iterator. *)
Definition valid (q : t) : Prop :=
  List.NoDup (nodes (_messages q)) /\
  (forall h, In h (nodes (_messages q)) -> (h < node_supply q)%nat) /\
  (forall h, _next q = Some h -> In h (nodes (_messages q))).

(** [std::set_intersection] over two ordered sets: the common elements,
    in increasing order. *)
Definition set_intersection (set1 set2 : gset uuid) : list uuid :=
  merge_sort N.le (elements (set1 ∩ set2)).

Section Build.

(** [true] when the code is compiled with [NDEBUG], which turns
    [assert] into nothing. *)
Variable NDEBUG : bool.

Definition assert_ (c : bool) : result unit :=
  if NDEBUG || c then Ok tt else Err AssertionFailed.

Definition circular_increment (q : t) (i : iterator) : result iterator :=
  _ ← assert_ (negb (empty (_messages q)) && negb (iter_eqb i end_));
  h ← defined i;
  i ← defined (succ (_messages q) h);
  if iter_eqb i end_ then Ok (begin_ (_messages q)) else Ok i.

Definition erase (s : state) (i : iterator) : result state :=
  let q := queue s in
  h ← defined i;
  m ← defined (get (_messages q) h);
  let ob := OutboundMessages.release (outbound s) m in
  r ← defined (StdList.erase (_messages q) h);
  let q' :=
    if iter_eqb i (_next q) then
      let q1 := set_next (set_messages q (fst r)) (snd r) in
      if iter_eqb (_next q1) end_
      then set_next q1 (begin_ (_messages q1)) else q1
    else set_messages q (fst r) in
  Ok (mkState q' (heap s) ob (encoder s) (memory s) (encoded s)).

Definition encode_targets (e : Encoder.t) (mem : list Z) (targets : list uuid)
  : result (Encoder.t * list Z) :=
  if (255 <? length targets)%nat then
    _ ← assert_ false;
    Ok (Encoder.set_error e, mem)
  else
    let '(e, mem) := Encoder.put_u8 e mem (Z.of_nat (length targets)) in
    Ok (fold_left (fun em id => Encoder.put_raw (fst em) (snd em) (uuid_bytes id))
                  targets (e, mem)).

Definition encode (e : Encoder.t) (mem : list Z) (targets : list uuid)
           (msg : Message.t) : result (Encoder.t * list Z) :=
  let '(e, mem) := Encoder.put_raw e mem (uuid_bytes (Message.source msg)) in
  '(e, mem) ← encode_targets e mem targets;
  Ok (Encoder.put_raw e mem (Message.bytes msg)).

Definition try_encode (e : Encoder.t) (mem : list Z) (targets : list uuid)
           (msg : Message.t) : result (bool * Encoder.t * list Z) :=
  let prev_begin := Encoder.current_begin e in
  let prev_error := Encoder.was_error e in
  '(e, mem) ← encode e mem targets msg;
  if Encoder.error e then
    Ok (false,
        {| Encoder.current_begin := prev_begin
         ; Encoder.current_end   := Encoder.current_end e
         ; Encoder.was_error     := prev_error |},
        mem)
  else Ok (true, e, mem).

Inductive flow : Set := Continue | Break.

(** One round of the [while (true)] loop of [encode_few]. *)
Definition encode_round (last : iterator) (s : state) (count : Z)
  : result (flow * state * Z) :=
  let current := _next (queue s) in
  i ← circular_increment (queue s) (_next (queue s));
  let s := set_queue s (set_next (queue s) i) in
  let is_last := iter_eqb current last in
  h ← defined current;
  p ← defined (get (_messages (queue s)) h);
  m ← defined (heap s !! p);
  let inter := set_intersection (Message.targets m) (_targets (queue s)) in
  let s := set_queue s (set_target_intersection (queue s) inter) in
  match inter with
  | [] =>
      s ← erase s current;
      if empty (_messages (queue s)) then Ok (Break, s, count)
      else Ok (Continue, s, count)
  | _ :: _ =>
      r ← try_encode (encoder s) (memory s) inter m;
      let '(ok, e, mem) := r in
      if negb ok then
        Ok (Break,
            mkState (set_next (queue s) current) (heap s) (outbound s)
                    e mem (encoded s),
            count)
      else
        let offset := Encoder.current_begin (encoder s) in
        let s := mkState (queue s) (heap s) (outbound s) e mem
                         ((p, offset) :: encoded s) in
        let count := (count + 1) mod 2 ^ 16 in
        if negb (Message.is_reliable m) then
          let m' := Message.set_targets m
                      (Message.targets m ∖ _targets (queue s)) in
          let s := mkState (queue s) (<[p := m']> (heap s)) (outbound s)
                           (encoder s) (memory s) (encoded s) in
          if bool_decide (Message.targets m' = ∅) then
            s ← erase s current;
            if empty (_messages (queue s)) then Ok (Break, s, count)
            else if is_last then Ok (Break, s, count)
                 else Ok (Continue, s, count)
          else if is_last then Ok (Break, s, count)
               else Ok (Continue, s, count)
        else if is_last then Ok (Break, s, count)
             else Ok (Continue, s, count)
  end.

Fixpoint encode_loop (fuel : nat) (last : iterator) (s : state) (count : Z)
  : result (Z * state) :=
  match fuel with
  | O => Err OutOfFuel
  | S fuel' =>
      r ← encode_round last s count;
      let '(f, s, count) := r in
      match f with
      | Break => Ok (count, s)
      | Continue => encode_loop fuel' last s count
      end
  end.

(** Every round that does not leave the loop erases a message or moves
    the write cursor forward, which bounds the number of rounds. *)
Definition rounds (s : state) : nat :=
  S (length (_messages (queue s)) + Encoder.room (encoder s)).

Definition encode_few (s : state) : result (Z * state) :=
  let count := 0 in
  if empty (_messages (queue s)) then Ok (0, s)
  else
    let last := _next (queue s) in
    last ← (if iter_eqb last (begin_ (_messages (queue s)))
            then defined (decr (_messages (queue s)) end_)
            else defined (decr (_messages (queue s)) last));
    encode_loop (rounds s) last s count.

End Build.

(** Every message pointer in the queue points to a message. *)
Definition valid_state (s : state) : Prop :=
  valid (queue s) /\
  (forall h p, In (h, p) (_messages (queue s)) -> is_Some (heap s !! p)) /\
  (Encoder.current_end (encoder s) <= length (memory s))%nat.

(** A state at the head of the loop of [encode_few]. *)
Definition loop_head (s : state) : Prop :=
  valid_state s /\ _messages (queue s) <> [] /\ invariant (queue s).

(** The [assert] of [encode_targets] is compiled out, or cannot fail. *)
Definition no_assert (NDEBUG : bool) (q : t) : Prop :=
  NDEBUG = true \/ (size (_targets q) <= 255)%nat.

Definition measure (s : state) : nat :=
  (length (_messages (queue s)) + Encoder.room (encoder s))%nat.

(** What one round does with message [m], held by node [h] through
    pointer [p]: erase it unencoded, stop on a full encoder, or encode
    it. *)
Definition round_effect (NDEBUG : bool) (s : state) (c : Z)
           (h : node) (p : MessagePtr) (m : Message.t)
           (f : flow) (s' : state) (c' : Z) : Prop :=
  let inter := set_intersection (Message.targets m) (_targets (queue s)) in
  (inter = [] /\ ~ In h (nodes (_messages (queue s'))) /\
   encoded s' = encoded s /\ heap s' = heap s /\
   encoder s' = encoder s /\ memory s' = memory s /\ c' = c)
  \/
  (inter <> [] /\
   try_encode NDEBUG (encoder s) (memory s) inter m
   = Ok (false, encoder s', memory s') /\
   f = Break /\ _next (queue s') = Some h /\
   _messages (queue s') = _messages (queue s) /\
   encoded s' = encoded s /\ heap s' = heap s /\ c' = c)
  \/
  (inter <> [] /\
   try_encode NDEBUG (encoder s) (memory s) inter m
   = Ok (true, encoder s', memory s') /\
   encoded s' = (p, Encoder.current_begin (encoder s)) :: encoded s /\
   c' = (c + 1) mod 2 ^ 16 /\
   heap s' =
     (if Message.is_reliable m then heap s
      else <[p := Message.set_targets m
                    (Message.targets m ∖ _targets (queue s))]> (heap s)) /\
   (Message.is_reliable m = false ->
    Message.targets m ∖ _targets (queue s) = ∅ ->
    ~ In h (nodes (_messages (queue s'))))).

Definition round_facts (NDEBUG : bool) (s : state) (c : Z)
           (f : flow) (s' : state) (c' : Z) : Prop :=
  exists h p m,
    _next (queue s) = Some h /\
    get (_messages (queue s)) h = Some p /\
    heap s !! p = Some m /\
    valid_state s' /\ invariant (queue s') /\
    _targets (queue s') = _targets (queue s) /\
    (forall x, In x (_messages (queue s')) -> In x (_messages (queue s))) /\
    (f = Continue ->
     _messages (queue s') <> [] /\ (measure s' < measure s)%nat) /\
    round_effect NDEBUG s c h p m f s' c'.

(** The bytes of one message record. *)
Definition record_bytes (targets : list uuid) (msg : Message.t) : list Z :=
  uuid_bytes (Message.source msg)
  ++ [Z.of_nat (length targets) mod 256]
  ++ concat (map uuid_bytes targets)
  ++ Message.bytes msg.

(** The writes that make up one record. *)
Definition chunks (targets : list uuid) (msg : Message.t) : list (list Z) :=
  [uuid_bytes (Message.source msg); [Z.of_nat (length targets) mod 256]]
  ++ map uuid_bytes targets ++ [Message.bytes msg].

(** The records written so far by a call that started in [s0] are as
    many as the count [c] says, all carry a target count in [1..255], and
    lie in front of the write cursor. *)
Definition counts_in_range (s0 s : state) (c : Z) : Prop :=
  exists new,
    encoded s = new ++ encoded s0 /\
    c = Z.of_nat (length new) mod 2 ^ 16 /\
    forall p off,
      In (p, off) new ->
      (off + 16 < Encoder.current_begin (encoder s))%nat /\
      exists n, memory s !! (off + 16)%nat = Some n /\ 1 <= n <= 255.

(** Message [p] is unreliable and was encoded at most once; once it was
    encoded, none of the link's targets [T] is left among its targets. *)
Definition encoded_once (T : gset uuid) (p : MessagePtr) (s : state) : Prop :=
  _targets (queue s) = T /\
  exists m,
    heap s !! p = Some m /\ Message.is_reliable m = false /\
    (count_occ Nat.eq_dec (map fst (encoded s)) p = 0%nat \/
     (count_occ Nat.eq_dec (map fst (encoded s)) p = 1%nat /\
      Message.targets m ∩ T = ∅)).

(** ** States to run the code on

    A link that reaches peer 1.  Message 100 is reliable and still has
    peer 1 among its targets; message 101 is reliable too, but its only
    remaining target, peer 2, is not reached through this link (as after
    every target on this link has acknowledged it); message 102 is
    unreliable, for peers 1 and 3. *)
Definition example_heap : gmap MessagePtr Message.t :=
  <[100%nat := Message.mk 10%N {[1%N]} [7] true]>
    (<[101%nat := Message.mk 10%N {[2%N]} [8] true]>
       (<[102%nat := Message.mk 11%N {[1%N; 3%N]} [9] false]> ∅)).

Definition example_state (messages : StdList.t MessagePtr) (next : iterator)
           (capacity : nat) : state :=
  {| queue := {| _targets := {[1%N]}; _messages := messages; _next := next
               ; _target_intersection := []; node_supply := 10%nat |}
   ; heap := example_heap
   ; outbound := ∅
   ; encoder := Encoder.mk 0 capacity false
   ; memory := replicate capacity 0
   ; encoded := [] |}.

(** A sequence of [encode_few] calls on one queue, each with an encoder
    and a buffer of its own. *)
Fixpoint encode_many (NDEBUG : bool) (calls : list (Encoder.t * list Z))
         (s : state) : result state :=
  match calls with
  | [] => Ok s
  | (e, mem) :: calls' =>
      r ← encode_few NDEBUG
            (mkState (queue s) (heap s) (outbound s) e mem (encoded s));
      encode_many NDEBUG calls' (snd r)
  end.

End TransmitQueue.

(* ===================================================================== *)
(** * Notions used to state more about TransmitQueue                      *)
(* ===================================================================== *)

Module TransmitQueueNotions.

Import StdList TransmitQueue.

(** The list read from position [k] on, and around. *)
Definition rotation {A} (k : nat) (l : list A) : list A := drop k l ++ take k l.

(** The loop terminator [last] that [encode_few] computes before its loop:
    the element before the cursor, in circular order. *)
Definition terminator (q : t) : option iterator :=
  if iter_eqb (_next q) (begin_ (_messages q))
  then decr (_messages q) end_
  else decr (_messages q) (_next q).

(** [circular_increment] applied [n] times. *)
Fixpoint advance (NDEBUG : bool) (q : t) (n : nat) (i : iterator) : result iterator :=
  match n with
  | O => Ok i
  | S n' => j ← circular_increment NDEBUG q i; advance NDEBUG q n' j
  end.

(** The size of the record of message [p] on a link with targets [T]. *)
Definition record_size (heap : gmap MessagePtr Message.t) (T : gset uuid)
           (p : MessagePtr) : nat :=
  match heap !! p with
  | Some m => length (record_bytes (set_intersection (Message.targets m) T) m)
  | None => 0
  end.

(** How many records of the given sizes, taken in order, fit into [room]
    bytes before the first one that does not. *)
Fixpoint fits (sizes : list nat) (room : nat) : nat :=
  match sizes with
  | [] => 0
  | L :: sizes' => if (L <=? room)%nat then S (fits sizes' (room - L)) else 0
  end.

(** Queue [q'] is queue [q] after [erase] took out node [h], which held
    [p]. *)
Definition erased_from (q q' : t) (h : node) (p : MessagePtr) : Prop :=
  exists l1 l2,
    _messages q = l1 ++ (h, p) :: l2 /\ ~ In h (nodes l1) /\
    _messages q' = l1 ++ l2 /\
    _next q' = (if iter_eqb (Some h) (_next q) then begin_ (l2 ++ l1)
                else _next q) /\
    _targets q' = _targets q.

(** The four ways through one round of the loop of [encode_few], for the
    message [m] under the cursor: dropped unencoded, refused by a full
    encoder, encoded and kept, encoded and erased. *)
Definition round_outcome (NDEBUG : bool) (last : iterator) (s : state) (c : Z)
           (f : flow) (s' : state) (c' : Z) : Prop :=
  exists h i p m,
    _next (queue s) = Some h /\
    circular_increment NDEBUG (queue s) (Some h) = Ok i /\
    get (_messages (queue s)) h = Some p /\
    heap s !! p = Some m /\
    let T := _targets (queue s) in
    let inter := set_intersection (Message.targets m) T in
    let m' := Message.set_targets m (Message.targets m ∖ T) in
    let stop := if iter_eqb (Some h) last then Break else Continue in
    (inter = [] /\
     erased_from (set_next (queue s) i) (queue s') h p /\
     outbound s' = OutboundMessages.release (outbound s) p /\
     heap s' = heap s /\ encoder s' = encoder s /\ memory s' = memory s /\
     encoded s' = encoded s /\ c' = c /\
     f = (if empty (_messages (queue s')) then Break else Continue))
    \/
    (inter <> [] /\
     try_encode NDEBUG (encoder s) (memory s) inter m
     = Ok (false, encoder s', memory s') /\
     _messages (queue s') = _messages (queue s) /\
     _next (queue s') = Some h /\ _targets (queue s') = T /\
     outbound s' = outbound s /\ heap s' = heap s /\
     encoded s' = encoded s /\ c' = c /\ f = Break)
    \/
    (inter <> [] /\
     try_encode NDEBUG (encoder s) (memory s) inter m
     = Ok (true, encoder s', memory s') /\
     encoded s' = (p, Encoder.current_begin (encoder s)) :: encoded s /\
     c' = (c + 1) mod 2 ^ 16 /\
     _messages (queue s') = _messages (queue s) /\
     _next (queue s') = i /\ _targets (queue s') = T /\
     outbound s' = outbound s /\ f = stop /\
     ((Message.is_reliable m = true /\ heap s' = heap s) \/
      (Message.is_reliable m = false /\ Message.targets m ∖ T <> ∅ /\
       heap s' = <[p := m']> (heap s))))
    \/
    (inter <> [] /\
     try_encode NDEBUG (encoder s) (memory s) inter m
     = Ok (true, encoder s', memory s') /\
     encoded s' = (p, Encoder.current_begin (encoder s)) :: encoded s /\
     c' = (c + 1) mod 2 ^ 16 /\
     Message.is_reliable m = false /\ Message.targets m ∖ T = ∅ /\
     heap s' = <[p := m']> (heap s) /\
     erased_from (set_next (queue s) i) (queue s') h p /\
     outbound s' = OutboundMessages.release (outbound s) p /\
     f = (if empty (_messages (queue s')) then Break else stop)).

(** The bytes of [mem] from offset [from] up to offset [to]. *)
Definition region (mem : list Z) (from to : nat) : list Z :=
  take (to - from) (drop from mem).

(** [r] is a record for message [p] as it was in [heap0]: its source and
    bytes, and between 1 and 255 target ids, all of them targets of the
    message that the link [T] reaches. *)
Definition record_of (heap0 : gmap MessagePtr Message.t) (T : gset uuid)
           (p : MessagePtr) (r : list Z) : Prop :=
  exists m targets,
    heap0 !! p = Some m /\ r = record_bytes targets m /\
    (1 <= length targets <= 255)%nat /\
    forall id, In id targets -> id ∈ Message.targets m /\ id ∈ T.

(** The log [entries], oldest first, matches the records [recs] lying back
    to back from offset [off] on. *)
Fixpoint laid_out (heap0 : gmap MessagePtr Message.t) (T : gset uuid)
         (off : nat) (entries : list (MessagePtr * nat)) (recs : list (list Z))
  : Prop :=
  match entries, recs with
  | [], [] => True
  | (p, o) :: entries', r :: recs' =>
      o = off /\ record_of heap0 T p r /\
      laid_out heap0 T (off + length r) entries' recs'
  | _, _ => False
  end.

(** What a call of [encode_few] that started in [s0] has done to the queue
    and to the messages by the time it is in [s1]. *)
Record kept (s0 s1 : state) : Prop :=
  { kept_targets : _targets (queue s1) = _targets (queue s0)
  ; kept_heap :
      forall p,
        match heap s0 !! p, heap s1 !! p with
        | Some m, Some m' =>
            m' = m \/
            (Message.is_reliable m = false /\
             m' = Message.set_targets m
                    (Message.targets m ∖ _targets (queue s0)))
        | None, None => True
        | _, _ => False
        end
  ; kept_order : sublist (_messages (queue s1)) (_messages (queue s0))
  ; kept_wanted :
      forall h p,
        In (h, p) (_messages (queue s0)) ->
        In (h, p) (_messages (queue s1)) \/
        exists m', heap s1 !! p = Some m' /\
                   Message.targets m' ∩ _targets (queue s0) = ∅ }.

(** What a call of [encode_few] that started in [s0] has written by the
    time it is in [s1] with count [c]. *)
Record written (s0 s1 : state) (c : Z) (new : list (MessagePtr * nat))
       (recs : list (list Z)) : Prop :=
  { written_log : encoded s1 = new ++ encoded s0
  ; written_count : c = Z.of_nat (length new) mod 2 ^ 16
  ; written_records :
      laid_out (heap s0) (_targets (queue s0))
               (Encoder.current_begin (encoder s0)) (rev new) recs
  ; written_cursor :
      Encoder.current_begin (encoder s1)
      = (Encoder.current_begin (encoder s0) + length (concat recs))%nat
  ; written_bytes :
      region (memory s1) (Encoder.current_begin (encoder s0))
             (Encoder.current_begin (encoder s1)) = concat recs
  ; written_before :
      take (Encoder.current_begin (encoder s0)) (memory s1)
      = take (Encoder.current_begin (encoder s0)) (memory s0)
  ; written_length : length (memory s1) = length (memory s0)
  ; written_end :
      Encoder.current_end (encoder s1) = Encoder.current_end (encoder s0)
  ; written_error :
      Encoder.was_error (encoder s1) = Encoder.was_error (encoder s0)
  ; written_sent :
      forall p, heap s1 !! p = heap s0 !! p \/ In p (map fst new)
  ; written_room :
      recs <> [] ->
      Encoder.was_error (encoder s0) = false /\
      (Encoder.current_begin (encoder s1) <= Encoder.current_end (encoder s0))%nat }.

End TransmitQueueNotions.

(* ===================================================================== *)
(** * Facts about the list model                                          *)
(* ===================================================================== *)

Module StdListFacts.

Import StdList.

Section Facts.

Context {A : Type}.
Implicit Types (l : StdList.t A) (h : node) (i : iterator).

Lemma begin_None l : begin_ l = None <-> l = [].
Proof. destruct l as [|[h y] l]; simpl; split; congruence. Qed.

Lemma begin_In l h : begin_ l = Some h -> In h (nodes l).
Proof. destruct l as [|[h' y] l]; simpl; [discriminate|]. intros [= ->]. auto. Qed.

Lemma empty_nil l : empty l = true <-> l = [].
Proof. destruct l; simpl; split; congruence. Qed.

Lemma iter_eqb_eq i j : iter_eqb i j = true <-> i = j.
Proof. unfold iter_eqb. apply bool_decide_eq_true. Qed.

Lemma iter_eqb_neq i j : iter_eqb i j = false <-> i <> j.
Proof. unfold iter_eqb. apply bool_decide_eq_false. Qed.

Lemma get_In l h y : get l h = Some y -> In (h, y) l.
Proof.
  induction l as [|[h' y'] l IH]; simpl; [discriminate|].
  destruct (Nat.eqb_spec h' h) as [->|_].
  - intros [= ->]. auto.
  - auto.
Qed.

Lemma In_get l h : In h (nodes l) -> exists y, get l h = Some y.
Proof.
  induction l as [|[h' y'] l IH]; simpl; [intros []|].
  destruct (Nat.eqb_spec h' h) as [->|Hne]; [eauto|].
  intros [?|?]; [congruence | auto].
Qed.

Lemma succ_In l h :
  In h (nodes l) ->
  exists i, succ l h = Some i /\ forall h', i = Some h' -> In h' (nodes l).
Proof.
  induction l as [|[h' y'] l IH]; simpl; [intros []|].
  destruct (Nat.eqb_spec h' h) as [->|Hne].
  - intros _. eexists. split; [reflexivity|].
    intros h' Hb. right. apply begin_In, Hb.
  - intros [?|Hin]; [congruence|].
    destruct (IH Hin) as (i & -> & Hi). eauto.
Qed.

Lemma erase_In l h :
  In h (nodes l) ->
  exists l' i,
    erase l h = Some (l', i) /\
    length l = S (length l') /\
    (forall x, In x l' -> In x l) /\
    (forall h', i = Some h' -> In h' (nodes l')) /\
    (List.NoDup (nodes l) ->
     List.NoDup (nodes l') /\ ~ In h (nodes l') /\
     forall h', h' <> h -> In h' (nodes l) -> In h' (nodes l')).
Proof.
  induction l as [|[h' y'] l IH]; simpl; [intros []|].
  destruct (Nat.eqb_spec h' h) as [->|Hne].
  - intros _. exists l, (begin_ l).
    split; [reflexivity|]. split; [reflexivity|]. split; [auto|].
    split; [intros ?; apply begin_In|].
    intros Hnd. apply List.NoDup_cons_iff in Hnd. destruct Hnd as [Hh Hnd].
    split; [assumption|]. split; [assumption|].
    intros h' Hh' [?|?]; [congruence | assumption].
  - intros [?|Hin]; [congruence|].
    destruct (IH Hin) as (l' & i & -> & Hlen & Hincl & Hi & Hnd).
    exists ((h', y') :: l'), i. simpl.
    split; [reflexivity|]. split; [lia|].
    split; [intros x [?|?]; auto|].
    split; [intros h'' Hh''; right; apply Hi, Hh''|].
    intros Hnd'. apply List.NoDup_cons_iff in Hnd'. destruct Hnd' as [Hh Hnd'].
    destruct (Hnd Hnd') as (Hnd1 & Hnot & Hkeep).
    split.
    + apply List.NoDup_cons; [|assumption].
      intros Hc. apply Hh. unfold nodes in *. apply in_map_iff in Hc.
      destruct Hc as (x & Hx & Hxin). apply in_map_iff. exists x. auto.
    + split; [intros [?|?]; [congruence | auto]|].
      intros h'' Hne' [?|?]; [left; assumption | right; auto].
Qed.

Lemma insert_valid l i fresh x :
  (forall h, i = Some h -> In h (nodes l)) ->
  exists l',
    insert l i fresh x = Some l' /\ l' <> [] /\
    (forall h, In h (nodes l') <-> h = fresh \/ In h (nodes l)) /\
    (forall h, begin_ l' = Some h -> i = None -> l = [] -> h = fresh).
Proof.
  induction l as [|[h' y'] l IH]; simpl; intros Hi.
  - destruct i as [h|]; [destruct (Hi h eq_refl)|].
    eexists. split; [reflexivity|]. split; [discriminate|].
    split; [simpl; intros h; split; intros [?|?]; auto|].
    simpl. intros h [= <-] _ _. reflexivity.
  - destruct (iter_eqb i (Some h')) eqn:E.
    + eexists. split; [reflexivity|]. split; [discriminate|].
      split; [|intros; discriminate].
      simpl. intros h. split; intros [?|?]; auto.
    + apply iter_eqb_neq in E.
      destruct IH as (l' & -> & Hne & Hmem & _).
      { intros h Hh. destruct (Hi h Hh) as [?|?]; [congruence | assumption]. }
      eexists. split; [reflexivity|]. split; [discriminate|].
      split; [|intros; discriminate].
      simpl. intros h. rewrite Hmem. tauto.
Qed.

Lemma back_nonempty l : l <> [] -> exists h, back l = Some (Some h).
Proof.
  unfold back, nodes. induction l as [|[h y] l IH]; [congruence|]. intros _.
  destruct l as [|[h2 y2] l]; [simpl; eauto|].
  destruct IH as (h' & Hh'); [discriminate|].
  exists h'. simpl in *. exact Hh'.
Qed.

Lemma pred_In l h :
  In h (nodes l) -> begin_ l <> Some h -> exists h', pred l h = Some (Some h').
Proof.
  induction l as [|[h1 y1] l IH]; [intros []|].
  intros Hin Hb. simpl in Hb.
  destruct Hin as [?|Hin]; [simpl in *; congruence|].
  destruct l as [|[h2 y2] l]; [destruct Hin|].
  simpl. destruct (Nat.eqb_spec h2 h) as [->|Hne]; [eauto|].
  apply IH; [assumption|]. simpl. congruence.
Qed.

End Facts.

End StdListFacts.

(* ===================================================================== *)
(** * Facts about the encoder model                                       *)
(* ===================================================================== *)

Module EncoderFacts.

Import Encoder.

Lemma write_at_length mem off bs :
  (off + length bs <= length mem)%nat ->
  length (write_at mem off bs) = length mem.
Proof.
  intros H. unfold write_at.
  rewrite !length_app, length_take, length_drop. lia.
Qed.

Lemma write_at_take mem off bs n :
  (n <= off)%nat -> (off <= length mem)%nat ->
  take n (write_at mem off bs) = take n mem.
Proof.
  intros Hn Hoff. unfold write_at.
  rewrite take_app_le by (rewrite length_take; lia).
  rewrite take_take. f_equal. lia.
Qed.

Lemma write_at_lookup mem off bs i :
  (off <= length mem)%nat ->
  write_at mem off bs !! (off + i)%nat = (bs ++ drop (off + length bs) mem) !! i.
Proof.
  intros Hoff. unfold write_at.
  rewrite lookup_app_r by (rewrite length_take; lia).
  f_equal. rewrite length_take. lia.
Qed.

Lemma write_at_app mem off a b :
  (off + length a <= length mem)%nat ->
  write_at (write_at mem off a) (off + length a) b = write_at mem off (a ++ b).
Proof.
  intros H. unfold write_at.
  assert (length (take off mem) = off) as Hl by (rewrite length_take; lia).
  rewrite (app_assoc (take off mem) a).
  rewrite take_app_length' by (rewrite length_app; lia).
  rewrite drop_app_ge by (rewrite length_app; lia).
  rewrite drop_drop, <- !app_assoc, !length_app, Hl.
  do 3 f_equal. f_equal. lia.
Qed.

Lemma put_all_cons e mem c chunks :
  put_all e mem (c :: chunks)
  = put_all (fst (put_raw e mem c)) (snd (put_raw e mem c)) chunks.
Proof. unfold put_all. simpl. destruct (put_raw e mem c); reflexivity. Qed.

Lemma put_all_app e mem c1 c2 :
  put_all e mem (c1 ++ c2)
  = put_all (fst (put_all e mem c1)) (snd (put_all e mem c1)) c2.
Proof.
  unfold put_all. rewrite fold_left_app.
  destruct (fold_left _ c1 (e, mem)); reflexivity.
Qed.

Lemma put_all_map {A} (f : A -> list Z) (l : list A) :
  forall em,
    fold_left (fun em x => put_raw (fst em) (snd em) (f x)) l em
    = put_all (fst em) (snd em) (map f l).
Proof.
  unfold put_all. induction l as [|x l IH]; intros [e mem]; [reflexivity|].
  simpl. rewrite IH. destruct (put_raw e mem (f x)); reflexivity.
Qed.

Lemma put_all_sticky e mem chunks :
  was_error e = true -> put_all e mem chunks = (e, mem).
Proof.
  intros He. induction chunks as [|c chunks IH]; [reflexivity|].
  rewrite put_all_cons. unfold put_raw. rewrite He. exact IH.
Qed.

Lemma put_all_fits chunks :
  forall e mem,
    was_error e = false ->
    (current_begin e + length (concat chunks) <= current_end e)%nat ->
    (current_end e <= length mem)%nat ->
    put_all e mem chunks
    = (mk (current_begin e + length (concat chunks)) (current_end e) false,
       write_at mem (current_begin e) (concat chunks)).
Proof.
  induction chunks as [|c chunks IH]; intros e mem He Hfit Hmem.
  - simpl. unfold write_at. rewrite !Nat.add_0_r. simpl. rewrite take_drop.
    destruct e; simpl in *; subst; reflexivity.
  - simpl concat in *. rewrite length_app in Hfit.
    rewrite put_all_cons. unfold put_raw at 1 2. rewrite He.
    destruct (Nat.ltb_spec (current_end e) (current_begin e + length c)); [lia|].
    simpl fst. simpl snd. rewrite IH; simpl; try lia.
    + rewrite write_at_app by lia. rewrite length_app. f_equal. f_equal. lia.
    + rewrite write_at_length by lia. assumption.
Qed.

Lemma put_all_overflow chunks :
  forall e mem,
    (current_end e <= length mem)%nat ->
    was_error e = true \/
    ((0 < length (concat chunks))%nat /\
     (current_end e < current_begin e + length (concat chunks))%nat) ->
    was_error (fst (put_all e mem chunks)) = true /\
    current_end (fst (put_all e mem chunks)) = current_end e /\
    length (snd (put_all e mem chunks)) = length mem /\
    take (current_begin e) (snd (put_all e mem chunks)) = take (current_begin e) mem.
Proof.
  induction chunks as [|c chunks IH]; intros e mem Hmem Hcase.
  - destruct Hcase as [He|[Hpos _]]; [|simpl in Hpos; lia].
    simpl. auto.
  - destruct Hcase as [He|[Hpos Hover]].
    + rewrite put_all_sticky by assumption. simpl. auto.
    + simpl concat in *. rewrite length_app in *.
      rewrite put_all_cons. unfold put_raw at 1 2 3 4 5 6 7 8.
      destruct (was_error e) eqn:He.
      * simpl. rewrite put_all_sticky by assumption. simpl. auto.
      * destruct (Nat.ltb_spec (current_end e) (current_begin e + length c)).
        -- simpl. rewrite put_all_sticky by reflexivity. simpl. auto.
        -- simpl fst. simpl snd.
           destruct (IH (mk (current_begin e + length c) (current_end e) false)
                        (write_at mem (current_begin e) c))
             as (H1 & H2 & H3 & H4).
           { simpl. rewrite write_at_length by lia. assumption. }
           { right. simpl. lia. }
           simpl in *. split; [assumption|]. split; [assumption|].
           rewrite write_at_length in H3 by lia. split; [assumption|].
           apply (f_equal (take (current_begin e))) in H4.
           rewrite !take_take in H4.
           replace (current_begin e `min` (current_begin e + length c))%nat
             with (current_begin e) in H4 by lia.
           rewrite H4. apply write_at_take; lia.
Qed.

End EncoderFacts.

(* ===================================================================== *)
(** * Facts about TransmitQueue                                           *)
(* ===================================================================== *)

Module TransmitQueueFacts.

Import StdList StdListFacts EncoderFacts TransmitQueue.

Lemma bind_Ok {A B} (a : A) (f : A -> result B) : (Ok a ≫= f) = f a.
Proof. reflexivity. Qed.

Lemma bind_Err {A B} (e : fault) (f : A -> result B) : (Err e ≫= f) = Err e.
Proof. reflexivity. Qed.

Ltac run := cbn [mbind result_bind defined]; rewrite ?bind_Ok, ?bind_Err.

Ltac fields :=
  unfold set_queue, set_next, set_messages, set_target_intersection;
  cbn [queue heap outbound encoder memory encoded
       _targets _messages _next _target_intersection node_supply].

Lemma uuid_bytes_length u : length (uuid_bytes u) = 16%nat.
Proof. reflexivity. Qed.

Lemma concat_uuid_length targets :
  length (concat (map uuid_bytes targets)) = (16 * length targets)%nat.
Proof.
  induction targets as [|u targets IH]; [reflexivity|].
  cbn [map concat]. rewrite length_app, uuid_bytes_length, IH. simpl length. lia.
Qed.

Lemma record_bytes_length targets msg :
  length (record_bytes targets msg)
  = (17 + 16 * length targets + length (Message.bytes msg))%nat.
Proof.
  unfold record_bytes.
  rewrite !length_app, uuid_bytes_length, concat_uuid_length. simpl. lia.
Qed.

Lemma record_bytes_count targets msg :
  record_bytes targets msg !! 16%nat = Some (Z.of_nat (length targets) mod 256).
Proof.
  unfold record_bytes.
  rewrite lookup_app_r by (rewrite uuid_bytes_length; lia).
  rewrite uuid_bytes_length. reflexivity.
Qed.

(** ** set_intersection *)

Lemma set_intersection_length (a b : gset uuid) :
  length (set_intersection a b) = size (a ∩ b).
Proof.
  unfold set_intersection.
  rewrite (Permutation_length (merge_sort_Permutation N.le _)). reflexivity.
Qed.

Lemma set_intersection_nil (a b : gset uuid) :
  set_intersection a b = [] <-> a ∩ b = ∅.
Proof.
  rewrite <- length_zero_iff_nil, set_intersection_length.
  rewrite size_empty_iff. apply leibniz_equiv_iff.
Qed.

Lemma set_intersection_bound (a b : gset uuid) :
  (length (set_intersection a b) <= size b)%nat.
Proof.
  rewrite set_intersection_length. apply subseteq_size.
  apply intersection_subseteq_r.
Qed.

(** ** encode and try_encode *)


Lemma concat_chunks targets msg :
  concat (chunks targets msg) = record_bytes targets msg.
Proof.
  unfold chunks, record_bytes. rewrite concat_app, concat_app. simpl.
  rewrite app_nil_r. reflexivity.
Qed.

Lemma encode_put_all NDEBUG e mem targets msg :
  (length targets <= 255)%nat ->
  encode NDEBUG e mem targets msg
  = Ok (Encoder.put_all e mem (chunks targets msg)).
Proof.
  intros Hlen. unfold encode, encode_targets, chunks, Encoder.put_u8.
  destruct (Nat.ltb_spec 255 (length targets)); [lia|].
  rewrite put_all_app. simpl Encoder.put_all at 2 3.
  unfold Encoder.put_all at 2 3. simpl fold_left.
  destruct (Encoder.put_raw e mem (uuid_bytes (Message.source msg))) as [e1 m1].
  simpl fst. simpl snd.
  destruct (Encoder.put_raw e1 m1 [Z.of_nat (length targets) mod 256]) as [e2 m2].
  simpl. rewrite put_all_app, (put_all_map uuid_bytes targets (e2, m2)). simpl.
  destruct (Encoder.put_all e2 m2 (map uuid_bytes targets)) as [e3 m3].
  unfold Encoder.put_all. simpl.
  destruct (Encoder.put_raw e3 m3 (Message.bytes msg)); reflexivity.
Qed.

Lemma try_encode_total NDEBUG e mem targets msg :
  NDEBUG = true \/ (length targets <= 255)%nat ->
  (Encoder.current_end e <= length mem)%nat ->
  exists b e' mem',
    try_encode NDEBUG e mem targets msg = Ok (b, e', mem') /\
    length mem' = length mem /\
    take (Encoder.current_begin e) mem' = take (Encoder.current_begin e) mem /\
    (b = false -> e' = e) /\
    (b = true ->
     Encoder.was_error e = false /\
     (length targets <= 255)%nat /\
     (Encoder.current_begin e + length (record_bytes targets msg)
      <= Encoder.current_end e)%nat /\
     e' = Encoder.mk (Encoder.current_begin e + length (record_bytes targets msg))
                     (Encoder.current_end e) false /\
     mem' = Encoder.write_at mem (Encoder.current_begin e)
                             (record_bytes targets msg)).
Proof.
  intros Hassert Hmem.
  destruct (Nat.le_gt_cases (length targets) 255) as [Hlen|Hbig].
  - unfold try_encode. rewrite encode_put_all by assumption.
    simpl mbind. unfold mbind, result_bind.
    destruct (Encoder.was_error e) eqn:He.
    + rewrite put_all_sticky by assumption. unfold Encoder.error. rewrite He.
      exists false, e, mem. split; [destruct e; simpl in *; congruence|].
      repeat split; auto; discriminate.
    + destruct (Nat.le_gt_cases
                  (Encoder.current_begin e + length (record_bytes targets msg))
                  (Encoder.current_end e)) as [Hfit|Hover].
      * rewrite put_all_fits by (rewrite ?concat_chunks; auto).
        rewrite concat_chunks. unfold Encoder.error. simpl.
        eexists true, _, _. split; [reflexivity|].
        split; [apply write_at_length; lia|].
        split; [apply write_at_take; lia|].
        split; [discriminate|]. auto.
      * destruct (put_all_overflow (chunks targets msg) e mem Hmem)
          as (H1 & H2 & H3 & H4).
        { right. rewrite concat_chunks, record_bytes_length in *. lia. }
        destruct (Encoder.put_all e mem (chunks targets msg)) as [e1 m1].
        simpl in *. unfold Encoder.error. rewrite H1, H2.
        exists false, e, m1. split; [destruct e; simpl in *; congruence|].
        repeat split; auto; discriminate.
  - destruct Hassert as [->|?]; [|lia].
    unfold try_encode, encode, encode_targets.
    destruct (Nat.ltb_spec 255 (length targets)); [|lia].
    pose proof (put_all_overflow [uuid_bytes (Message.source msg)] e mem Hmem) as Hsrc.
    unfold Encoder.put_all in Hsrc. simpl fold_left in Hsrc.
    destruct (Encoder.put_raw e mem (uuid_bytes (Message.source msg)))
      as [e1 m1] eqn:Hput.
    simpl. unfold Encoder.put_raw, Encoder.set_error, Encoder.error. simpl.
    assert (Encoder.current_end e1 = Encoder.current_end e /\
            length m1 = length mem /\
            take (Encoder.current_begin e) m1 = take (Encoder.current_begin e) mem)
      as (H2 & H3 & H4).
    { unfold Encoder.put_raw in Hput.
      destruct (Encoder.was_error e); [injection Hput as <- <-; auto|].
      destruct (Nat.ltb_spec (Encoder.current_end e)
                  (Encoder.current_begin e + length (uuid_bytes (Message.source msg)))).
      - injection Hput as <- <-. auto.
      - injection Hput as <- <-. simpl.
        rewrite write_at_length by lia. rewrite write_at_take by lia. auto. }
    rewrite H2. exists false, e, m1.
    split; [destruct e; reflexivity|].
    repeat split; auto; discriminate.
Qed.

(** ** The list operations of the queue *)

Lemma circular_increment_valid NDEBUG q h :
  In h (nodes (_messages q)) ->
  exists h', circular_increment NDEBUG q (Some h) = Ok (Some h') /\
             In h' (nodes (_messages q)).
Proof.
  intros Hin. unfold circular_increment, assert_.
  assert (empty (_messages q) = false) as ->
      by (destruct (_messages q); [destruct Hin | reflexivity]).
  simpl. rewrite orb_true_r. simpl.
  destruct (succ_In _ _ Hin) as (i & -> & Hi). simpl.
  destruct i as [h'|]; simpl.
  - exists h'. split; [reflexivity|]. apply Hi. reflexivity.
  - destruct (begin_ (_messages q)) as [h'|] eqn:Hb.
    + exists h'. split; [reflexivity|]. apply begin_In, Hb.
    + apply begin_None in Hb. rewrite Hb in Hin. destruct Hin.
Qed.

Lemma erase_valid s h :
  valid_state s -> In h (nodes (_messages (queue s))) ->
  (_next (queue s) = None -> False) ->
  exists s',
    erase s (Some h) = Ok s' /\
    valid_state s' /\ invariant (queue s') /\
    length (_messages (queue s)) = S (length (_messages (queue s'))) /\
    ~ In h (nodes (_messages (queue s'))) /\
    (forall x, In x (_messages (queue s')) -> In x (_messages (queue s))) /\
    _targets (queue s') = _targets (queue s) /\
    _target_intersection (queue s') = _target_intersection (queue s) /\
    heap s' = heap s /\ encoder s' = encoder s /\ memory s' = memory s /\
    encoded s' = encoded s.
Proof.
  intros ((Hnd & Hsup & Hnext) & Hheap & Hmem) Hin Hsome. unfold erase.
  destruct (In_get _ _ Hin) as (p & Hp). run. rewrite Hp. run.
  destruct (erase_In _ _ Hin) as (l' & i & He & Hlen & Hincl & Hi & Hnd').
  rewrite He. run. cbn [fst snd]. destruct (Hnd' Hnd) as (Hnd1 & Hnot & Hkeep).
  assert (forall h', In h' (nodes l') -> In h' (nodes (_messages (queue s)))) as Hsub.
  { intros h' Hh'. unfold nodes in *. apply in_map_iff in Hh'.
    destruct Hh' as (x & <- & Hx). apply in_map, Hincl, Hx. }
  eexists. split; [reflexivity|]. simpl.
  destruct (iter_eqb (Some h) (_next (queue s))) eqn:E.
  - (* the cursor is on the erased node *)
    unfold set_next, set_messages; simpl.
    destruct (iter_eqb i end_) eqn:Ei; simpl.
    + apply iter_eqb_eq in Ei. subst i.
      split; [|split].
      * split; [|split; [|assumption]]. split; [assumption|]. split.
        -- intros h' Hh'. apply Hsup, Hsub, Hh'.
        -- intros h'. apply begin_In.
        -- intros h' p' Hx. apply (Hheap h' p'), Hincl, Hx.
      * unfold invariant. simpl. rewrite begin_None. tauto.
      * repeat split; auto.
    + apply iter_eqb_neq in Ei.
      split; [|split].
      * split; [|split; [|assumption]]. split; [assumption|]. split.
        -- intros h' Hh'. apply Hsup, Hsub, Hh'.
        -- assumption.
        -- intros h' p' Hx. apply (Hheap h' p'), Hincl, Hx.
      * unfold invariant. simpl. split; [|intros; contradiction].
        intros ->. destruct i as [h'|]; [|contradiction].
        destruct (Hi h' eq_refl).
      * repeat split; auto.
  - (* the cursor is elsewhere and stays *)
    apply iter_eqb_neq in E. unfold set_messages; simpl.
    destruct (_next (queue s)) as [hn|] eqn:Hn; [|contradiction].
    assert (In hn (nodes l')) as Hhn
        by (apply Hkeep; [congruence | apply Hnext; reflexivity]).
    split; [|split].
    + split; [|split; [|assumption]]. split; [assumption|]. split.
      * intros h' Hh'. apply Hsup, Hsub, Hh'.
      * intros h' [= <-]. assumption.
      * intros h' p' Hx. apply (Hheap h' p'), Hincl, Hx.
    + unfold invariant. simpl. split; [|discriminate].
      intros ->. destruct Hhn.
    + repeat split; auto.
Qed.

(** ** One round of the loop *)

Lemma loop_head_cursor s :
  loop_head s ->
  exists h p m, _next (queue s) = Some h /\
                In h (nodes (_messages (queue s))) /\
                get (_messages (queue s)) h = Some p /\
                heap s !! p = Some m.
Proof.
  intros (((Hnd & Hsup & Hnext) & Hheap & Hmem) & Hne & Hinv).
  destruct (_next (queue s)) as [h|] eqn:Hn.
  - pose proof (Hnext h eq_refl) as Hin.
    destruct (In_get _ _ Hin) as (p & Hp).
    destruct (Hheap h p (get_In _ _ _ Hp)) as (m & Hm).
    exists h, p, m. auto.
  - exfalso. apply Hne, Hinv. exact Hn.
Qed.

Lemma room_after e L :
  (Encoder.current_begin e + L <= Encoder.current_end e)%nat -> (0 < L)%nat ->
  (Encoder.room (Encoder.mk (Encoder.current_begin e + L) (Encoder.current_end e) false)
   < Encoder.room e)%nat.
Proof. unfold Encoder.room. simpl. lia. Qed.

Lemma encode_round_spec NDEBUG last s c :
  loop_head s -> no_assert NDEBUG (queue s) ->
  exists f s' c',
    encode_round NDEBUG last s c = Ok (f, s', c') /\
    round_facts NDEBUG s c f s' c'.
Proof.
  intros Hlh Hna.
  destruct (loop_head_cursor s Hlh) as (h & p & m & Hn & Hin & Hp & Hm).
  destruct Hlh as (((Hnd & Hsup & Hnext) & Hheap & Hmem) & Hne & Hinv).
  unfold encode_round. rewrite Hn.
  destruct (circular_increment_valid NDEBUG (queue s) h Hin) as (h' & -> & Hin').
  run. fields. rewrite Hp. run. rewrite Hm. run.
  set (inter := set_intersection (Message.targets m) (_targets (queue s))).
  destruct inter as [|u inter'] eqn:Hinter.
  - (* nothing for this link: erase *)
    destruct (erase_valid
                (mkState (mk (_targets (queue s)) (_messages (queue s)) (Some h')
                             [] (node_supply (queue s)))
                         (heap s) (outbound s) (encoder s) (memory s) (encoded s))
                h)
      as (s1 & -> & Hv1 & Hi1 & Hlen & Hgone & Hincl & Ht & _ & Hh & He & Hmm & Hen).
    { split; [split; [assumption|split; [assumption|]]|split; assumption].
      simpl. intros h0 [= <-]. assumption. }
    { assumption. }
    { discriminate. }
    run. simpl in Hlen, Hincl, Ht, Hh, He, Hmm, Hen.
    assert (round_effect NDEBUG s c h p m
              (if empty (_messages (queue s1)) then Break else Continue) s1 c) as Heff.
    { left. fold inter. rewrite Hinter. auto 10. }
    destruct (empty (_messages (queue s1))) eqn:Hemp.
    + eexists _, _, _. split; [reflexivity|].
      exists h, p, m. repeat (split; [assumption|]).
      split; [discriminate | assumption].
    + eexists _, _, _. split; [reflexivity|].
      exists h, p, m. repeat (split; [assumption|]).
      split; [|assumption]. intros _. split.
      * intros Hnil. rewrite Hnil in Hemp. discriminate.
      * unfold measure. rewrite Hlen, He. lia.
  - (* something to send *)
    assert (inter <> []) as Hnonempty by (rewrite Hinter; discriminate).
    rewrite <- Hinter.
    destruct (try_encode_total NDEBUG (encoder s) (memory s) inter m)
      as (b & e' & mem' & Htry & Hlen & Htake & Hfail & Hok).
    { destruct Hna as [?|Hsize]; [left; assumption|right].
      pose proof (set_intersection_bound (Message.targets m) (_targets (queue s))).
      fold inter in H. lia. }
    { assumption. }
    rewrite Htry. run. destruct b; cbn [negb].
    + (* encoded *)
      destruct (Hok eq_refl) as (Herr & Hlen255 & Hfit & -> & ->). clear Hfail.
      pose proof (record_bytes_length inter m) as HL.
      pose proof (room_after (encoder s) (length (record_bytes inter m)) Hfit
                    ltac:(lia)) as Hroom.
      set (e' := Encoder.mk _ _ false) in *.
      set (mem' := Encoder.write_at _ _ _) in *.
      set (q1 := mk (_targets (queue s)) (_messages (queue s)) (Some h') inter
                    (node_supply (queue s))).
      assert (valid q1) as Hvq1.
      { split; [assumption|]. split; [assumption|].
        simpl. intros h0 [= <-]. assumption. }
      assert (invariant q1) as Hiq1.
      { unfold invariant. simpl. split; [intros; contradiction | discriminate]. }
      destruct (Message.is_reliable m) eqn:Hrel; cbn [negb].
      * (* a reliable message stays *)
        assert (round_facts NDEBUG s c (if iter_eqb (Some h) last then Break else Continue)
                  (mkState q1 (heap s) (outbound s) e' mem'
                           ((p, Encoder.current_begin (encoder s)) :: encoded s))
                  ((c + 1) mod 2 ^ 16)) as Hfacts.
        { exists h, p, m. repeat (split; [assumption|]).
          split; [split; [assumption|split; [assumption|simpl; lia]]|].
          split; [assumption|]. split; [reflexivity|]. split; [auto|].
          split.
          - intros _. split; [assumption|]. unfold measure. simpl. lia.
          - right. right. fold inter. rewrite Hrel.
            repeat (split; [solve [auto]|]). discriminate. }
        destruct (iter_eqb (Some h) last);
          eexists _, _, _; (split; [reflexivity | exact Hfacts]).
      * (* an unreliable message has done its duty on this link *)
        set (m' := Message.set_targets m (Message.targets m ∖ _targets (queue s))).
        set (s2 := mkState q1 (<[p := m']> (heap s)) (outbound s) e' mem'
                           ((p, Encoder.current_begin (encoder s)) :: encoded s)).
        cbn [queue _targets].
        assert (valid_state s2) as Hv2.
        { split; [assumption|]. split; [|simpl; lia].
          simpl. intros h0 p0 Hx.
          destruct (decide (p = p0)) as [<-|Hpp].
          - rewrite lookup_insert_eq. eauto.
          - rewrite lookup_insert_ne by assumption. apply (Hheap h0 p0 Hx). }
        fold m'. fold s2.
        destruct (bool_decide (Message.targets m' = ∅)) eqn:Hempty.
        -- destruct (erase_valid s2 h)
             as (s3 & -> & Hv3 & Hi3 & Hlen3 & Hgone3 & Hincl3 & Ht3 & _ & Hh3 & He3 & Hmm3 & Hen3);
             [assumption | assumption | discriminate |].
           run.
           assert (forall f, round_effect NDEBUG s c h p m f s3 ((c + 1) mod 2 ^ 16))
             as Heff3.
           { intros f. right. right. fold inter.
             rewrite Hen3, Hh3, He3, Hmm3, Hrel. auto 10. }
           assert (forall f,
                      (f = Continue -> _messages (queue s3) <> []) ->
                      round_facts NDEBUG s c f s3 ((c + 1) mod 2 ^ 16)) as Hfacts.
           { intros f Hf. exists h, p, m. repeat (split; [assumption|]).
             split; [|apply Heff3].
             intros Hc. split; [apply Hf, Hc|].
             unfold measure. unfold s2, q1 in Hlen3, He3. simpl in Hlen3, He3.
             rewrite Hlen3, He3. lia. }
           destruct (empty (_messages (queue s3))) eqn:Hemp.
           ++ eexists _, _, _. split; [reflexivity|]. apply Hfacts. discriminate.
           ++ assert (_messages (queue s3) <> []) as Hne3
                  by (intros Hnil; rewrite Hnil in Hemp; discriminate).
              destruct (iter_eqb (Some h) last);
                eexists _, _, _; (split; [reflexivity | apply Hfacts; auto]).
        -- assert (forall f, round_effect NDEBUG s c h p m f s2 ((c + 1) mod 2 ^ 16))
             as Heff2.
           { intros f. right. right. fold inter. rewrite Hrel.
             repeat (split; [solve [auto]|]).
             intros _ Hc. apply bool_decide_eq_false in Hempty. contradiction. }
           assert (forall f, round_facts NDEBUG s c f s2 ((c + 1) mod 2 ^ 16)) as Hfacts.
           { intros f. exists h, p, m. repeat (split; [assumption|]).
             split; [reflexivity|]. split; [auto|].
             split; [|apply Heff2].
             intros _. split; [assumption|]. unfold measure. simpl. lia. }
           destruct (iter_eqb (Some h) last);
             eexists _, _, _; (split; [reflexivity | apply Hfacts]).
    + (* the encoder is full: back to this message, and out *)
      pose proof (Hfail eq_refl) as ->. clear Hok.
      eexists _, _, _. split; [reflexivity|].
      exists h, p, m. repeat (split; [assumption|]).
      split.
      { split; [|split; [assumption | simpl; lia]].
        split; [assumption|]. split; [assumption|].
        simpl. intros h0 [= <-]. assumption. }
      split.
      { unfold invariant. simpl. split; [intros; contradiction | discriminate]. }
      split; [reflexivity|]. split; [auto|]. split; [discriminate|].
      right. left. fold inter. simpl. auto 10.
Qed.

(** ** The loop and the whole call, for any property kept by a round *)

Section Loop.

Variable NDEBUG : bool.
Variable I : state -> Z -> Prop.

Hypothesis I_round :
  forall s c f s' c',
    loop_head s -> no_assert NDEBUG (queue s) -> I s c ->
    round_facts NDEBUG s c f s' c' -> I s' c'.

Lemma encode_loop_spec last :
  forall fuel s c,
    loop_head s -> no_assert NDEBUG (queue s) -> I s c ->
    (measure s < fuel)%nat ->
    exists c' s',
      encode_loop NDEBUG fuel last s c = Ok (c', s') /\
      valid_state s' /\ invariant (queue s') /\
      _targets (queue s') = _targets (queue s) /\ I s' c'.
Proof.
  induction fuel as [|fuel IH]; intros s c Hlh Hna HI Hfuel; [lia|].
  destruct (encode_round_spec NDEBUG last s c Hlh Hna) as (f & s1 & c1 & Hround & Hfacts).
  pose proof (I_round s c f s1 c1 Hlh Hna HI Hfacts) as HI1.
  destruct Hfacts as (h & p & m & _ & _ & _ & Hv1 & Hi1 & Ht1 & _ & Hcont & _).
  cbn [encode_loop]. rewrite Hround. run.
  destruct f.
  - destruct (Hcont eq_refl) as [Hne1 Hm1].
    destruct (IH s1 c1) as (c' & s' & Hloop & Hv' & Hi' & Ht' & HI').
    + split; [assumption|]. split; assumption.
    + unfold no_assert in *. rewrite Ht1. assumption.
    + assumption.
    + lia.
    + exists c', s'. rewrite Ht', Ht1. auto.
  - exists c1, s1. auto.
Qed.

Lemma encode_few_spec s :
  valid_state s -> invariant (queue s) -> no_assert NDEBUG (queue s) ->
  I s 0 ->
  exists c' s',
    encode_few NDEBUG s = Ok (c', s') /\
    valid_state s' /\ invariant (queue s') /\
    _targets (queue s') = _targets (queue s) /\ I s' c'.
Proof.
  intros Hv Hinv Hna HI. unfold encode_few.
  destruct (empty (_messages (queue s))) eqn:Hemp.
  - exists 0, s. auto.
  - assert (_messages (queue s) <> []) as Hne
        by (intros Hnil; rewrite Hnil in Hemp; discriminate).
    assert (loop_head s) as Hlh by (split; [assumption|split; assumption]).
    destruct (loop_head_cursor s Hlh) as (h & p & m & Hn & Hin & _ & _).
    assert (exists last,
               (if iter_eqb (_next (queue s)) (begin_ (_messages (queue s)))
                then defined (decr (_messages (queue s)) end_)
                else defined (decr (_messages (queue s)) (_next (queue s))))
               = Ok last) as (last & ->).
    { destruct (iter_eqb (_next (queue s)) (begin_ (_messages (queue s)))) eqn:E.
      - destruct (back_nonempty _ Hne) as (hb & Hb).
        exists (Some hb). simpl. rewrite Hb. reflexivity.
      - apply iter_eqb_neq in E. rewrite Hn in *.
        destruct (pred_In _ _ Hin) as (hp & Hp); [congruence|].
        exists (Some hp). simpl. rewrite Hp. reflexivity. }
    run. apply encode_loop_spec; auto; unfold rounds, measure; lia.
Qed.

End Loop.

Lemma insert_nodes {A} (l : StdList.t A) i fresh x l' :
  insert l i fresh x = Some l' -> nodes l' ≡ₚ fresh :: nodes l.
Proof.
  revert l'. induction l as [|[h y] l IH]; simpl; intros l'.
  - destruct i; [discriminate|]. intros [= <-]. reflexivity.
  - destruct (iter_eqb i (Some h)); [intros [= <-]; reflexivity|].
    destruct (insert l i fresh x) as [l''|]; [|discriminate].
    simpl. intros [= <-]. simpl. rewrite (IH l'' eq_refl). apply perm_swap.
Qed.

Lemma insert_message_valid q message :
  valid q ->
  exists q', insert_message q message = Ok q' /\ valid q' /\ invariant q'.
Proof.
  intros (Hnd & Hsup & Hnext). unfold insert_message.
  destruct (insert_valid (_messages q) (_next q) (node_supply q) message Hnext)
    as (l' & Hins & Hne & Hmem & _).
  rewrite Hins. run. cbn [_next _messages].
  pose proof (insert_nodes _ _ _ _ _ Hins) as Hperm.
  assert (List.NoDup (nodes l')) as Hnd'.
  { apply NoDup_ListNoDup. rewrite Hperm. apply NoDup_ListNoDup.
    apply List.NoDup_cons; [|assumption].
    intros Hc. apply Hsup in Hc. lia. }
  assert (forall h, In h (nodes l') -> (h < S (node_supply q))%nat) as Hsup'.
  { intros h Hh. apply Hmem in Hh. destruct Hh as [->|Hh]; [lia|].
    apply Hsup in Hh. lia. }
  destruct (iter_eqb (_next q) end_) eqn:E.
  - eexists. split; [reflexivity|]. unfold set_next; simpl. split.
    + split; [assumption|]. split; [assumption|]. intros h. apply begin_In.
    + unfold invariant. simpl. rewrite begin_None. tauto.
  - apply iter_eqb_neq in E.
    eexists. split; [reflexivity|]. split.
    + split; [assumption|]. split; [assumption|]. simpl.
      intros h Hh. apply Hmem. right. apply Hnext, Hh.
    + unfold invariant. simpl. split; [intros; contradiction|].
      intros Hc. contradiction.
Qed.

End TransmitQueueFacts.



(* ===================================================================== *)
(** * Properties of AckSet                                                *)
(* ===================================================================== *)

Module AckSetProofs.

Import AckSet.

Ltac sn_unfold :=
  unfold SN.gtb, SN.ltb, SN.eqb, SN.dist, SN.sub, SN.add, SN.wrap,
         SN.to_signed, SN.valid in *.

Ltac sn_cases :=
  repeat match goal with
         | |- context [?a <? ?b] => destruct (Z.ltb_spec a b)
         | H : context [?a <? ?b] |- _ => destruct (Z.ltb_spec a b)
         | |- context [?a =? ?b] => destruct (Z.eqb_spec a b)
         | H : context [?a =? ?b] |- _ => destruct (Z.eqb_spec a b)
         end.

Ltac sn_solve :=
  sn_unfold;
  change (2 ^ 32) with 4294967296 in *;
  change (2 ^ 31) with 2147483648 in *;
  sn_cases; try discriminate; try reflexivity;
  try (Z.div_mod_to_equations; lia);
  try (exfalso; Z.div_mod_to_equations; lia).

(** ** Modular comparison on nearby numbers *)

Lemma dist_ahead_not_behind a b :
  0 < SN.dist a b -> SN.ltb a b = false /\ SN.eqb a b = false.
Proof. intros H. split; sn_solve. Qed.

Lemma ltb_dist a b : SN.ltb a b = (0 <? SN.dist b a).
Proof. reflexivity. Qed.

Lemma dist_window_gtb a b :
  0 < SN.dist a b ->
  SN.gtb a (SN.add b 31) = (31 <? SN.dist a b).
Proof. intros H. sn_solve. Qed.

Lemma dist_window_ltb a b :
  0 < SN.dist b a ->
  SN.ltb a (SN.sub b 31) = (31 <? SN.dist b a).
Proof. intros H. sn_solve. Qed.

Lemma dist_shift a b :
  0 < SN.dist a b -> SN.sub a b = SN.dist a b.
Proof. intros H. sn_solve. Qed.

(** Where [try_add] reaches its guard loop, the shift is between 1 and 31. *)
Lemma advance_shift_range hsn new_sn :
  SN.valid hsn -> SN.valid new_sn ->
  SN.eqb new_sn hsn = false ->
  SN.ltb new_sn hsn = false ->
  SN.gtb new_sn (SN.add hsn 31) = false ->
  1 <= SN.sub new_sn hsn <= 31.
Proof. intros Vh Vn Heq Hlt Hgt. sn_solve. Qed.

(** ** Bits of the predecessor field *)

Lemma has_bit_testbit p k : 0 <= k -> has_bit p k = Z.testbit p k.
Proof.
  intros Hk. unfold has_bit. rewrite Z.shiftl_1_l.
  destruct (Z.testbit p k) eqn:E.
  - destruct (Z.eqb_spec (Z.land p (2 ^ k)) 0) as [H0|]; [|reflexivity].
    assert (Z.testbit (Z.land p (2 ^ k)) k = true) as Hb
      by (rewrite Z.land_spec, E, Z.pow2_bits_true by lia; reflexivity).
    rewrite H0, Z.bits_0 in Hb. discriminate.
  - replace (Z.land p (2 ^ k)) with 0; [reflexivity|].
    symmetry. apply Z.bits_inj'. intros n Hn.
    rewrite Z.land_spec, Z.bits_0, Z.pow2_bits_eqb by lia.
    destruct (Z.eqb_spec k n); subst; rewrite ?E, ?andb_false_r; reflexivity.
Qed.

Lemma bits31_range z : 0 <= bits31 z < 2 ^ 31.
Proof. unfold bits31. apply Z.mod_pos_bound. lia. Qed.

Lemma testbit_mark p k j :
  0 <= k -> 0 <= j ->
  Z.testbit (bits31 (Z.lor p (Z.shiftl 1 k))) j
  = (j <? 31) && (Z.testbit p j || (k =? j)).
Proof.
  intros Hk Hj. unfold bits31.
  rewrite Z.testbit_mod_pow2, Z.lor_spec, Z.shiftl_1_l, Z.pow2_bits_eqb by lia.
  reflexivity.
Qed.

Lemma testbit_advance p s j :
  1 <= s -> 0 <= j ->
  Z.testbit (bits31 (Z.lor (bits31 (Z.shiftl p s)) (Z.shiftl 1 (s - 1)))) j
  = (j <? 31) && (Z.testbit p (j - s) || (s - 1 =? j)).
Proof.
  intros Hs Hj. rewrite testbit_mark by lia. unfold bits31.
  rewrite Z.testbit_mod_pow2, Z.shiftl_spec by lia.
  destruct (j <? 31); reflexivity.
Qed.

Lemma mark_twice p b :
  bits31 (Z.lor (bits31 (Z.lor p b)) b) = bits31 (Z.lor p b).
Proof.
  unfold bits31. apply Z.bits_inj'. intros n Hn.
  rewrite !Z.testbit_mod_pow2, !Z.lor_spec, Z.testbit_mod_pow2, Z.lor_spec by lia.
  destruct (n <? 31), (Z.testbit p n), (Z.testbit b n); reflexivity.
Qed.

(** ** The guard loop *)

Lemma shift_guard_true n a hsn i0 :
  shift_guard n a hsn i0 = true <->
  (forall i, i0 <= i < i0 + Z.of_nat n -> shift_allowed a hsn i = true).
Proof.
  revert i0. induction n as [|n IH]; intros i0; simpl shift_guard.
  - split; [intros _ i Hi; lia | reflexivity].
  - destruct (shift_allowed a hsn i0) eqn:E.
    + rewrite IH. split; intros H i Hi.
      * destruct (Z.eq_dec i i0) as [->|]; [assumption|]. apply H; lia.
      * apply H; lia.
    + split; [discriminate|]. intros H. rewrite <- E. apply H. lia.
Qed.

Lemma shift_guard_false n a hsn i0 :
  shift_guard n a hsn i0 = false <->
  (exists i, i0 <= i < i0 + Z.of_nat n /\ shift_allowed a hsn i = false).
Proof.
  revert i0. induction n as [|n IH]; intros i0; simpl shift_guard.
  - split; [discriminate | intros (i & Hi & _); lia].
  - destruct (shift_allowed a hsn i0) eqn:E.
    + rewrite IH. split; intros (i & Hi & Hf).
      * exists i. split; [lia | assumption].
      * exists i. split; [|assumption].
        destruct (Z.eq_dec i i0) as [->|]; [congruence | lia].
    + split; [|reflexivity]. intros _. exists i0. split; [lia | assumption].
Qed.

(** ** try_add, branch by branch *)

Lemma try_add_false_unchanged a sn a' :
  try_add a sn = (false, a') -> a' = a.
Proof.
  unfold try_add. intros H.
  repeat match type of H with
         | (if ?c then _ else _) = _ => destruct c
         | (let _ := _ in _) = _ => cbv zeta in H
         end; congruence.
Qed.

Lemma shift_allowed_spec a hsn i :
  0 <= i <= 30 ->
  shift_allowed a hsn i =
  SN.ltb hsn (SN.sub (SN.add (lowest_sequence_number a) 31) i)
  || Z.testbit (predecessors a) (30 - i).
Proof. intros Hi. unfold shift_allowed. rewrite has_bit_testbit by lia. reflexivity. Qed.

(** What [try_add] does when [sn] is ahead of [highest] by [1..31]. *)
Lemma try_add_ahead a sn :
  is_empty a = false ->
  1 <= SN.dist sn (highest_sequence_number a) <= 31 ->
  try_add a sn =
  let hsn := highest_sequence_number a in
  let d := SN.dist sn hsn in
  if shift_guard (Z.to_nat d) a hsn 0 then
    (true, {| highest_sequence_number := sn
            ; lowest_sequence_number  := lowest_sequence_number a
            ; predecessors :=
                bits31 (Z.lor (bits31 (Z.shiftl (predecessors a) d))
                              (Z.shiftl 1 (d - 1)))
            ; is_empty := false |})
  else (false, a).
Proof.
  intros He Hd. unfold try_add. rewrite He.
  destruct (dist_ahead_not_behind sn (highest_sequence_number a)) as [Hlt Heq]; [lia|].
  cbv zeta. rewrite Heq, Hlt, dist_window_gtb by lia.
  destruct (Z.ltb_spec 31 (SN.dist sn (highest_sequence_number a))); [lia|].
  rewrite dist_shift by lia.
  replace (SN.sub (SN.dist sn (highest_sequence_number a)) 1)
    with (SN.dist sn (highest_sequence_number a) - 1); [reflexivity|].
  generalize dependent (SN.dist sn (highest_sequence_number a)).
  intros d Hd _. sn_solve.
Qed.

(** What [try_add] does when [sn] is behind [highest]. *)
Lemma try_add_behind a sn :
  is_empty a = false ->
  0 < SN.dist (highest_sequence_number a) sn ->
  try_add a sn =
  let hsn := highest_sequence_number a in
  let d := SN.dist hsn sn in
  if 31 <? d then (true, a)
  else (true, {| highest_sequence_number := hsn
               ; lowest_sequence_number  := lowest_sequence_number a
               ; predecessors :=
                   bits31 (Z.lor (predecessors a) (Z.shiftl 1 (d - 1)))
               ; is_empty := false |}).
Proof.
  intros He Hd. unfold try_add. rewrite He. cbv zeta.
  assert (SN.eqb sn (highest_sequence_number a) = false) as -> by sn_solve.
  rewrite ltb_dist.
  destruct (Z.ltb_spec 0 (SN.dist (highest_sequence_number a) sn)); [|lia].
  rewrite dist_window_ltb by lia.
  destruct (Z.ltb_spec 31 (SN.dist (highest_sequence_number a) sn)); [reflexivity|].
  replace (SN.sub (SN.sub (highest_sequence_number a) sn) 1)
    with (SN.dist (highest_sequence_number a) sn - 1); [reflexivity|].
  rewrite (dist_shift (highest_sequence_number a) sn) by lia.
  generalize dependent (SN.dist (highest_sequence_number a) sn).
  intros d Hd _ Hd'. sn_solve.
Qed.

(** ** Iteration visits the marked positions in increasing order *)


Lemma marked_end p from : 32 <= from -> marked p from = [].
Proof.
  intros H. unfold marked. replace (Z.to_nat (32 - from)) with O by lia. reflexivity.
Qed.

Lemma marked_unfold p from :
  from <= 31 ->
  marked p from =
  if Z.testbit p (from - 1) then from :: marked p (from + 1) else marked p (from + 1).
Proof.
  intros H. unfold marked.
  replace (Z.to_nat (32 - from)) with (S (Z.to_nat (32 - (from + 1)))) by lia.
  reflexivity.
Qed.

Lemma zrange_In n : forall s q, In q (zrange n s) <-> s <= q < s + Z.of_nat n.
Proof.
  induction n as [|n IH]; intros s q; simpl zrange.
  - split; [intros [] | lia].
  - simpl In. rewrite IH. lia.
Qed.

Lemma zrange_sorted n : forall s, StronglySorted Z.lt (zrange n s).
Proof.
  induction n as [|n IH]; intros s; simpl; constructor.
  - apply IH.
  - apply List.Forall_forall. intros q Hq. apply zrange_In in Hq. lia.
Qed.

Lemma filter_sorted {A} (R : A -> A -> Prop) (f : A -> bool) l :
  StronglySorted R l -> StronglySorted R (List.filter f l).
Proof.
  induction 1 as [|x l Hs IH Hx]; simpl; [constructor|].
  destruct (f x); [|assumption].
  constructor; [assumption|].
  apply List.Forall_forall. intros y Hy. apply filter_In in Hy.
  rewrite List.Forall_forall in Hx. apply Hx, Hy.
Qed.

Lemma marked_In p from q :
  In q (marked p from) <-> from <= q <= 31 /\ Z.testbit p (q - 1) = true.
Proof.
  unfold marked. rewrite filter_In, zrange_In.
  destruct (Z.le_gt_cases from 32); [|split; intros [? ?]; lia].
  rewrite Z2Nat.id by lia. split; intros [? ?]; split; auto; lia.
Qed.

Lemma marked_sorted p from : StronglySorted Z.lt (marked p from).
Proof. apply filter_sorted, zrange_sorted. Qed.

Lemma land_bit_zero p k :
  0 <= k -> (Z.land p (Z.shiftl 1 k) =? 0) = negb (Z.testbit p k).
Proof.
  intros Hk. rewrite <- (has_bit_testbit p k Hk). unfold has_bit.
  rewrite negb_involutive. reflexivity.
Qed.

Lemma incr_loop_spec a n :
  forall fuel pos,
    0 <= pos <= 32 -> (Z.to_nat (32 - pos) <= n)%nat -> (n < fuel)%nat ->
    exists q, incr_loop fuel a pos = Some q /\ pos <= q <= 32 /\
              (pos < 32 -> pos < q) /\
              marked (predecessors a) (pos + 1)
              = if q <? 32 then q :: marked (predecessors a) (q + 1) else [].
Proof.
  induction n as [|n IH]; intros fuel pos Hpos Hn Hfuel;
    (destruct fuel as [|fuel]; [lia|]); simpl incr_loop.
  - assert (pos = 32) as -> by lia. exists 32. simpl.
    split; [reflexivity|]. split; [lia|]. split; [lia|]. apply marked_end; lia.
  - destruct (Z.ltb_spec pos 32) as [Hlt|Hge].
    + cbv zeta. rewrite land_bit_zero by lia.
      replace (pos + 1 - 1) with pos by lia.
      destruct (Z.testbit (predecessors a) pos) eqn:Hb; simpl negb; cbv iota.
      * exists (pos + 1). split; [reflexivity|]. split; [lia|]. split; [lia|].
        destruct (Z.ltb_spec (pos + 1) 32).
        -- rewrite marked_unfold by lia.
           replace (pos + 1 - 1) with pos by lia. rewrite Hb. reflexivity.
        -- apply marked_end; lia.
      * destruct (IH fuel (pos + 1)) as (q & Hq & Hr & Hlt' & Hm); try lia.
        exists q. split; [assumption|]. split; [lia|]. split; [lia|].
        destruct (Z.ltb_spec (pos + 1) 32).
        -- rewrite marked_unfold by lia.
           replace (pos + 1 - 1) with pos by lia. rewrite Hb. assumption.
        -- assert (q = 32) as -> by lia. simpl. apply marked_end; lia.
    + assert (pos = 32) as -> by lia. exists 32. simpl.
      split; [reflexivity|]. split; [lia|]. split; [lia|]. apply marked_end; lia.
Qed.

Lemma iterate_from_spec a n :
  forall fuel pos,
    0 <= pos <= 31 -> (Z.to_nat (32 - pos) <= n)%nat -> (n < fuel)%nat ->
    iterate_from fuel a pos
    = Some (map (deref a) (pos :: marked (predecessors a) (pos + 1))).
Proof.
  induction n as [|n IH]; intros fuel pos Hpos Hn Hfuel; [lia|].
  destruct fuel as [|fuel]; [lia|]. simpl iterate_from.
  unfold iter_end. destruct (Z.eqb_spec pos 32); [lia|].
  destruct (incr_loop_spec a 32 40 pos) as (q & Hq & Hr & Hlt & Hm); try lia.
  unfold incr. rewrite Hq, Hm.
  destruct (Z.ltb_spec q 32).
  - rewrite (IH fuel q) by lia. reflexivity.
  - assert (q = 32) as -> by lia.
    destruct fuel as [|fuel]; [lia|]. reflexivity.
Qed.

Lemma iterate_spec a :
  iterate a =
  Some (if is_empty a then []
        else map (deref a) (0 :: marked (predecessors a) 1)).
Proof.
  unfold iterate, iter_begin. destruct (is_empty a); [reflexivity|].
  apply (iterate_from_spec a 32); lia.
Qed.

Lemma contains_spec a x :
  contains a x <->
  is_empty a = false /\
  (x = deref a 0 \/
   exists q, 1 <= q <= 31 /\ Z.testbit (predecessors a) (q - 1) = true /\
             x = deref a q).
Proof.
  unfold contains. rewrite iterate_spec. split.
  - intros (l & Hl & Hin). injection Hl as <-.
    destruct (is_empty a); [destruct Hin|]. split; [reflexivity|].
    simpl in Hin. destruct Hin as [<-|Hin]; [left; reflexivity|].
    right. apply in_map_iff in Hin. destruct Hin as (q & <- & Hq).
    apply marked_In in Hq. exists q. tauto.
  - intros (He & Hx). rewrite He. eexists. split; [reflexivity|].
    simpl. destruct Hx as [->|(q & Hq & Hb & ->)]; [left; reflexivity|].
    right. apply in_map, marked_In. tauto.
Qed.

Lemma lor_bit_small p k :
  0 <= p < 2 ^ 31 -> 0 <= k <= 30 ->
  bits31 (Z.lor p (Z.shiftl 1 k)) = Z.lor p (2 ^ k).
Proof.
  intros Hp Hk. unfold bits31. rewrite Z.shiftl_1_l.
  apply Z.bits_inj'. intros n Hn.
  rewrite Z.testbit_mod_pow2 by lia.
  destruct (Z.ltb_spec n 31); [reflexivity|].
  rewrite Z.lor_spec, Z.pow2_bits_false by lia.
  assert (Z.testbit p n = false) as ->; [|reflexivity].
  destruct (Z.eq_dec p 0) as [->|]; [apply Z.bits_0|].
  apply Z.bits_above_log2; [lia|].
  apply Z.log2_lt_pow2; [lia|].
  apply Z.lt_le_trans with (2 ^ 31); [lia|].
  apply Z.pow_le_mono_r; lia.
Qed.

(** ** Adding numbers that all lie in one window of width 32 *)

Section Window.

Variable S : list SN.t.
Hypothesis S_valid : forall s, In s S -> SN.valid s.
Hypothesis S_close : forall x y, In x S -> In y S -> x - y <= 31.


Lemma added_le a P x : added a P -> In x P -> x <= highest_sequence_number a.
Proof. intros H Hx. apply (added_repr _ _ H) in Hx. destruct Hx; lia. Qed.

Lemma try_add_first h0 l0 sn :
  try_add (create h0 l0) sn = (true, mk sn sn 0 false) /\
  added (mk sn sn 0 false) [sn].
Proof.
  split; [reflexivity|]. constructor; simpl; try tauto; try lia.
  intros x. unfold repr. simpl. rewrite Z.bits_0.
  split; [intros [->|[_ ?]]; [auto|discriminate] | intros [->|[]]; auto].
Qed.

Lemma try_add_step a P sn :
  incl P S -> In sn S -> added a P ->
  exists a', try_add a sn = (true, a') /\ added a' (sn :: P).
Proof.
  intros HP Hsn Ha.
  pose proof (added_nonempty _ _ Ha) as He.
  pose proof (added_bits _ _ Ha) as Hbits.
  pose proof (added_highest _ _ Ha) as Hh.
  pose proof (added_lowest _ _ Ha) as Hl.
  pose proof (added_le _ _ _ Ha Hl) as Hlh.
  assert (forall x, In x P -> SN.valid x /\ x - sn <= 31 /\ sn - x <= 31) as HPS
      by (intros x Hx; apply HP in Hx; auto).
  pose proof (S_valid _ Hsn) as Vsn.
  destruct (HPS _ Hh) as (Vh & Hd1 & Hd2).
  destruct (HPS _ Hl) as (Vl & Hd3 & Hd4).
  set (h := highest_sequence_number a) in *.
  set (lo := lowest_sequence_number a) in *.
  destruct (Z.lt_trichotomy sn h) as [Hlt|[Heq|Hgt]].
  - (* below the highest: one more bit *)
    assert (SN.dist h sn = h - sn) as Hdist by (clear - Vsn Vh Hd1 Hlt; sn_solve).
    rewrite try_add_behind; [|assumption|fold h; rewrite Hdist; lia].
    fold h. cbv zeta. rewrite Hdist.
    destruct (Z.ltb_spec 31 (h - sn)); [lia|].
    eexists. split; [reflexivity|].
    constructor; simpl; fold h lo; auto using bits31_range.
    intros x. unfold repr. simpl. fold h.
    rewrite <- (added_repr _ _ Ha x). unfold repr. fold h.
    split.
    + intros [->|[Hx Hb]]; [right; left; reflexivity|].
      rewrite testbit_mark in Hb by lia.
      apply andb_true_iff in Hb. destruct Hb as [_ Hb].
      apply orb_true_iff in Hb. destruct Hb as [Hb|Hb]; [right; right; auto|].
      left. apply Z.eqb_eq in Hb. lia.
    + intros [<-|Hx].
      * right. split; [lia|]. rewrite testbit_mark by lia.
        replace (h - sn - 1 =? h - sn - 1) with true by (symmetry; apply Z.eqb_refl).
        rewrite orb_true_r, andb_true_r. apply Z.ltb_lt. lia.
      * destruct Hx as [->|[Hx Hb]]; [left; reflexivity|]. right. split; [lia|].
        rewrite testbit_mark, Hb by lia. simpl. rewrite andb_true_r.
        assert (In x P) as HxP by (apply (added_repr _ _ Ha); right; fold h; auto).
        destruct (HPS _ HxP) as (_ & _ & _). apply Z.ltb_lt.
        pose proof (S_close h x (HP _ Hh) (HP _ HxP)). lia.
  - (* the highest itself *)
    subst sn. exists a. split.
    + unfold try_add. rewrite He. cbv zeta. fold h.
      unfold SN.eqb. rewrite Z.eqb_refl. reflexivity.
    + destruct Ha. constructor; simpl; auto.
      intros x. rewrite added_repr0. simpl. split; [auto|]. intros [<-|]; auto.
  - (* above the highest: the window advances *)
    assert (SN.dist sn h = sn - h) as Hdist by (clear - Vsn Vh Hd2 Hgt; sn_solve).
    rewrite try_add_ahead; [|assumption|fold h; rewrite Hdist; lia].
    fold h. cbv zeta. rewrite Hdist.
    assert (shift_guard (Z.to_nat (sn - h)) a h 0 = true) as ->.
    { apply shift_guard_true. intros i Hi. unfold shift_allowed. fold lo.
      apply orb_true_iff. left.
      clear - Vsn Vh Vl Hd2 Hd4 Hgt Hlh Hi. sn_solve. }
    eexists. split; [reflexivity|].
    constructor; simpl; fold h lo; auto using bits31_range.
    intros x. unfold repr. simpl.
    rewrite <- (added_repr _ _ Ha x). unfold repr. fold h.
    split.
    + intros [->|[Hx Hb]]; [left; reflexivity|].
      rewrite testbit_advance in Hb by lia.
      apply andb_true_iff in Hb. destruct Hb as [_ Hb].
      apply orb_true_iff in Hb. destruct Hb as [Hb|Hb].
      * right. right.
        destruct (Z.lt_ge_cases (sn - x - 1 - (sn - h)) 0) as [Hneg|Hpos].
        -- rewrite Z.testbit_neg_r in Hb by lia. discriminate.
        -- split; [lia|]. rewrite <- Hb. f_equal. lia.
      * right. left. apply Z.eqb_eq in Hb. lia.
    + intros [<-|Hx]; [left; reflexivity|]. right.
      assert (In x P) as HxP by (apply (added_repr _ _ Ha); fold h; auto).
      destruct (HPS _ HxP) as (_ & _ & Hclose).
      pose proof (added_le _ _ _ Ha HxP) as Hxh. fold h in Hxh.
      split; [lia|]. rewrite testbit_advance by lia.
      assert ((sn - x - 1 <? 31) = true) as -> by (apply Z.ltb_lt; lia).
      simpl. destruct Hx as [->|[Hx Hb]].
      * replace (sn - h - 1 =? sn - h - 1) with true by (symmetry; apply Z.eqb_refl).
        apply orb_true_r.
      * replace (sn - x - 1 - (sn - h)) with (h - x - 1) by lia.
        rewrite Hb. reflexivity.
Qed.

Lemma add_all_steps rest :
  forall a P,
    incl rest S -> incl P S -> added a P ->
    Forall (fun r => r = true) (fst (add_all a rest)) /\
    added (snd (add_all a rest)) (rev rest ++ P).
Proof.
  induction rest as [|sn rest IH]; intros a P Hrest HP Ha; simpl.
  - split; [constructor | assumption].
  - destruct (try_add_step a P sn) as (a1 & Hadd & Ha1);
      [assumption | apply Hrest; left; reflexivity | assumption |].
    rewrite Hadd.
    destruct (IH a1 (sn :: P)) as [Hrs Hfin].
    + intros x Hx. apply Hrest. right. assumption.
    + intros x [<-|Hx]; [apply Hrest; left; reflexivity | apply HP, Hx].
    + assumption.
    + destruct (add_all a1 rest) as [rs a2]. simpl in *. split.
      * constructor; [reflexivity | assumption].
      * rewrite <- app_assoc. assumption.
Qed.

Lemma iterate_added a P :
  incl P S -> added a P ->
  exists l, iterate a = Some l /\ (forall x, In x l <-> In x P) /\
            StronglySorted Z.gt l.
Proof.
  intros HP Ha. rewrite iterate_spec, (added_nonempty _ _ Ha).
  eexists. split; [reflexivity|].
  set (h := highest_sequence_number a).
  assert (SN.valid h) as Vh by (apply S_valid, HP, (added_highest _ _ Ha)).
  assert (forall q, In q (marked (predecessors a) 1) -> In (h - q) P) as Hm.
  { intros q Hq. apply marked_In in Hq. apply (added_repr _ _ Ha).
    right. fold h. split; [lia|]. replace (h - (h - q) - 1) with (q - 1) by lia. tauto. }
  assert (map (deref a) (0 :: marked (predecessors a) 1)
          = map (fun q => h - q) (0 :: marked (predecessors a) 1)) as ->.
  { apply map_ext_in. intros q [<-|Hq]; unfold deref; fold h.
    - clear - Vh. sn_solve.
    - pose proof (S_valid _ (HP _ (Hm q Hq))) as Vq. apply marked_In in Hq.
      clear - Vh Vq Hq. sn_solve. }
  split.
  - intros x. rewrite <- (added_repr _ _ Ha x). unfold repr. fold h.
    simpl. rewrite in_map_iff. split.
    + intros [<-|(q & <- & Hq)]; [left; lia|]. right.
      apply marked_In in Hq. split; [lia|].
      replace (h - (h - q) - 1) with (q - 1) by lia. tauto.
    + intros [->|[Hx Hb]]; [left; lia|]. right. exists (h - x). split; [lia|].
      apply marked_In. split; [|assumption].
      assert (In x P) as HxP by (apply (added_repr _ _ Ha); right; fold h; auto).
      pose proof (S_close h x (HP _ (added_highest _ _ Ha)) (HP _ HxP)). lia.
  - assert (StronglySorted Z.lt (0 :: marked (predecessors a) 1)) as Hs.
    { constructor; [apply marked_sorted|]. apply List.Forall_forall.
      intros q Hq. apply marked_In in Hq. lia. }
    revert Hs. generalize (0 :: marked (predecessors a) 1).
    induction 1 as [|q l Hs IH Hq]; simpl; constructor; [assumption|].
    apply List.Forall_forall. intros y Hy. apply in_map_iff in Hy.
    destruct Hy as (q' & <- & Hq'). rewrite List.Forall_forall in Hq.
    specialize (Hq q' Hq'). lia.
Qed.

End Window.

(** ** The properties of AckSet *)

(** C1: for every finite sequence [S] of sequence numbers whose largest and
    smallest element differ by at most 31, feeding [S] to [try_add] from a
    freshly constructed AckSet makes every call return [true], and the
    iteration from [begin()] to [end()] afterwards terminates and yields
    exactly the elements of [S], each once, in strictly decreasing order. *)
Theorem add_all_iterate (S : list SN.t) (h0 l0 : SN.t) :
  (forall s, In s S -> SN.valid s) ->
  (forall x y, In x S -> In y S -> x - y <= 31) ->
  Forall (fun r => r = true) (fst (add_all (create h0 l0) S)) /\
  exists l, iterate (snd (add_all (create h0 l0) S)) = Some l /\
            (forall x, In x l <-> In x S) /\
            StronglySorted Z.gt l.
Proof.
  intros Hvalid Hclose. destruct S as [|s0 rest].
  - simpl. split; [constructor|]. exists []. split; [reflexivity|].
    split; [tauto | constructor].
  - destruct (try_add_first h0 l0 s0) as [Hfirst Hadded].
    cbn [add_all]. rewrite Hfirst.
    destruct (add_all_steps (s0 :: rest) Hvalid Hclose rest
                (mk s0 s0 0 false) [s0]) as [Hrs Hfin].
    + intros x Hx. right. assumption.
    + intros x [<-|[]]. left. reflexivity.
    + assumption.
    + destruct (add_all (mk s0 s0 0 false) rest) as [rs a'] eqn:Hall.
      simpl in *. split; [constructor; [reflexivity | assumption]|].
      destruct (iterate_added (s0 :: rest) Hvalid Hclose a' (rev rest ++ [s0]))
        as (l & Hl & Hmem & Hsorted).
      * intros x Hx. apply in_app_or in Hx.
        destruct Hx as [Hx|[<-|[]]]; [right; apply in_rev; assumption | left; reflexivity].
      * assumption.
      * exists l. split; [assumption|]. split; [|assumption].
        intros x. rewrite Hmem, in_app_iff, <- in_rev. simpl. tauto.
Qed.

Lemma add_all_iterate_witness :
  Forall (fun r => r = true) (fst (add_all (create 7 9) [40; 12; 43; 40; 20])) /\
  exists l, iterate (snd (add_all (create 7 9) [40; 12; 43; 40; 20])) = Some l /\
            (forall x, In x l <-> In x [40; 12; 43; 40; 20]) /\
            StronglySorted Z.gt l.
Proof.
  apply (add_all_iterate [40; 12; 43; 40; 20] 7 9).
  - intros s Hs. unfold SN.valid. simpl in Hs. lia.
  - intros x y Hx Hy. simpl in Hx, Hy. lia.
Defined.

(** C3, as stated, fails: after 0, 31 and 32 were added the set has
    highest 32, and adding 33 -- one above the highest -- is refused,
    because the shift would drop the position of 1, which was never
    acknowledged and is not below the lowest number 0. *)
Lemma advance_in_window_refused :
  ~ (forall a sn,
        is_empty a = false -> wf a -> SN.valid sn ->
        SN.ltb (highest_sequence_number a) sn = true ->
        SN.gtb sn (SN.add (highest_sequence_number a) 31) = false ->
        fst (try_add a sn) = true /\
        highest_sequence_number (snd (try_add a sn)) = sn).
Proof.
  intros H.
  destruct (H (snd (add_all (create 0 0) [0; 31; 32])) 33) as [Hr _];
    try (vm_compute; reflexivity).
  - vm_compute. repeat split; congruence.
  - vm_compute. split; congruence.
  - vm_compute in Hr. discriminate.
Qed.

(** C3, amended: for a non-empty AckSet with highest value [h] and
    [h < sn <= h + 31], [try_add sn] returns [true], advances [highest] to
    [sn], shifts the bitmap by [sn - h] and marks the old highest, when
    every bit position [30 - i] with [0 <= i < sn - h] that the shift drops
    is set or names a number below [lowest] ([h < lowest + 31 - i]); when
    some dropped position is neither, it returns [false] and changes
    nothing. *)
Theorem try_add_advance a sn :
  is_empty a = false ->
  1 <= SN.dist sn (highest_sequence_number a) <= 31 ->
  let h := highest_sequence_number a in
  let d := SN.dist sn h in
  let droppable i :=
    SN.ltb h (SN.sub (SN.add (lowest_sequence_number a) 31) i)
    || Z.testbit (predecessors a) (30 - i) in
  ((forall i, 0 <= i < d -> droppable i = true) ->
   try_add a sn =
   (true, {| highest_sequence_number := sn
           ; lowest_sequence_number  := lowest_sequence_number a
           ; predecessors :=
               bits31 (Z.lor (bits31 (Z.shiftl (predecessors a) d))
                             (Z.shiftl 1 (d - 1)))
           ; is_empty := false |})) /\
  ((exists i, 0 <= i < d /\ droppable i = false) ->
   try_add a sn = (false, a)).
Proof.
  intros He Hd h d droppable. subst h d droppable. cbv beta.
  rewrite try_add_ahead by assumption. cbv zeta.
  set (h := highest_sequence_number a) in *.
  generalize dependent (SN.dist sn h). intros d Hd. split.
  - intros Hall.
    assert (shift_guard (Z.to_nat d) a h 0 = true) as ->; [|reflexivity].
    apply shift_guard_true. intros i Hi.
    rewrite shift_allowed_spec by lia. apply Hall. lia.
  - intros (i & Hi & Hdrop).
    assert (shift_guard (Z.to_nat d) a h 0 = false) as ->; [|reflexivity].
    apply shift_guard_false. exists i. split; [lia|].
    rewrite shift_allowed_spec by lia. assumption.
Qed.

Lemma try_add_advance_witness :
  try_add (mk 31 0 (2 ^ 30) false) 32 = (true, mk 32 0 1 false) /\
  try_add (mk 32 0 1 false) 33 = (false, mk 32 0 1 false).
Proof.
  split.
  - apply (try_add_advance (mk 31 0 (2 ^ 30) false) 32); try reflexivity.
    + vm_compute. split; congruence.
    + intros i Hi. change (0 <= i < 1) in Hi.
      assert (i = 0) as -> by lia. reflexivity.
  - apply (try_add_advance (mk 32 0 1 false) 33); try reflexivity.
    + vm_compute. split; congruence.
    + exists 0. split; [change (0 <= 0 < 1); lia | reflexivity].
Defined.

(** C6: for a non-empty AckSet with highest value [h], [try_add sn] with
    [sn] more than 31 ahead of [h] returns [false]; and whenever [try_add]
    returns [false], all four fields of the AckSet keep their values. *)
Theorem try_add_refusal a sn :
  (is_empty a = false ->
   31 < SN.dist sn (highest_sequence_number a) ->
   fst (try_add a sn) = false) /\
  (fst (try_add a sn) = false ->
   highest_sequence_number (snd (try_add a sn)) = highest_sequence_number a /\
   lowest_sequence_number (snd (try_add a sn)) = lowest_sequence_number a /\
   predecessors (snd (try_add a sn)) = predecessors a /\
   is_empty (snd (try_add a sn)) = is_empty a).
Proof.
  split.
  - intros He Hd. unfold try_add. rewrite He. cbv zeta.
    destruct (dist_ahead_not_behind sn (highest_sequence_number a)) as [Hlt Heq]; [lia|].
    rewrite Heq, Hlt, dist_window_gtb by lia.
    destruct (Z.ltb_spec 31 (SN.dist sn (highest_sequence_number a))); [reflexivity | lia].
  - intros Hf. destruct (try_add a sn) as [r a'] eqn:Hadd. simpl in *. subst r.
    apply try_add_false_unchanged in Hadd. subst a'. auto.
Qed.

Lemma try_add_refusal_witness :
  fst (try_add (mk 100 90 5 false) 132) = false /\
  predecessors (snd (try_add (mk 100 90 5 false) 132)) = 5.
Proof.
  pose proof (try_add_refusal (mk 100 90 5 false) 132) as [Hrefuse Hkeep].
  assert (fst (try_add (mk 100 90 5 false) 132) = false) as Hf.
  { apply Hrefuse; [reflexivity | vm_compute; reflexivity]. }
  split; [exact Hf | apply Hkeep, Hf].
Defined.

Lemma deref_dist a sn :
  SN.valid sn ->
  1 <= SN.dist (highest_sequence_number a) sn <= 31 ->
  deref a (SN.dist (highest_sequence_number a) sn) = sn.
Proof. unfold deref. intros Hv Hd. sn_solve. Qed.

(** C8: for a non-empty AckSet with highest value [h], [try_add sn] with
    [sn <= h] returns [true]; it changes nothing when [sn = h] and when
    [sn] is more than 31 behind [h]; otherwise it sets predecessor bit
    [h - sn - 1] and nothing else, so that the set then represents what it
    represented before, and [sn]. *)
Theorem try_add_not_above a sn :
  wf a -> SN.valid sn -> is_empty a = false ->
  sn = highest_sequence_number a \/
  SN.ltb sn (highest_sequence_number a) = true ->
  let h := highest_sequence_number a in
  let d := SN.dist h sn in
  exists a',
    try_add a sn = (true, a') /\
    (sn = h -> a' = a) /\
    (31 < d -> a' = a) /\
    (1 <= d <= 31 ->
     a' = {| highest_sequence_number := h
           ; lowest_sequence_number  := lowest_sequence_number a
           ; predecessors := Z.lor (predecessors a) (2 ^ (d - 1))
           ; is_empty := false |} /\
     (forall x, contains a' x <-> contains a x \/ x = sn)).
Proof.
  intros (Vh & Vl & Hp) Vsn He Hle h d. subst h d.
  set (h := highest_sequence_number a) in *.
  destruct Hle as [->|Hlt].
  - exists a. split.
    + unfold try_add. rewrite He. cbv zeta. fold h.
      unfold SN.eqb. rewrite Z.eqb_refl. reflexivity.
    + split; [reflexivity|]. split; [reflexivity|].
      intros Hd. exfalso. clear - Hd Vh. sn_solve.
  - rewrite ltb_dist in Hlt. apply Z.ltb_lt in Hlt.
    rewrite try_add_behind by assumption. cbv zeta. fold h.
    assert (sn <> h) as Hne by (intros ->; clear - Hlt Vh; sn_solve).
    destruct (Z.ltb_spec 31 (SN.dist h sn)) as [Hfar|Hnear].
    + exists a. split; [reflexivity|]. split; [reflexivity|].
      split; [reflexivity | lia].
    + rewrite lor_bit_small by lia.
      eexists. split; [reflexivity|]. split; [congruence|]. split; [lia|].
      intros Hd. split; [reflexivity|].
      intros x. rewrite !contains_spec. simpl. rewrite He. unfold deref. simpl. fold h.
      pose proof (deref_dist a sn Vsn Hd) as Hsn. unfold deref in Hsn. fold h in Hsn.
      split.
      * intros (_ & [Hx|(q & Hq & Hb & Hx)]); [left; auto|].
        rewrite Z.lor_spec, Z.pow2_bits_eqb in Hb by lia.
        apply orb_true_iff in Hb. destruct Hb as [Hb|Hb].
        -- left. split; [reflexivity|]. right. exists q. auto.
        -- right. apply Z.eqb_eq in Hb.
           replace q with (SN.dist h sn) in Hx by lia. congruence.
      * intros [(_ & [Hx|(q & Hq & Hb & Hx)])|Hx]; (split; [reflexivity|]).
        -- left. assumption.
        -- right. exists q. rewrite Z.lor_spec, Hb. auto.
        -- right. exists (SN.dist h sn). split; [lia|].
           rewrite Z.lor_spec, Z.pow2_bits_true, orb_true_r by lia.
           split; [reflexivity | congruence].
Qed.

Lemma try_add_not_above_witness :
  exists a',
    try_add (mk 100 90 5 false) 96 = (true, a') /\
    (96 = 100 -> a' = mk 100 90 5 false) /\
    (31 < 4 -> a' = mk 100 90 5 false) /\
    (1 <= 4 <= 31 ->
     a' = mk 100 90 (Z.lor 5 (2 ^ (4 - 1))) false /\
     (forall x, contains a' x <-> contains (mk 100 90 5 false) x \/ x = 96)).
Proof.
  apply (try_add_not_above (mk 100 90 5 false) 96).
  - unfold wf, SN.valid. simpl. lia.
  - unfold SN.valid. lia.
  - reflexivity.
  - right. reflexivity.
Defined.

(** C10: [try_add] is idempotent on success: when [try_add sn] returns
    [true], an immediately repeated [try_add sn] returns [true] as well and
    leaves all four fields of the AckSet as the first call left them. *)
Theorem try_add_idempotent a sn a' :
  try_add a sn = (true, a') -> try_add a' sn = (true, a').
Proof.
  intros H. pose proof H as H0. unfold try_add in H.
  destruct (is_empty a) eqn:He.
  - injection H as <-. unfold try_add. simpl.
    unfold SN.eqb. rewrite Z.eqb_refl. reflexivity.
  - cbv zeta in H.
    destruct (SN.eqb sn (highest_sequence_number a)) eqn:Heq;
      [injection H as <-; exact H0|].
    destruct (SN.ltb sn (highest_sequence_number a)) eqn:Hlt.
    + destruct (SN.ltb sn (SN.sub (highest_sequence_number a) 31)) eqn:Hfar;
        [injection H as <-; exact H0|].
      injection H as <-. unfold try_add. simpl.
      rewrite Heq, Hlt, Hfar, mark_twice. reflexivity.
    + destruct (SN.gtb sn (SN.add (highest_sequence_number a) 31)); [discriminate|].
      destruct (shift_guard _ a (highest_sequence_number a) 0); [|discriminate].
      injection H as <-. unfold try_add. simpl.
      unfold SN.eqb. rewrite Z.eqb_refl. reflexivity.
Qed.

Lemma try_add_idempotent_witness :
  try_add (mk 100 90 5 false) 104 = (true, mk 104 90 88 false) /\
  try_add (mk 104 90 88 false) 104 = (true, mk 104 90 88 false).
Proof.
  split; [vm_compute; reflexivity|].
  apply (try_add_idempotent (mk 100 90 5 false) 104).
  vm_compute. reflexivity.
Defined.

End AckSetProofs.






(* ===================================================================== *)
(** * Properties of TransmitQueue                                         *)
(* ===================================================================== *)

Module TransmitQueueProofs.

Import StdList StdListFacts EncoderFacts TransmitQueue TransmitQueueFacts.

Ltac distinct_nodes :=
  cbn; repeat (apply List.NoDup_cons; [cbn; intuition lia|]); apply List.NoDup_nil.

Ltac known_messages :=
  repeat (apply List.Forall_cons; [cbn; split; [lia | tauto]|]); apply List.Forall_nil.

Lemma example_state_valid messages next capacity :
  List.NoDup (nodes messages) ->
  Forall (fun x => (fst x < 10)%nat /\ In (snd x) [100; 101; 102]%nat) messages ->
  (forall h, next = Some h -> In h (nodes messages)) ->
  valid_state (example_state messages next capacity).
Proof.
  intros Hnd Hall Hnext. rewrite List.Forall_forall in Hall.
  split; [split; [assumption|split; [|assumption]]|split].
  - simpl. intros h Hh. unfold nodes in Hh. apply in_map_iff in Hh.
    destruct Hh as (x & <- & Hx). apply (Hall x Hx).
  - simpl. intros h p Hx. destruct (Hall _ Hx) as [_ Hp]. simpl in Hp.
    destruct Hp as [<-|[<-|[<-|[]]]]; vm_compute; eauto.
  - simpl. rewrite length_replicate. lia.
Qed.

(** C2 fails on the code.  The queue holds the reliable message 100 and,
    after it, message 101 which has no target on this link; the cursor is
    on 100.  One call of [encode_few] with room for two records encodes
    message 100 twice: the round that erases 101, the last element, goes
    on with [continue] and so skips the test [if (is_last) break]. *)
Theorem encode_few_repeats_message :
  let s := example_state [(0, 100); (1, 101)]%nat (Some 0%nat) 100 in
  valid_state s /\ invariant (queue s) /\
  exists s', encode_few false s = Ok (2, s') /\
             map fst (encoded s') = [100; 100]%nat /\
             _messages (queue s') = [(0, 100)]%nat.
Proof.
  intros s. split; [|split].
  - apply example_state_valid.
    + distinct_nodes.
    + known_messages.
    + intros h [= <-]. simpl. auto.
  - unfold invariant. simpl. split; discriminate.
  - assert (match encode_few false s with
            | Ok (c, s') => Some (c, map fst (encoded s'), _messages (queue s'))
            | Err _ => None
            end = Some (2, [100; 100]%nat, [(0, 100)]%nat)) as H
        by (vm_compute; reflexivity).
    destruct (encode_few false s) as [[c s']|]; [|discriminate].
    injection H as -> Hlog Hmsgs. exists s'. auto.
Qed.

(** C5: the invariant [_messages.empty() <=> _next == _messages.end()]
    holds for a constructed queue and is kept by [insert_message], by
    [erase] of a node of the list, and by [encode_few], which are shown to
    complete on every well-formed queue. *)
Theorem invariant_preserved :
  (valid create /\ invariant create) /\
  (forall q message,
      valid q -> invariant q ->
      exists q', insert_message q message = Ok q' /\ valid q' /\ invariant q') /\
  (forall s h,
      valid_state s -> invariant (queue s) ->
      In h (nodes (_messages (queue s))) ->
      exists s', erase s (Some h) = Ok s' /\
                 valid_state s' /\ invariant (queue s')) /\
  (forall NDEBUG s,
      valid_state s -> invariant (queue s) -> no_assert NDEBUG (queue s) ->
      exists c s', encode_few NDEBUG s = Ok (c, s') /\
                   valid_state s' /\ invariant (queue s')).
Proof.
  split; [|split; [|split]].
  - split.
    + split; [constructor|]. split; [intros h []|discriminate].
    + unfold invariant. simpl. tauto.
  - intros q message Hv _. apply insert_message_valid, Hv.
  - intros s h Hv Hinv Hin.
    destruct (erase_valid s h Hv Hin) as (s' & He & Hv' & Hi' & _).
    + intros Hn. apply Hinv in Hn. rewrite Hn in Hin. destruct Hin.
    + exists s'. auto.
  - intros NDEBUG s Hv Hinv Hna.
    destruct (encode_few_spec NDEBUG (fun _ _ => True) (fun _ _ _ _ _ _ _ _ _ => Logic.I)
                s Hv Hinv Hna Logic.I) as (c & s' & He & Hv' & Hi' & _).
    exists c, s'. auto.
Qed.

Lemma invariant_preserved_witness :
  exists c s',
    encode_few false (example_state [(0, 100); (1, 102)]%nat (Some 1%nat) 60)
    = Ok (c, s') /\ valid_state s' /\ invariant (queue s').
Proof.
  apply invariant_preserved.
  - apply example_state_valid.
    + distinct_nodes.
    + known_messages.
    + intros h [= <-]. simpl. auto.
  - unfold invariant. simpl. split; discriminate.
  - right. vm_compute. lia.
Defined.

(** C7: when the record of a message does not fit, [try_encode] returns
    [false]; and whenever it returns [false] the encoder -- write cursor,
    end and error flag -- is exactly as before the attempt, and so are the
    bytes in front of the cursor.  The round of [encode_few] in which this
    happens leaves the loop with [_next] back on that message and with
    the list, the messages and the count untouched, so the next call
    starts with this message. *)
Theorem overflow_rolls_back NDEBUG :
  (forall e mem targets msg e' mem',
      (Encoder.current_end e <= length mem)%nat ->
      try_encode NDEBUG e mem targets msg = Ok (false, e', mem') ->
      e' = e /\ length mem' = length mem /\
      take (Encoder.current_begin e) mem' = take (Encoder.current_begin e) mem) /\
  (forall e mem targets msg,
      (Encoder.current_end e <= length mem)%nat ->
      (length targets <= 255)%nat ->
      (Encoder.room e < length (record_bytes targets msg))%nat ->
      exists mem', try_encode NDEBUG e mem targets msg = Ok (false, e, mem')) /\
  (forall last fuel s c h p m e' mem',
      _next (queue s) = Some h ->
      get (_messages (queue s)) h = Some p ->
      heap s !! p = Some m ->
      set_intersection (Message.targets m) (_targets (queue s)) <> [] ->
      try_encode NDEBUG (encoder s) (memory s)
                 (set_intersection (Message.targets m) (_targets (queue s))) m
      = Ok (false, e', mem') ->
      exists s',
        encode_loop NDEBUG (S fuel) last s c = Ok (c, s') /\
        _next (queue s') = Some h /\
        get (_messages (queue s')) h = Some p /\
        _messages (queue s') = _messages (queue s) /\
        encoder s' = e' /\ memory s' = mem' /\
        heap s' = heap s /\ encoded s' = encoded s).
Proof.
  split; [|split].
  - intros e mem targets msg e' mem' Hmem Htry.
    destruct (Nat.le_gt_cases (length targets) 255) as [Hlen|Hbig].
    + destruct (try_encode_total NDEBUG e mem targets msg (or_intror Hlen) Hmem)
        as (b & e1 & m1 & Htry' & Hl & Htake & Hfail & _).
      rewrite Htry in Htry'. injection Htry' as <- <- <-. auto.
    + destruct NDEBUG.
      * destruct (try_encode_total true e mem targets msg (or_introl eq_refl) Hmem)
          as (b & e1 & m1 & Htry' & Hl & Htake & Hfail & _).
        rewrite Htry in Htry'. injection Htry' as <- <- <-. auto.
      * exfalso. unfold try_encode, encode, encode_targets in Htry.
        destruct (Encoder.put_raw e mem (uuid_bytes (Message.source msg))) in Htry.
        destruct (Nat.ltb_spec 255 (length targets)); [|lia].
        discriminate.
  - intros e mem targets msg Hmem Hlen Hroom.
    destruct (try_encode_total NDEBUG e mem targets msg (or_intror Hlen) Hmem)
      as (b & e1 & m1 & Htry & _ & _ & Hfail & Hok).
    destruct b.
    + destruct (Hok eq_refl) as (_ & _ & Hfit & _). unfold Encoder.room in Hroom. lia.
    + rewrite (Hfail eq_refl) in Htry. eauto.
  - intros last fuel s c h p m e' mem' Hn Hp Hm Hne Htry.
    assert (In h (nodes (_messages (queue s)))) as Hin
        by (apply (in_map fst _ (h, p)), get_In, Hp).
    cbn [encode_loop]. unfold encode_round. rewrite Hn.
    destruct (circular_increment_valid NDEBUG (queue s) h Hin) as (h' & -> & _).
    run. fields. rewrite Hp. run. rewrite Hm. run.
    destruct (set_intersection (Message.targets m) (_targets (queue s)))
      as [|u inter] eqn:Hinter; [contradiction|].
    rewrite Htry. run. cbn [negb]. run.
    eexists. split; [reflexivity|]. simpl. auto 10.
Qed.

Lemma overflow_rolls_back_witness :
  exists s',
    encode_loop false 1 (Some 0%nat)
                (example_state [(0, 100)]%nat (Some 0%nat) 20) 0 = Ok (0, s') /\
    _next (queue s') = Some 0%nat /\
    encoder s' = Encoder.mk 0 20 false.
Proof.
  destruct (overflow_rolls_back false) as (_ & Hfull & Hround).
  destruct (Hfull (Encoder.mk 0 20 false) (replicate 20 0) [1%N]
                  (Message.mk 10%N {[1%N]} [7] true))
    as (mem' & Htry).
  - vm_compute. lia.
  - simpl. lia.
  - vm_compute. lia.
  - destruct (Hround (Some 0%nat) 0%nat
                (example_state [(0, 100)]%nat (Some 0%nat) 20) 0
                0%nat 100%nat (Message.mk 10%N {[1%N]} [7] true)
                (Encoder.mk 0 20 false) mem')
      as (s' & Hloop & Hnext & _ & _ & Henc & _).
    + reflexivity.
    + reflexivity.
    + vm_compute. reflexivity.
    + vm_compute. discriminate.
    + exact Htry.
    + exists s'. auto.
Defined.

Lemma lookup_same_prefix {A} (l1 l2 : list A) (n i : nat) :
  take n l1 = take n l2 -> (i < n)%nat -> l1 !! i = l2 !! i.
Proof.
  intros Ht Hi.
  rewrite <- (lookup_take_lt l1 n i), <- (lookup_take_lt l2 n i) by assumption.
  rewrite Ht. reflexivity.
Qed.


Lemma counts_in_range_round NDEBUG s0 s c f s' c' :
  loop_head s -> no_assert NDEBUG (queue s) ->
  counts_in_range s0 s c ->
  round_facts NDEBUG s c f s' c' ->
  counts_in_range s0 s' c'.
Proof.
  intros (((_ & _ & _) & _ & Hmem) & _ & _) Hna (new & Hnew & Hc & Hall)
         (h & p & m & _ & _ & _ & _ & _ & _ & _ & _ & Heff).
  unfold round_effect in Heff. cbv zeta in Heff.
  set (inter := set_intersection (Message.targets m) (_targets (queue s))) in *.
  assert (NDEBUG = true \/ (length inter <= 255)%nat) as Hlen.
  { destruct Hna as [?|Hsize]; [left; assumption|right].
    pose proof (set_intersection_bound (Message.targets m) (_targets (queue s))).
    fold inter in H. lia. }
  destruct (try_encode_total NDEBUG (encoder s) (memory s) inter m Hlen Hmem)
    as (b & e1 & m1 & Htry & Hl & Htake & Hfail & Hok).
  destruct Heff as [(_ & _ & Hen & _ & He & Hm & ->)
                   |[(_ & Htry' & _ & _ & _ & Hen & _ & ->)
                    |(Hne & Htry' & Hen & -> & _)]].
  - exists new. rewrite Hen, He, Hm. auto.
  - rewrite Htry in Htry'. injection Htry' as Hb He1 Hm1. subst b.
    pose proof (Hfail eq_refl) as Hsame.
    exists new. rewrite Hen. split; [assumption|]. split; [assumption|].
    rewrite <- He1, <- Hm1, Hsame.
    intros p0 off Hin. destruct (Hall p0 off Hin) as (Hoff & n & Hn & Hr).
    split; [assumption|]. exists n. split; [|assumption].
    rewrite <- Hn. apply (lookup_same_prefix _ _ _ _ Htake Hoff).
  - rewrite Htry in Htry'. injection Htry' as Hb He1 Hm1. subst b.
    destruct (Hok eq_refl) as (_ & Hlen255 & Hfit & -> & ->).
    pose proof (record_bytes_length inter m) as HL.
    exists ((p, Encoder.current_begin (encoder s)) :: new).
    rewrite Hen, Hnew. split; [reflexivity|]. split.
    { rewrite Hc. simpl length. rewrite Nat2Z.inj_succ, <- Z.add_1_r.
      apply Z.add_mod_idemp_l. lia. }
    rewrite <- He1, <- Hm1. simpl Encoder.current_begin.
    intros p0 off [[= <- <-]|Hin].
    + split; [lia|].
      exists (Z.of_nat (length inter)). split.
      * rewrite write_at_lookup by lia.
        rewrite lookup_app_l by lia.
        rewrite record_bytes_count. f_equal. apply Z.mod_small. lia.
      * destruct inter; [contradiction|]. simpl length in *. lia.
    + destruct (Hall p0 off Hin) as (Hoff & n & Hn & Hr).
      split; [lia|]. exists n. split; [|assumption].
      rewrite <- Hn. symmetry.
      apply (lookup_same_prefix _ _ (Encoder.current_begin (encoder s))); [|assumption].
      symmetry. apply write_at_take; lia.
Qed.

(** C9: with at most 255 peers in the link's target set, a call of
    [encode_few] -- assertions compiled in -- completes without a failed
    assertion, and every record it produces has a target count between 1
    and 255 in the byte after the source uuid.  A round that finds an empty
    intersection erases the node and writes nothing; and [encode_targets]
    given more than 255 targets, assertions compiled out, sets the error
    flag and writes nothing. *)
Theorem target_count_in_range s :
  valid_state s -> invariant (queue s) ->
  (size (_targets (queue s)) <= 255)%nat ->
  (exists c s' new,
      encode_few false s = Ok (c, s') /\
      encoded s' = new ++ encoded s /\
      c = Z.of_nat (length new) mod 2 ^ 16 /\
      forall p off,
        In (p, off) new ->
        exists n, memory s' !! (off + 16)%nat = Some n /\ 1 <= n <= 255) /\
  (forall last c h p m,
      _messages (queue s) <> [] ->
      _next (queue s) = Some h ->
      get (_messages (queue s)) h = Some p ->
      heap s !! p = Some m ->
      Message.targets m ∩ _targets (queue s) = ∅ ->
      exists f s',
        encode_round false last s c = Ok (f, s', c) /\
        ~ In h (nodes (_messages (queue s'))) /\
        encoded s' = encoded s /\ encoder s' = encoder s /\
        memory s' = memory s) /\
  (forall e mem targets,
      (255 < length targets)%nat ->
      encode_targets true e mem targets = Ok (Encoder.set_error e, mem)).
Proof.
  intros Hv Hinv Hsize. split; [|split].
  - destruct (encode_few_spec false (counts_in_range s)) with (s := s)
      as (c & s' & He & _ & _ & _ & (new & Hnew & Hc & Hall)).
    + intros s1 c1 f s2 c2. apply counts_in_range_round.
    + assumption.
    + assumption.
    + right. assumption.
    + exists []. split; [reflexivity|]. split; [reflexivity|]. intros p off [].
    + exists c, s', new. split; [assumption|]. split; [assumption|].
      split; [assumption|].
      intros p off Hin. destruct (Hall p off Hin) as (_ & Hn). exact Hn.
  - intros last c h p m Hne Hn Hp Hm Hdisj.
    destruct (encode_round_spec false last s c) as (f & s' & c' & Hround & Hfacts).
    + split; [assumption|]. split; assumption.
    + right. assumption.
    + destruct Hfacts as (h0 & p0 & m0 & Hn0 & Hp0 & Hm0 & _ & _ & _ & _ & _ & Heff).
      assert (h0 = h) as -> by congruence.
      assert (p0 = p) as -> by congruence.
      assert (m0 = m) as -> by congruence.
      apply set_intersection_nil in Hdisj.
      destruct Heff as [(_ & Hgone & Hen & _ & He & Hmm & ->)
                       |[(Hc & _)|(Hc & _)]]; try contradiction.
      exists f, s'. auto.
  - intros e mem targets Hbig. unfold encode_targets.
    destruct (Nat.ltb_spec 255 (length targets)); [reflexivity | lia].
Qed.

Lemma target_count_in_range_witness :
  exists c s' new,
    encode_few false (example_state [(0, 100); (1, 102)]%nat (Some 1%nat) 120)
    = Ok (c, s') /\
    encoded s' = new ++ [] /\
    c = Z.of_nat (length new) mod 2 ^ 16 /\
    forall p off,
      In (p, off) new ->
      exists n, memory s' !! (off + 16)%nat = Some n /\ 1 <= n <= 255.
Proof.
  apply target_count_in_range.
  - apply example_state_valid.
    + distinct_nodes.
    + known_messages.
    + intros h [= <-]. simpl. auto.
  - unfold invariant. simpl. split; discriminate.
  - vm_compute. lia.
Defined.


Lemma encoded_once_round NDEBUG T p s c f s' c' :
  encoded_once T p s ->
  round_facts NDEBUG s c f s' c' ->
  encoded_once T p s'.
Proof.
  intros (HT & m & Hm & Hrel & Hcount)
         (h0 & p0 & m0 & _ & _ & Hm0 & _ & _ & HT' & _ & _ & Heff).
  split; [congruence|].
  destruct Heff as [(_ & _ & Hen & Hh & _)
                   |[(_ & _ & _ & _ & _ & Hen & Hh & _)
                    |(Hne & _ & Hen & _ & Hh & _)]].
  - exists m. rewrite Hen, Hh. auto.
  - exists m. rewrite Hen, Hh. auto.
  - rewrite Hen. simpl map. destruct (Nat.eq_dec p0 p) as [->|Hpp].
    + rewrite Hm in Hm0. injection Hm0 as <-. rewrite Hrel in Hh.
      exists (Message.set_targets m (Message.targets m ∖ _targets (queue s))).
      rewrite Hh, lookup_insert_eq. split; [reflexivity|]. split; [assumption|].
      right. rewrite count_occ_cons_eq by reflexivity.
      destruct Hcount as [Hzero|[_ Hspent]].
      * split; [f_equal; exact Hzero|]. simpl. rewrite HT.
        apply set_eq. intros x.
        rewrite elem_of_intersection, elem_of_difference, elem_of_empty. tauto.
      * exfalso. apply Hne. apply set_intersection_nil. rewrite HT. exact Hspent.
    + exists m. rewrite count_occ_cons_neq by assumption.
      split; [|auto]. rewrite Hh.
      destruct (Message.is_reliable m0); [assumption|].
      rewrite lookup_insert_ne by assumption. assumption.
Qed.

Lemma encode_many_spec NDEBUG T p calls :
  Forall (fun em => (Encoder.current_end (fst em) <= length (snd em))%nat) calls ->
  forall s,
    valid (queue s) ->
    (forall h q, In (h, q) (_messages (queue s)) -> is_Some (heap s !! q)) ->
    invariant (queue s) -> no_assert NDEBUG (queue s) ->
    encoded_once T p s ->
    exists s', encode_many NDEBUG calls s = Ok s' /\ encoded_once T p s'.
Proof.
  induction 1 as [|[e mem] calls Hem _ IH]; intros s Hv Hheap Hinv Hna Honce.
  - exists s. auto.
  - cbn [encode_many].
    destruct (encode_few_spec NDEBUG (fun s1 _ => encoded_once T p s1))
      with (s := mkState (queue s) (heap s) (outbound s) e mem (encoded s))
      as (c & s1 & -> & (Hv1 & Hheap1 & _) & Hinv1 & HT1 & Honce1).
    + intros s0 c0 f s2 c2 _ _. apply encoded_once_round.
    + split; [assumption|]. split; assumption.
    + assumption.
    + assumption.
    + exact Honce.
    + run. cbn [snd]. apply IH; auto.
      unfold no_assert in *. rewrite HT1. assumption.
Qed.

(** C4: over any sequence of [encode_few] calls on one queue, an unreliable
    message is encoded with success at most once; and once it was, none
    of the link's targets is left in its target set, so that every later
    round that meets it finds an empty intersection.  The round that
    encodes it takes the link's targets out of its target set and, when
    none is left, erases its node. *)
Theorem unreliable_encoded_once NDEBUG calls s p m :
  valid_state s -> invariant (queue s) -> no_assert NDEBUG (queue s) ->
  Forall (fun em => (Encoder.current_end (fst em) <= length (snd em))%nat) calls ->
  heap s !! p = Some m -> Message.is_reliable m = false ->
  encoded s = [] ->
  (exists s',
      encode_many NDEBUG calls s = Ok s' /\
      (count_occ Nat.eq_dec (map fst (encoded s')) p <= 1)%nat /\
      (In p (map fst (encoded s')) ->
       exists m', heap s' !! p = Some m' /\
                  Message.targets m' ∩ _targets (queue s) = ∅)) /\
  (forall last c h e' mem',
      _next (queue s) = Some h ->
      get (_messages (queue s)) h = Some p ->
      try_encode NDEBUG (encoder s) (memory s)
                 (set_intersection (Message.targets m) (_targets (queue s))) m
      = Ok (true, e', mem') ->
      set_intersection (Message.targets m) (_targets (queue s)) <> [] ->
      exists f s1 c1,
        encode_round NDEBUG last s c = Ok (f, s1, c1) /\
        heap s1 !! p
        = Some (Message.set_targets m (Message.targets m ∖ _targets (queue s))) /\
        (Message.targets m ∖ _targets (queue s) = ∅ ->
         ~ In h (nodes (_messages (queue s1))))).
Proof.
  intros Hvs Hinv Hna Hcalls Hm Hrel Hlog. split.
  - destruct Hvs as (Hv & Hheap & _).
    destruct (encode_many_spec NDEBUG (_targets (queue s)) p calls Hcalls s)
      as (s' & Hrun & _ & m' & Hm' & _ & Hcount); auto.
    { split; [reflexivity|]. exists m. rewrite Hlog. auto. }
    exists s'. split; [assumption|]. split.
    + destruct Hcount as [->|[-> _]]; lia.
    + intros Hin. exists m'. split; [assumption|].
      destruct Hcount as [Hzero|[_ Hspent]]; [|assumption].
      apply (count_occ_In Nat.eq_dec) in Hin. lia.
  - intros last c h e' mem' Hn Hp Htry Hne.
    destruct (encode_round_spec NDEBUG last s c) as (f & s1 & c1 & Hround & Hfacts).
    + split; [assumption|]. split; [|assumption].
      intros Hnil. rewrite Hnil in Hp. discriminate.
    + assumption.
    + destruct Hfacts as (h0 & p0 & m0 & Hn0 & Hp0 & Hm0 & _ & _ & _ & _ & _ & Heff).
      assert (h0 = h) as -> by congruence.
      assert (p0 = p) as -> by congruence.
      assert (m0 = m) as -> by congruence.
      exists f, s1, c1. split; [assumption|].
      destruct Heff as [(Hc & _)|[(_ & Hc & _)|(_ & _ & _ & _ & Hh & Hgone)]].
      * contradiction.
      * rewrite Htry in Hc. discriminate.
      * rewrite Hrel in Hh. rewrite Hh, lookup_insert_eq. auto.
Qed.

Lemma unreliable_encoded_once_witness :
  exists s',
    encode_many false
      [(Encoder.mk 0 120 false, replicate 120 0);
       (Encoder.mk 0 120 false, replicate 120 0)]
      (example_state [(0, 100); (1, 102)]%nat (Some 0%nat) 0) = Ok s' /\
    (count_occ Nat.eq_dec (map fst (encoded s')) 102%nat <= 1)%nat /\
    (In 102%nat (map fst (encoded s')) ->
     exists m',
       heap s' !! 102%nat = Some m' /\
       Message.targets m'
       ∩ _targets (queue (example_state [(0, 100); (1, 102)]%nat (Some 0%nat) 0))
       = ∅).
Proof.
  destruct (unreliable_encoded_once false
              [(Encoder.mk 0 120 false, replicate 120 0);
               (Encoder.mk 0 120 false, replicate 120 0)]
              (example_state [(0, 100); (1, 102)]%nat (Some 0%nat) 0) 102%nat
              (Message.mk 11%N {[1%N; 3%N]} [9] false))
    as [H _].
  - apply example_state_valid.
    + distinct_nodes.
    + known_messages.
    + intros h [= <-]. simpl. auto.
  - unfold invariant. simpl. split; discriminate.
  - right. vm_compute. lia.
  - repeat (apply List.Forall_cons; [vm_compute; lia|]). apply List.Forall_nil.
  - vm_compute. reflexivity.
  - reflexivity.
  - reflexivity.
  - exact H.
Defined.

End TransmitQueueProofs.

(* ===================================================================== *)
(** * Further properties of AckSet                                        *)
(* ===================================================================== *)

Module AckSetLaws.

Import AckSet AckSetProofs.

(** ** What try_add keeps *)

(** X1: [try_add] keeps the fields within their types, leaves the set
    non-empty whatever it returns, and touches [lowest_sequence_number]
    only in the very first add, where it becomes the number added. *)
Theorem try_add_keeps_wf a sn :
  (is_empty a = false -> wf a) -> SN.valid sn ->
  wf (snd (try_add a sn)) /\
  is_empty (snd (try_add a sn)) = false /\
  lowest_sequence_number (snd (try_add a sn))
  = (if is_empty a then sn else lowest_sequence_number a).
Proof.
  intros Hwf Vsn. unfold try_add.
  destruct (is_empty a) eqn:He.
  - simpl. unfold wf. simpl. repeat split; try apply Vsn; lia.
  - destruct (Hwf eq_refl) as (Vh & Vl & Hp). cbv zeta.
    repeat match goal with
           | |- context [if ?c then _ else _] => destruct c
           end; simpl; unfold wf; simpl; rewrite ?He;
      repeat split; try apply Vh; try apply Vl; try apply Vsn; try apply Hp;
      try apply bits31_range.
Qed.

Lemma try_add_keeps_wf_witness :
  wf (snd (try_add (mk 100 90 5 false) 104)) /\
  is_empty (snd (try_add (mk 100 90 5 false) 104)) = false /\
  lowest_sequence_number (snd (try_add (mk 100 90 5 false) 104)) = 90.
Proof.
  apply (try_add_keeps_wf (mk 100 90 5 false) 104).
  - intros _. unfold wf, SN.valid. simpl. lia.
  - unfold SN.valid. lia.
Defined.

(** X2: on a non-empty set [try_add] either leaves [highest] alone or
    moves it to the number added, which is then between 1 and 31 ahead of
    the old one, and returns [true]: the highest number never moves back,
    and never jumps by more than 31. *)
Theorem highest_only_advances a sn :
  wf a -> SN.valid sn -> is_empty a = false ->
  highest_sequence_number (snd (try_add a sn)) = highest_sequence_number a \/
  (highest_sequence_number (snd (try_add a sn)) = sn /\
   fst (try_add a sn) = true /\
   1 <= SN.dist sn (highest_sequence_number a) <= 31).
Proof.
  intros (Vh & _ & _) Vsn He. unfold try_add. rewrite He. cbv zeta.
  destruct (SN.eqb sn (highest_sequence_number a)) eqn:Heq; [left; reflexivity|].
  destruct (SN.ltb sn (highest_sequence_number a)) eqn:Hlt.
  - destruct (SN.ltb sn (SN.sub (highest_sequence_number a) 31)); left; reflexivity.
  - destruct (SN.gtb sn (SN.add (highest_sequence_number a) 31)) eqn:Hgt;
      [left; reflexivity|].
    destruct (shift_guard _ a (highest_sequence_number a) 0); [|left; reflexivity].
    right. simpl. split; [reflexivity|]. split; [reflexivity|].
    generalize dependent (highest_sequence_number a). intros h Vh Heq Hlt Hgt.
    clear - Vh Vsn Heq Hlt Hgt. sn_solve.
Qed.

Lemma highest_only_advances_witness :
  highest_sequence_number (snd (try_add (mk 100 90 5 false) 104)) = 100 \/
  (highest_sequence_number (snd (try_add (mk 100 90 5 false) 104)) = 104 /\
   fst (try_add (mk 100 90 5 false) 104) = true /\
   1 <= SN.dist 104 100 <= 31).
Proof.
  apply (highest_only_advances (mk 100 90 5 false) 104).
  - unfold wf, SN.valid. simpl. lia.
  - unfold SN.valid. lia.
  - reflexivity.
Defined.

(** ** What the set represents *)

Lemma deref_behind a q :
  SN.valid (highest_sequence_number a) -> 0 <= q <= 31 ->
  SN.dist (highest_sequence_number a) (deref a q) = q.
Proof. unfold deref. intros Vh Hq. sn_solve. Qed.

Lemma contains_within a x :
  SN.valid (highest_sequence_number a) ->
  contains a x -> 0 <= SN.dist (highest_sequence_number a) x <= 31.
Proof.
  intros Vh Hx. apply contains_spec in Hx.
  destruct Hx as (_ & [->|(q & Hq & _ & ->)]);
    rewrite deref_behind by (assumption || lia); lia.
Qed.

Lemma advance_positions h sn q :
  SN.valid h -> SN.valid sn -> 1 <= SN.dist sn h <= 31 -> 0 <= q <= 31 ->
  SN.sub sn (q + SN.dist sn h) = SN.sub h q /\
  SN.dist sn (SN.sub h q) = SN.dist sn h + q.
Proof. intros Vh Vsn Hd Hq. split; sn_solve. Qed.

(** X3: when [try_add sn] advances the window (it returns [true] for a
    number 1 to 31 ahead of [highest]), the set afterwards represents [sn]
    and, of what it represented before, exactly the numbers at most 31
    behind [sn]; everything further back is forgotten. *)
Theorem advance_keeps_window a sn a' :
  wf a -> SN.valid sn -> is_empty a = false ->
  1 <= SN.dist sn (highest_sequence_number a) <= 31 ->
  try_add a sn = (true, a') ->
  forall x, contains a' x <-> x = sn \/ (contains a x /\ SN.dist sn x <= 31).
Proof.
  intros (Vh & _ & Hp) Vsn He Hd Hadd x.
  rewrite try_add_ahead in Hadd by assumption. cbv zeta in Hadd.
  destruct (shift_guard _ a (highest_sequence_number a) 0); [|discriminate].
  injection Hadd as <-.
  set (h := highest_sequence_number a) in *.
  set (d := SN.dist sn h) in *.
  assert (forall q, 0 <= q <= 31 ->
                    SN.sub sn (q + d) = SN.sub h q /\ SN.dist sn (SN.sub h q) = d + q)
    as Hpos by (intros q Hq; apply advance_positions; assumption).
  assert (SN.sub sn 0 = sn) as Hsn0 by (clear - Vsn; sn_solve).
  assert (SN.sub h 0 = h) as Hh0 by (clear - Vh; sn_solve).
  rewrite !contains_spec. simpl. rewrite He. unfold deref. simpl. fold h.
  split.
  - intros (_ & [->|(q' & Hq' & Hb & ->)]); [left; exact Hsn0|]. right.
    rewrite testbit_advance in Hb by lia.
    apply andb_true_iff in Hb. destruct Hb as [_ Hb].
    apply orb_true_iff in Hb. destruct Hb as [Hb|Hb].
    + destruct (Z.lt_ge_cases (q' - 1 - d) 0) as [Hneg|Hge];
        [rewrite Z.testbit_neg_r in Hb by lia; discriminate|].
      destruct (Hpos (q' - d)) as [Hsub Hdist]; [lia|].
      replace (q' - d + d) with q' in Hsub by lia. rewrite Hsub.
      split; [|rewrite Hdist; lia].
      split; [reflexivity|]. right. exists (q' - d).
      split; [lia|]. split; [|reflexivity].
      rewrite <- Hb. f_equal. lia.
    + apply Z.eqb_eq in Hb. replace q' with (0 + d) by lia.
      destruct (Hpos 0) as [Hsub Hdist]; [lia|]. rewrite Hsub, Hh0.
      split; [|rewrite Hh0 in Hdist; lia].
      split; [reflexivity|]. left. reflexivity.
  - intros [->|[(_ & Hx) Hnear]]; (split; [reflexivity|]);
      [left; symmetry; exact Hsn0|]. right.
    destruct Hx as [->|(q & Hq & Hb & ->)].
    + exists d. split; [lia|]. rewrite testbit_advance by lia.
      replace (d - 1 =? d - 1) with true by (symmetry; apply Z.eqb_refl).
      rewrite orb_true_r, andb_true_r.
      split; [apply Z.ltb_lt; lia|].
      destruct (Hpos 0) as [Hsub _]; [lia|]. simpl in Hsub. symmetry. exact Hsub.
    + destruct (Hpos q) as [Hsub Hdist]; [lia|]. rewrite Hdist in Hnear.
      exists (q + d). split; [lia|]. rewrite testbit_advance by lia.
      replace (q + d - 1 - d) with (q - 1) by lia. rewrite Hb. simpl.
      rewrite andb_true_r. split; [apply Z.ltb_lt; lia | symmetry; exact Hsub].
Qed.

Lemma advance_keeps_window_witness :
  contains (mk 130 100 (2 ^ 30 + 2 ^ 29) false) 99 <->
  99 = 130 \/ (contains (mk 100 100 (2 ^ 30 + 1) false) 99 /\ SN.dist 130 99 <= 31).
Proof.
  apply (advance_keeps_window (mk 100 100 (2 ^ 30 + 1) false) 130).
  - unfold wf, SN.valid. simpl. lia.
  - unfold SN.valid. lia.
  - reflexivity.
  - vm_compute. split; congruence.
  - vm_compute. reflexivity.
Defined.

(** X4: when [try_add] returns [true] on a non-empty set, the number is
    represented afterwards exactly when it is not more than 31 behind the
    old [highest]: a number below the window is accepted with [true] and
    yet not recorded. *)
Theorem accepted_is_recorded_within_window a sn a' :
  wf a -> SN.valid sn -> is_empty a = false ->
  try_add a sn = (true, a') ->
  (contains a' sn <-> SN.dist (highest_sequence_number a) sn <= 31).
Proof.
  intros Hwf Vsn He Hadd. pose proof Hwf as (Vh & _ & Hp).
  destruct (Z.eq_dec sn (highest_sequence_number a)) as [->|Hne].
  - unfold try_add in Hadd. rewrite He in Hadd. cbv zeta in Hadd.
    unfold SN.eqb in Hadd. rewrite Z.eqb_refl in Hadd. injection Hadd as <-.
    split.
    + intros _. clear - Vh. sn_solve.
    + intros _. apply contains_spec. split; [assumption|]. left.
      unfold deref. clear - Vh. sn_solve.
  - set (h := highest_sequence_number a) in *.
    destruct (Z.lt_trichotomy 0 (SN.dist h sn)) as [Hbehind|[Hzero|Hahead]].
    + rewrite try_add_behind in Hadd by assumption. cbv zeta in Hadd. fold h in Hadd.
      destruct (Z.ltb_spec 31 (SN.dist h sn)) as [Hfar|Hnear].
      * injection Hadd as <-. split; [|lia].
        intros Hc. apply contains_within in Hc; [|assumption].
        fold h in Hc. lia.
      * injection Hadd as <-. split; [lia|]. intros _.
        apply contains_spec. simpl. split; [reflexivity|]. right.
        exists (SN.dist h sn). split; [lia|].
        rewrite testbit_mark by lia.
        replace (SN.dist h sn - 1 =? SN.dist h sn - 1) with true
          by (symmetry; apply Z.eqb_refl).
        rewrite orb_true_r, andb_true_r. split; [apply Z.ltb_lt; lia|].
        symmetry. apply (deref_dist a sn Vsn). fold h. lia.
    + exfalso. clear - Hzero Hne Vh Vsn. sn_solve.
    + split; [intros _; lia|]. intros _.
      unfold try_add in Hadd. rewrite He in Hadd. cbv zeta in Hadd.
      fold h in Hadd.
      assert (SN.eqb sn h = false) as Heq by (clear - Hne; sn_solve).
      assert (SN.ltb sn h = false) as Hlt by (clear - Hahead; sn_solve).
      rewrite Heq, Hlt in Hadd.
      destruct (SN.gtb sn (SN.add h 31)); [discriminate|].
      destruct (shift_guard _ a h 0); [|discriminate].
      injection Hadd as <-.
      apply contains_spec. simpl. split; [reflexivity|]. left.
      unfold deref. simpl. clear - Vsn. sn_solve.
Qed.

Lemma accepted_is_recorded_within_window_witness :
  contains (mk 100 90 5 false) 40 <-> SN.dist 100 40 <= 31.
Proof.
  apply (accepted_is_recorded_within_window (mk 100 90 5 false) 40).
  - unfold wf, SN.valid. simpl. lia.
  - unfold SN.valid. lia.
  - reflexivity.
  - vm_compute. reflexivity.
Defined.

(** ** The iteration of any set *)

Lemma zrange_length n : forall s, length (zrange n s) = n.
Proof. induction n as [|n IH]; intros s; simpl; [reflexivity|]. rewrite IH. reflexivity. Qed.

Lemma sorted_no_dup {A} (R : A -> A -> Prop) l :
  (forall x, ~ R x x) -> StronglySorted R l -> List.NoDup l.
Proof.
  intros Hirr. induction 1 as [|x l Hs IH Hx]; constructor; [|assumption].
  intros Hin. rewrite List.Forall_forall in Hx. apply (Hirr x), Hx, Hin.
Qed.

Lemma ltb_irrefl x : SN.ltb x x = false.
Proof. unfold SN.ltb, SN.sub. replace (x - x) with 0 by lia. reflexivity. Qed.

Lemma deref_order h q q' :
  SN.valid h -> 0 <= q -> q < q' -> q' <= 31 ->
  SN.ltb (SN.sub h q') (SN.sub h q) = true.
Proof. intros Vh H0 H1 H2. sn_solve. Qed.

Lemma marked_length p from : (length (marked p from) <= Z.to_nat (32 - from))%nat.
Proof.
  unfold marked.
  pose proof (filter_length_le (fun q => Z.testbit p (q - 1))
                (zrange (Z.to_nat (32 - from)) from)) as Hle.
  rewrite zrange_length in Hle. exact Hle.
Qed.

(** X5: the iteration from [begin()] to [end()] terminates on every set.
    It yields nothing for an empty set, whatever the stale fields hold; for
    a non-empty one it starts with [highest], yields at most 32 numbers,
    each at most 31 behind [highest], each behind the one before it, and
    none twice. *)
Theorem iteration_shape a :
  SN.valid (highest_sequence_number a) ->
  exists l,
    iterate a = Some l /\
    (is_empty a = true -> l = []) /\
    (is_empty a = false ->
     hd_error l = Some (highest_sequence_number a) /\
     (length l <= 32)%nat /\
     StronglySorted (fun x y => SN.ltb y x = true) l /\
     List.NoDup l /\
     forall x, In x l -> 0 <= SN.dist (highest_sequence_number a) x <= 31).
Proof.
  intros Vh. rewrite iterate_spec. eexists. split; [reflexivity|].
  destruct (is_empty a).
  { split; [reflexivity | discriminate]. }
  split; [discriminate|]. intros _.
  set (h := highest_sequence_number a) in *.
  pose proof (marked_sorted (predecessors a) 1) as Hms.
  pose proof (marked_length (predecessors a) 1) as Hml.
  assert (forall q, In q (marked (predecessors a) 1) -> 1 <= q <= 31) as Hmr
      by (intros q Hq; apply marked_In in Hq; lia).
  generalize dependent (marked (predecessors a) 1). intros M Hms Hml Hmr.
  assert (StronglySorted Z.lt (0 :: M)) as HsL.
  { constructor; [assumption|]. apply List.Forall_forall.
    intros q Hq. apply Hmr in Hq. lia. }
  assert (forall q, In q (0 :: M) -> 0 <= q <= 31) as HrL.
  { intros q [<-|Hq]; [lia|]. apply Hmr in Hq. lia. }
  assert (StronglySorted (fun x y => SN.ltb y x = true) (map (deref a) (0 :: M)))
    as Hsorted.
  { generalize dependent (0 :: M). intros L HsL HrL.
    induction HsL as [|q l Hs IH Hq]; cbn [map]; constructor.
    - apply IH. intros q' Hq'. apply HrL. right. assumption.
    - apply List.Forall_forall. intros y Hy. apply in_map_iff in Hy.
      destruct Hy as (q' & <- & Hq'). rewrite List.Forall_forall in Hq.
      pose proof (Hq q' Hq') as Hlt.
      pose proof (HrL q (or_introl eq_refl)) as Hr1.
      pose proof (HrL q' (or_intror Hq')) as Hr2.
      unfold deref. apply deref_order; try assumption; lia. }
  split.
  { cbn [map hd_error]. f_equal. unfold deref. fold h. clear - Vh. sn_solve. }
  split.
  { rewrite length_map. cbn [length]. change (Z.to_nat (32 - 1)) with 31%nat in Hml. lia. }
  split; [exact Hsorted|]. split.
  - apply (sorted_no_dup _ _ (fun x H => eq_ind false (fun b => b <> true)
                                            (fun E => diff_false_true E) _
                                            (eq_sym (ltb_irrefl x)) H) Hsorted).
  - intros x Hx. apply in_map_iff in Hx. destruct Hx as (q & <- & Hq).
    unfold h. rewrite deref_behind by auto. auto.
Qed.

Lemma iteration_shape_witness :
  exists l,
    iterate (mk 100 90 5 false) = Some l /\
    (false = true -> l = []) /\
    (false = false ->
     hd_error l = Some 100 /\
     (length l <= 32)%nat /\
     StronglySorted (fun x y => SN.ltb y x = true) l /\
     List.NoDup l /\
     forall x, In x l -> 0 <= SN.dist 100 x <= 31).
Proof.
  apply (iteration_shape (mk 100 90 5 false)).
  unfold SN.valid. simpl. lia.
Defined.

(** ** Sequences within one window *)

Lemma window_iterate S h0 l0 :
  (forall s, In s S -> SN.valid s) ->
  (forall x y, In x S -> In y S -> x - y <= 31) ->
  exists l, iterate (snd (add_all (create h0 l0) S)) = Some l /\
            (forall x, In x l <-> In x S) /\
            StronglySorted Z.gt l.
Proof.
  intros Hvalid Hclose. destruct S as [|s0 rest].
  - exists []. split; [reflexivity|]. split; [tauto | constructor].
  - destruct (try_add_first h0 l0 s0) as [Hfirst Hadded].
    cbn [add_all]. rewrite Hfirst.
    destruct (add_all_steps (s0 :: rest) Hvalid Hclose rest
                (mk s0 s0 0 false) [s0]) as [_ Hfin].
    + intros x Hx. right. assumption.
    + intros x [<-|[]]. left. reflexivity.
    + assumption.
    + destruct (add_all (mk s0 s0 0 false) rest) as [rs a'] eqn:Hall.
      simpl in *.
      destruct (iterate_added (s0 :: rest) Hvalid Hclose a' (rev rest ++ [s0]))
        as (l & Hl & Hmem & Hsorted).
      * intros x Hx. apply in_app_or in Hx.
        destruct Hx as [Hx|[<-|[]]]; [right; apply in_rev; assumption | left; reflexivity].
      * assumption.
      * exists l. split; [assumption|]. split; [|assumption].
        intros x. rewrite Hmem, in_app_iff, <- in_rev. simpl. tauto.
Qed.

Lemma decreasing_unique l1 :
  forall l2,
    StronglySorted Z.gt l1 -> StronglySorted Z.gt l2 ->
    (forall x, In x l1 <-> In x l2) -> l1 = l2.
Proof.
  induction l1 as [|x l1 IH]; intros l2 H1 H2 Hsame.
  - destruct l2 as [|y l2]; [reflexivity|].
    destruct (proj2 (Hsame y) (or_introl eq_refl)).
  - destruct l2 as [|y l2]; [destruct (proj1 (Hsame x) (or_introl eq_refl))|].
    apply StronglySorted_inv in H1. destruct H1 as [H1 Hx].
    apply StronglySorted_inv in H2. destruct H2 as [H2 Hy].
    rewrite List.Forall_forall in Hx, Hy.
    assert (x = y) as <-.
    { destruct (proj1 (Hsame x) (or_introl eq_refl)) as [?|Hxin]; [congruence|].
      destruct (proj2 (Hsame y) (or_introl eq_refl)) as [?|Hyin]; [congruence|].
      pose proof (Hy x Hxin). pose proof (Hx y Hyin). lia. }
    f_equal. apply IH; try assumption.
    intros z. split; intros Hz.
    + destruct (proj1 (Hsame z) (or_intror Hz)) as [<-|?]; [|assumption].
      pose proof (Hx x Hz). lia.
    + destruct (proj2 (Hsame z) (or_intror Hz)) as [<-|?]; [|assumption].
      pose proof (Hy x Hz). lia.
Qed.

(** X6: within one window the order of arrival and repetitions do not
    matter: two sequences with the same elements, whose largest and
    smallest differ by at most 31, fed to two fresh sets, give the same
    iteration. *)
Theorem arrival_order_irrelevant S S' h0 l0 h0' l0' :
  (forall s, In s S -> SN.valid s) ->
  (forall x y, In x S -> In y S -> x - y <= 31) ->
  (forall x, In x S <-> In x S') ->
  iterate (snd (add_all (create h0 l0) S))
  = iterate (snd (add_all (create h0' l0') S')).
Proof.
  intros Hvalid Hclose Hsame.
  destruct (window_iterate S h0 l0 Hvalid Hclose) as (l & -> & Hmem & Hsorted).
  destruct (window_iterate S' h0' l0') as (l' & -> & Hmem' & Hsorted').
  - intros s Hs. apply Hvalid, Hsame, Hs.
  - intros x y Hx Hy. apply Hclose; apply Hsame; assumption.
  - f_equal. apply decreasing_unique; try assumption.
    intros x. rewrite Hmem, Hmem'. apply Hsame.
Qed.

Lemma arrival_order_irrelevant_witness :
  iterate (snd (add_all (create 7 9) [40; 12; 43; 40; 20]))
  = iterate (snd (add_all (create 1 2) [43; 20; 12; 40])).
Proof.
  apply arrival_order_irrelevant.
  - intros s Hs. unfold SN.valid. simpl in Hs. lia.
  - intros x y Hx Hy. simpl in Hx, Hy. lia.
  - intros x. simpl. tauto.
Defined.

(** ** What the guard of try_add is for *)

Lemma near_dist a b :
  0 <= a < 2 ^ 31 -> 0 <= b < 2 ^ 31 -> SN.dist a b = a - b.
Proof. intros Ha Hb. sn_solve. Qed.

Lemma near_below h low i :
  0 <= h < 2 ^ 31 -> 0 <= low <= h -> 0 <= i <= 30 ->
  SN.ltb h (SN.sub (SN.add low 31) i) = (h <? low + 31 - i).
Proof. intros Hh Hl Hi. destruct (Z.ltb_spec h (low + 31 - i)); sn_solve. Qed.

Lemma fed_more first a P P' :
  fed first a P -> incl P P' -> fed first a P'.
Proof.
  intros [H1 H2 H3 H4 H5 H6] Hincl. constructor; auto.
Qed.

Lemma fed_step first a P sn :
  0 <= first ->
  (forall x, In x P -> 0 <= x < 2 ^ 31) -> 0 <= sn < 2 ^ 31 ->
  fed first a P ->
  fed first (snd (try_add a sn)) (sn :: P).
Proof.
  intros Hfirst HP Hsn Hfed.
  assert (incl P (sn :: P)) as Hincl by (intros x Hx; right; assumption).
  pose proof Hfed as [He Hlow Hh Hord Hbits Hgaps].
  pose proof (HP _ Hh) as Hhr.
  set (h := highest_sequence_number a) in *.
  assert (0 <= first < 2 ^ 31) as Hfr by lia.
  destruct (Z.lt_trichotomy sn h) as [Hlt|[Heq|Hgt]].
  - (* behind the highest *)
    pose proof (near_dist h sn Hhr Hsn) as Hd.
    rewrite try_add_behind; [|assumption|fold h; lia].
    cbv zeta. fold h. rewrite Hd.
    destruct (Z.ltb_spec 31 (h - sn)); simpl.
    + apply (fed_more _ _ _ _ Hfed Hincl).
    + constructor; simpl; fold h;
        [reflexivity | assumption | right; assumption | assumption | |
         intros x Hx; right; apply Hgaps; assumption].
      intros k Hk Hb. rewrite testbit_mark in Hb by lia.
      apply andb_true_iff in Hb. destruct Hb as [_ Hb].
      apply orb_true_iff in Hb. destruct Hb as [Hb|Hb].
      * right. apply Hbits; assumption.
      * apply Z.eqb_eq in Hb. left. lia.
  - (* the highest again *)
    subst sn. unfold try_add. rewrite He. cbv zeta. fold h.
    unfold SN.eqb. rewrite Z.eqb_refl. simpl.
    apply (fed_more _ _ _ _ Hfed Hincl).
  - (* ahead of the highest *)
    pose proof (near_dist sn h Hsn Hhr) as Hd.
    destruct (Z.le_gt_cases (sn - h) 31) as [Hnear|Hfar].
    + rewrite try_add_ahead; [|assumption|fold h; lia].
      cbv zeta. fold h. rewrite Hd.
      destruct (shift_guard (Z.to_nat (sn - h)) a h 0) eqn:Hguard; simpl;
        [|apply (fed_more _ _ _ _ Hfed Hincl)].
      constructor; simpl;
        [reflexivity | assumption | left; reflexivity | lia | |].
      * intros k Hk Hb. rewrite testbit_advance in Hb by lia.
        apply andb_true_iff in Hb. destruct Hb as [_ Hb].
        apply orb_true_iff in Hb. destruct Hb as [Hb|Hb].
        -- destruct (Z.lt_ge_cases (k - (sn - h)) 0) as [Hneg|Hge];
             [rewrite Z.testbit_neg_r in Hb by lia; discriminate|].
           right. replace (sn - (k + 1)) with (h - (k - (sn - h) + 1)) by lia.
           apply Hbits; [lia | assumption].
        -- apply Z.eqb_eq in Hb. right.
           replace (sn - (k + 1)) with h by lia. assumption.
      * intros x Hx. right.
        destruct (Z.lt_ge_cases x (h - 31)) as [Hold|Hnew];
          [apply Hgaps; lia|].
        rewrite shift_guard_true in Hguard.
        specialize (Hguard (x - h + 31) ltac:(lia)).
        rewrite shift_allowed_spec in Hguard by lia.
        rewrite Hlow, near_below in Hguard by lia.
        destruct (Z.ltb_spec h (first + 31 - (x - h + 31))); [lia|].
        simpl in Hguard.
        replace x with (h - (30 - (x - h + 31) + 1)) by lia.
        apply Hbits; [lia | assumption].
    + assert (try_add a sn = (false, a)) as ->; [|apply (fed_more _ _ _ _ Hfed Hincl)].
      unfold try_add. rewrite He. cbv zeta. fold h.
      destruct (dist_ahead_not_behind sn h) as [Hlt' Heq']; [lia|].
      rewrite Heq', Hlt', dist_window_gtb by lia.
      destruct (Z.ltb_spec 31 (SN.dist sn h)); [reflexivity | lia].
Qed.

Lemma fed_steps first rest :
  0 <= first ->
  forall a P,
    (forall x, In x P -> 0 <= x < 2 ^ 31) ->
    (forall x, In x rest -> 0 <= x < 2 ^ 31) ->
    fed first a P ->
    fed first (snd (add_all a rest)) (rev rest ++ P).
Proof.
  intros Hfirst. induction rest as [|sn rest IH]; intros a P HP Hrest Hfed.
  - exact Hfed.
  - cbn [add_all].
    pose proof (fed_step first a P sn Hfirst HP (Hrest sn (or_introl eq_refl)) Hfed)
      as Hstep.
    destruct (try_add a sn) as [r a1]. cbn [snd] in Hstep.
    specialize (IH a1 (sn :: P)).
    destruct (add_all a1 rest) as [rs a2]. cbn [snd] in *.
    simpl rev. rewrite <- app_assoc. apply IH; [|auto using in_cons|assumption].
    intros x [<-|Hx]; [apply Hrest; left; reflexivity | apply HP, Hx].
Qed.

(** X7: the window never slides past a number that was not received.
    After a sequence of numbers below 2^31 was fed to a fresh set, every
    number from the first one fed up to 32 below [highest] -- every number
    that has left the window -- is one of those fed; [lowest] is still the
    first number fed and [highest] is one of them. *)
Theorem window_never_skips first rest h0 l0 :
  (forall s, In s (first :: rest) -> 0 <= s < 2 ^ 31) ->
  lowest_sequence_number (snd (add_all (create h0 l0) (first :: rest))) = first /\
  In (highest_sequence_number (snd (add_all (create h0 l0) (first :: rest))))
     (first :: rest) /\
  forall x,
    first <= x
    < highest_sequence_number (snd (add_all (create h0 l0) (first :: rest))) - 31 ->
    In x (first :: rest).
Proof.
  intros Hrange.
  assert (0 <= first < 2 ^ 31) as Hfirst by (apply Hrange; left; reflexivity).
  assert (fed first (mk first first 0 false) [first]) as Hfed0.
  { constructor; simpl; auto; try lia.
    intros k _ Hb. rewrite Z.bits_0 in Hb. discriminate. }
  assert (forall x, In x [first] -> 0 <= x < 2 ^ 31) as H1
      by (intros x [<-|[]]; assumption).
  assert (forall x, In x rest -> 0 <= x < 2 ^ 31) as H2
      by (intros x Hx; apply Hrange; right; assumption).
  pose proof (fed_steps first rest ltac:(lia) (mk first first 0 false) [first]
                H1 H2 Hfed0) as Hfed.
  cbn [add_all]. change (try_add (create h0 l0) first)
    with (true, mk first first 0 false). cbv beta iota.
  destruct (add_all (mk first first 0 false) rest) as [rs a]. cbn [snd] in *.
  destruct Hfed as [_ Hlow Hh _ _ Hgaps].
  assert (forall x, In x (rev rest ++ [first]) -> In x (first :: rest)) as Hin.
  { intros x Hx. apply in_app_or in Hx.
    destruct Hx as [Hx|[<-|[]]]; [right; apply in_rev; assumption | left; reflexivity]. }
  cbv beta iota. cbn [snd].
  split; [assumption|]. split; [apply Hin, Hh|].
  intros x Hx. apply Hin, Hgaps, Hx.
Qed.

Lemma window_never_skips_witness :
  lowest_sequence_number (snd (add_all (create 7 9) [3; 34; 4; 35; 80])) = 3 /\
  In (highest_sequence_number (snd (add_all (create 7 9) [3; 34; 4; 35; 80])))
     [3; 34; 4; 35; 80] /\
  forall x,
    3 <= x < highest_sequence_number (snd (add_all (create 7 9) [3; 34; 4; 35; 80])) - 31 ->
    In x [3; 34; 4; 35; 80].
Proof.
  apply (window_never_skips 3 [34; 4; 35; 80] 7 9).
  intros s Hs. simpl in Hs. lia.
Defined.

End AckSetLaws.

(* ===================================================================== *)
(** * Further facts about the list model                                  *)
(* ===================================================================== *)

Module StdListIndex.

Import StdList StdListFacts TransmitQueueNotions.

Section Index.

Context {A : Type}.
Implicit Types (l : StdList.t A) (h : node).

Lemma begin_head l : begin_ l = nodes l !! 0%nat.
Proof. destruct l as [|[h y] l]; reflexivity. Qed.

Lemma lookup_nodes_In l k h : nodes l !! k = Some h -> In h (nodes l).
Proof. intros H. apply list_elem_of_In. eapply list_elem_of_lookup_2, H. Qed.

Lemma nodes_index_unique l k k' h :
  List.NoDup (nodes l) -> nodes l !! k = Some h -> nodes l !! k' = Some h -> k = k'.
Proof.
  intros Hnd. apply NoDup_ListNoDup in Hnd.
  intros H1 H2. eapply NoDup_lookup; eassumption.
Qed.

Lemma succ_index l :
  forall k h,
    List.NoDup (nodes l) -> nodes l !! k = Some h ->
    succ l h = Some (nodes l !! S k).
Proof.
  induction l as [|[h0 y] l IH]; intros k h Hnd Hk; [discriminate|].
  apply List.NoDup_cons_iff in Hnd. destruct Hnd as [Hh0 Hnd].
  simpl succ. destruct (Nat.eqb_spec h0 h) as [->|Hne].
  - destruct k as [|k]; [simpl; rewrite begin_head; reflexivity|].
    exfalso. apply Hh0. apply (lookup_nodes_In l k). exact Hk.
  - destruct k as [|k]; [simpl in Hk; congruence|].
    simpl in Hk. rewrite (IH k h Hnd Hk). reflexivity.
Qed.

Lemma pred_index l :
  forall k h,
    List.NoDup (nodes l) -> nodes l !! S k = Some h ->
    pred l h = Some (nodes l !! k).
Proof.
  induction l as [|[h1 y1] l IH]; intros k h Hnd Hk; [discriminate|].
  apply List.NoDup_cons_iff in Hnd. destruct Hnd as [Hh1 Hnd].
  destruct l as [|[h2 y2] l]; [discriminate|].
  simpl pred. destruct (Nat.eqb_spec h2 h) as [->|Hne].
  - destruct k as [|k]; [reflexivity|].
    exfalso. apply List.NoDup_cons_iff in Hnd. destruct Hnd as [Hh2 _].
    apply Hh2. apply (lookup_nodes_In l k). exact Hk.
  - destruct k as [|k]; [simpl in Hk; congruence|].
    change (nodes ((h1, y1) :: (h2, y2) :: l) !! S k)
      with (nodes ((h2, y2) :: l) !! k).
    apply IH; assumption.
Qed.

Lemma back_index l : l <> [] -> back l = Some (nodes l !! (length l - 1)%nat).
Proof.
  unfold back. intros Hne.
  assert (forall (ns : list node),
             ns <> [] ->
             List.last (map Some ns) None = ns !! (length ns - 1)%nat) as Hlast.
  { induction ns as [|a ns IH]; [congruence|]. intros _.
    destruct ns as [|b ns]; [reflexivity|].
    change (List.last (map Some (a :: b :: ns)) None)
      with (List.last (map Some (b :: ns)) None).
    rewrite IH by discriminate. simpl length.
    replace (S (S (length ns)) - 1)%nat with (S (S (length ns) - 1))%nat by lia.
    reflexivity. }
  assert (nodes l <> []) as Hn by (destruct l; [congruence | discriminate]).
  assert (length (nodes l) = length l) as Hlen by apply List.length_map.
  rewrite (Hlast (nodes l) Hn), Hlen.
  destruct (nodes l !! (length l - 1)%nat) as [h|] eqn:E; [reflexivity|].
  exfalso. apply lookup_ge_None in E. rewrite Hlen in E.
  destruct l; [congruence | simpl in E; lia].
Qed.

Lemma rotation_lookup {B} (l : list B) k j :
  (k < length l)%nat -> (j < length l)%nat ->
  rotation k l !! j = l !! ((k + j) mod length l)%nat.
Proof.
  intros Hk Hj. unfold rotation.
  destruct (Nat.lt_ge_cases (k + j) (length l)) as [Hlt|Hge].
  - rewrite lookup_app_l by (rewrite length_drop; lia).
    rewrite lookup_drop, Nat.mod_small by lia. reflexivity.
  - rewrite lookup_app_r by (rewrite length_drop; lia).
    rewrite length_drop, lookup_take_lt by lia.
    f_equal. symmetry.
    replace (k + j)%nat with ((j - (length l - k)) + 1 * length l)%nat by lia.
    rewrite Nat.Div0.mod_add. apply Nat.mod_small. lia.
Qed.

Lemma rotation_length {B} (l : list B) k : length (rotation k l) = length l.
Proof.
  unfold rotation. rewrite length_app, length_drop, length_take. lia.
Qed.

Lemma erase_split l :
  forall h l' i,
    erase l h = Some (l', i) ->
    exists l1 y l2,
      l = l1 ++ (h, y) :: l2 /\ l' = l1 ++ l2 /\ i = begin_ l2 /\
      ~ In h (nodes l1).
Proof.
  induction l as [|[h0 y0] l IH]; intros h l' i; simpl; [discriminate|].
  destruct (Nat.eqb_spec h0 h) as [->|Hne].
  - intros [= <- <-]. exists [], y0, l. simpl. auto.
  - destruct (erase l h) as [[l'' i'']|] eqn:E; [|discriminate].
    simpl. intros [= <- <-].
    destruct (IH h l'' i'' E) as (l1 & y & l2 & -> & -> & -> & Hnot).
    exists ((h0, y0) :: l1), y, l2. simpl.
    repeat split; auto. intros [?|?]; [congruence | auto].
Qed.

Lemma insert_split l :
  forall i fresh x l',
    insert l i fresh x = Some l' ->
    exists l1 l2,
      l = l1 ++ l2 /\ l' = l1 ++ (fresh, x) :: l2 /\ begin_ l2 = i /\
      (forall h, i = Some h -> ~ In h (nodes l1)).
Proof.
  induction l as [|[h0 y0] l IH]; intros i fresh x l'; simpl.
  - destruct i; [discriminate|]. intros [= <-]. exists [], []. simpl.
    repeat split; auto; discriminate.
  - destruct (iter_eqb i (Some h0)) eqn:E.
    + apply iter_eqb_eq in E. subst i. intros [= <-].
      exists [], ((h0, y0) :: l). simpl. repeat split; auto.
    + apply iter_eqb_neq in E.
      destruct (insert l i fresh x) as [l''|] eqn:Hins; [|discriminate].
      simpl. intros [= <-].
      destruct (IH i fresh x l'' Hins) as (l1 & l2 & -> & -> & Hb & Hnot).
      exists ((h0, y0) :: l1), l2. simpl. repeat split; auto.
      intros h Hh [?|Hin]; [congruence|]. apply (Hnot h Hh Hin).
Qed.

Lemma get_app_fresh l1 l2 h :
  ~ In h (nodes l1) -> get (l1 ++ l2) h = get l2 h.
Proof.
  induction l1 as [|[h0 y0] l1 IH]; simpl; [reflexivity|]. intros Hnot.
  destruct (Nat.eqb_spec h0 h) as [->|Hne]; [exfalso; auto|].
  apply IH. auto.
Qed.

Lemma erase_app_fresh l1 l2 h :
  ~ In h (nodes l1) ->
  erase (l1 ++ l2) h = (fun r => (l1 ++ fst r, snd r)) <$> erase l2 h.
Proof.
  induction l1 as [|[h0 y0] l1 IH]; simpl; intros Hnot.
  - destruct (erase l2 h) as [[? ?]|]; reflexivity.
  - destruct (Nat.eqb_spec h0 h) as [->|Hne]; [exfalso; auto|].
    rewrite IH by auto. destruct (erase l2 h) as [[? ?]|]; reflexivity.
Qed.

End Index.

End StdListIndex.

(* ===================================================================== *)
(** * More about the queue: its list, its cursor and the target sets     *)
(* ===================================================================== *)

Module TransmitQueueLaws.

Import StdList StdListFacts StdListIndex.
Import TransmitQueue TransmitQueueFacts TransmitQueueNotions.

Lemma nodes_app {A} (l1 l2 : StdList.t A) : nodes (l1 ++ l2) = nodes l1 ++ nodes l2.
Proof. unfold nodes. apply map_app. Qed.

Lemma nodes_length {A} (l : StdList.t A) : length (nodes l) = length l.
Proof. apply List.length_map. Qed.

Lemma begin_app {A} (l1 l2 : StdList.t A) :
  begin_ (l1 ++ l2) = match begin_ l1 with Some h => Some h | None => begin_ l2 end.
Proof. destruct l1 as [|[h y] l1]; reflexivity. Qed.

Lemma circular_increment_index NDEBUG q k h :
  List.NoDup (nodes (_messages q)) ->
  nodes (_messages q) !! k = Some h ->
  exists h',
    circular_increment NDEBUG q (Some h) = Ok (Some h') /\
    nodes (_messages q) !! (S k mod length (_messages q))%nat = Some h'.
Proof.
  intros Hnd Hk. unfold circular_increment, assert_.
  pose proof (lookup_lt_Some _ _ _ Hk) as Hlt. rewrite nodes_length in Hlt.
  assert (empty (_messages q) = false) as ->
      by (destruct (_messages q); [simpl in Hlt; lia | reflexivity]).
  simpl. rewrite orb_true_r. run.
  rewrite (succ_index _ k h Hnd Hk). run.
  destruct (nodes (_messages q) !! S k) as [h'|] eqn:E.
  - assert (iter_eqb (Some h') end_ = false) as ->
        by (apply iter_eqb_neq; discriminate).
    exists h'. split; [reflexivity|].
    pose proof (lookup_lt_Some _ _ _ E) as Hlt'. rewrite nodes_length in Hlt'.
    rewrite Nat.mod_small by lia. exact E.
  - assert (iter_eqb None end_ = true) as -> by (apply iter_eqb_eq; reflexivity).
    apply lookup_ge_None in E. rewrite nodes_length in E.
    assert (S k = length (_messages q)) as -> by lia.
    rewrite Nat.Div0.mod_same, <- begin_head.
    destruct (begin_ (_messages q)) as [h'|] eqn:Hb; [eauto|].
    apply begin_None in Hb. rewrite Hb in Hlt. simpl in Hlt. lia.
Qed.

Lemma terminator_index q k h :
  List.NoDup (nodes (_messages q)) ->
  nodes (_messages q) !! k = Some h -> _next q = Some h ->
  exists hl,
    terminator q = Some (Some hl) /\
    nodes (_messages q) !! ((k + (length (_messages q) - 1))
                            mod length (_messages q))%nat = Some hl.
Proof.
  intros Hnd Hk Hn. unfold terminator. rewrite Hn.
  pose proof (lookup_lt_Some _ _ _ Hk) as Hlt. rewrite nodes_length in Hlt.
  destruct k as [|k].
  - assert (iter_eqb (Some h) (begin_ (_messages q)) = true) as ->
        by (apply iter_eqb_eq; rewrite begin_head; auto).
    simpl decr. rewrite back_index by (intros E; rewrite E in Hlt; simpl in Hlt; lia).
    rewrite Nat.add_0_l, Nat.mod_small by lia.
    destruct (nodes (_messages q) !! (length (_messages q) - 1)%nat) as [hl|] eqn:E.
    + eauto.
    + apply lookup_ge_None in E. rewrite nodes_length in E. lia.
  - assert (iter_eqb (Some h) (begin_ (_messages q)) = false) as ->.
    { apply iter_eqb_neq. rewrite begin_head. intros E. symmetry in E.
      pose proof (nodes_index_unique _ _ _ _ Hnd Hk E). lia. }
    simpl decr. rewrite (pred_index _ k h Hnd Hk).
    replace (S k + (length (_messages q) - 1))%nat
      with (k + 1 * length (_messages q))%nat by lia.
    rewrite Nat.Div0.mod_add, Nat.mod_small by lia.
    destruct (nodes (_messages q) !! k) as [hl|] eqn:E.
    + eauto.
    + apply lookup_ge_None in E. rewrite nodes_length in E. lia.
Qed.

Lemma erase_inv s h s' :
  erase s (Some h) = Ok s' ->
  exists p,
    get (_messages (queue s)) h = Some p /\
    erased_from (queue s) (queue s') h p /\
    outbound s' = OutboundMessages.release (outbound s) p /\
    heap s' = heap s /\ encoder s' = encoder s /\ memory s' = memory s /\
    encoded s' = encoded s.
Proof.
  unfold erase. run.
  destruct (get (_messages (queue s)) h) as [p|] eqn:Hp; run; [|discriminate].
  destruct (StdList.erase (_messages (queue s)) h) as [[l' i]|] eqn:He; run;
    [|discriminate].
  cbn [fst snd]. intros [= <-]. cbn [queue heap outbound encoder memory encoded].
  exists p. split; [reflexivity|]. split; [|repeat split; reflexivity].
  destruct (erase_split _ _ _ _ He) as (l1 & p0 & l2 & Hl & -> & -> & Hnot).
  assert (p0 = p) as ->.
  { rewrite Hl, get_app_fresh in Hp by assumption. simpl in Hp.
    rewrite Nat.eqb_refl in Hp. congruence. }
  exists l1, l2. split; [exact Hl|]. split; [exact Hnot|].
  destruct (iter_eqb (Some h) (_next (queue s))); fields.
  - destruct (iter_eqb (begin_ l2) end_) eqn:E; fields.
    + apply iter_eqb_eq in E. apply begin_None in E. subst l2.
      rewrite app_nil_r. simpl. repeat split; reflexivity.
    + apply iter_eqb_neq in E. rewrite begin_app.
      destruct (begin_ l2); [|exfalso; apply E; reflexivity].
      repeat split; reflexivity.
  - repeat split; reflexivity.
Qed.

Lemma encode_round_inv NDEBUG last s c f s' c' :
  encode_round NDEBUG last s c = Ok (f, s', c') ->
  round_outcome NDEBUG last s c f s' c'.
Proof.
  unfold encode_round, round_outcome.
  destruct (_next (queue s)) as [h|] eqn:Hn.
  2: { unfold circular_increment.
       destruct (assert_ NDEBUG _); run; discriminate. }
  destruct (circular_increment NDEBUG (queue s) (Some h)) as [i|e] eqn:Hc; run;
    [|discriminate].
  fields.
  destruct (get (_messages (queue s)) h) as [p|] eqn:Hp; run; [|discriminate].
  destruct (heap s !! p) as [m|] eqn:Hm; run; [|discriminate].
  intros H. exists h, i, p, m.
  split; [reflexivity|]. split; [assumption|]. split; [assumption|].
  split; [assumption|]. cbv zeta.
  destruct (set_intersection (Message.targets m) (_targets (queue s)))
    as [|u inter] eqn:Hi.
  - (* nobody on this link is a target *)
    left. revert H.
    match goal with
    | |- context [erase ?st ?it] => destruct (erase st it) as [s1|] eqn:He
    end; run; [|discriminate].
    apply erase_inv in He.
    destruct He as (p0 & Hp0 & Her & Hob & Hh & He & Hmem & Henc).
    cbn [queue heap outbound encoder memory encoded _messages] in *.
    assert (p0 = p) as -> by congruence.
    assert (erased_from (set_next (queue s) i) (queue s1) h p) as Her'.
    { destruct Her as (l1 & l2 & H1 & H2 & H3 & H4 & H5).
      exists l1, l2. fields. auto. }
    destruct (empty (_messages (queue s1))) eqn:Hempty;
      intros [= <- <- <-]; rewrite ?Hempty; repeat split; auto.
  - right. revert H.
    match goal with
    | |- context [try_encode ?n ?e ?mm ?tg ?msg] =>
        destruct (try_encode n e mm tg msg) as [[[ok e'] mem']|] eqn:Ht
    end; run; [|discriminate].
    destruct ok; cbn [negb].
    + (* encoded *)
      fields. destruct (Message.is_reliable m) eqn:Hrel; cbn [negb].
      * intros H. right. left.
        assert (s' = mkState (mk (_targets (queue s)) (_messages (queue s)) i
                                 (u :: inter) (node_supply (queue s)))
                             (heap s) (outbound s) e' mem'
                             ((p, Encoder.current_begin (encoder s)) :: encoded s)
                /\ c' = (c + 1) mod 2 ^ 16
                /\ f = (if iter_eqb (Some h) last then Break else Continue))
          as (-> & -> & ->)
            by (destruct (iter_eqb (Some h) last); injection H as <- <- <-; auto).
        cbn. repeat split; auto; try discriminate.
      * destruct (bool_decide (Message.targets
                                 (Message.set_targets m
                                    (Message.targets m ∖ _targets (queue s))) = ∅))
          eqn:Hd.
        -- apply bool_decide_eq_true in Hd.
           match goal with
           | |- context [erase ?st ?it] => destruct (erase st it) as [s1|] eqn:He
           end; run; [|discriminate].
           apply erase_inv in He.
           destruct He as (p0 & Hp0 & Her & Hob & Hh & He & Hmem & Henc).
           cbn [queue heap outbound encoder memory encoded _messages] in *.
           assert (p0 = p) as -> by congruence.
           assert (erased_from (set_next (queue s) i) (queue s1) h p) as Her'.
           { destruct Her as (l1 & l2 & H1 & H2 & H3 & H4 & H5).
             exists l1, l2. fields. auto. }
           intros H. right. right.
           assert (s' = s1 /\ c' = (c + 1) mod 2 ^ 16 /\
                   f = (if empty (_messages (queue s1)) then Break
                        else if iter_eqb (Some h) last then Break else Continue))
             as (-> & -> & ->)
               by (destruct (empty (_messages (queue s1)));
                   destruct (iter_eqb (Some h) last);
                   injection H as <- <- <-; auto).
           subst e' mem'. repeat split; auto; try discriminate.
        -- apply bool_decide_eq_false in Hd. intros H. right. left.
           match type of H with
           | (if _ then Ok (_, ?st, _) else _) = _ =>
               assert (s' = st /\ c' = (c + 1) mod 2 ^ 16
                       /\ f = (if iter_eqb (Some h) last then Break else Continue))
               as (-> & -> & ->)
                 by (destruct (iter_eqb (Some h) last);
                     injection H as <- <- <-; auto)
           end.
           cbn. repeat split; auto; try discriminate.
    + (* the encoder is full *)
      intros [= <- <- <-]. left. cbn. repeat split; auto; discriminate.
Qed.

Section Post.

Variable NDEBUG : bool.
Variables I Q : state -> Z -> Prop.

Hypothesis round_step :
  forall last s c f s' c',
    loop_head s -> no_assert NDEBUG (queue s) -> I s c ->
    round_outcome NDEBUG last s c f s' c' ->
    (f = Continue -> I s' c') /\ (f = Break -> Q s' c').

Lemma encode_loop_post last :
  forall fuel s c c' s',
    loop_head s -> no_assert NDEBUG (queue s) -> I s c ->
    encode_loop NDEBUG fuel last s c = Ok (c', s') -> Q s' c'.
Proof.
  induction fuel as [|fuel IH]; intros s c c' s' Hlh Hna HI; [discriminate|].
  simpl.
  destruct (encode_round_spec NDEBUG last s c Hlh Hna)
    as (f & s1 & c1 & Hround & Hfacts).
  rewrite Hround. run.
  destruct (round_step last s c f s1 c1 Hlh Hna HI (encode_round_inv _ _ _ _ _ _ _ Hround))
    as [Hcont Hbreak].
  destruct Hfacts as (h & p & m & _ & _ & _ & Hv1 & Hinv1 & HT & _ & Hmore & _).
  destruct f.
  - apply IH; auto.
    + split; [assumption|]. split; [apply Hmore; reflexivity | assumption].
    + unfold no_assert in *. rewrite HT. assumption.
  - intros [= <- <-]. auto.
Qed.

Hypothesis nothing_queued : forall s, _messages (queue s) = [] -> I s 0 -> Q s 0.

Lemma encode_few_post s c' s' :
  valid_state s -> invariant (queue s) -> no_assert NDEBUG (queue s) ->
  I s 0 -> encode_few NDEBUG s = Ok (c', s') -> Q s' c'.
Proof.
  intros Hv Hinv Hna HI. unfold encode_few.
  destruct (empty (_messages (queue s))) eqn:Hempty.
  - intros [= <- <-]. apply nothing_queued; [apply empty_nil|]; assumption.
  - assert (_messages (queue s) <> []) as Hne
        by (intros E; apply empty_nil in E; congruence).
    match goal with
    | |- context [mbind _ ?x] => destruct x as [last|] eqn:Hlast
    end; run; [|discriminate].
    apply encode_loop_post; auto. split; auto.
Qed.

End Post.

Lemma set_intersection_In (set1 set2 : gset uuid) id :
  In id (set_intersection set1 set2) <-> id ∈ set1 /\ id ∈ set2.
Proof.
  unfold set_intersection. rewrite <- list_elem_of_In.
  rewrite merge_sort_Permutation, elem_of_elements. set_solver.
Qed.


(** X9: [insert_message] puts the new message just before the cursor and
    keeps the order of the others; the cursor stays where it is, except on
    an empty queue, where it moves to the new message.  The new message is
    therefore the one that the loop of [encode_few] takes as its last. *)
Theorem insert_message_before_cursor q message :
  valid q -> invariant q ->
  exists q' l1 l2,
    insert_message q message = Ok q' /\
    _messages q = l1 ++ l2 /\ begin_ l2 = _next q /\
    _messages q' = l1 ++ (node_supply q, message) :: l2 /\
    _next q' = (if empty (_messages q) then Some (node_supply q) else _next q) /\
    terminator q' = Some (Some (node_supply q)) /\
    _targets q' = _targets q.
Proof.
  intros Hv Hinv.
  destruct (insert_message_valid q message Hv) as (q' & Hq' & Hv' & Hinv').
  destruct Hv as (Hnd & Hsup & Hnext). destruct Hv' as (Hnd' & _ & _).
  unfold insert_message in Hq'.
  destruct (insert (_messages q) (_next q) (node_supply q) message)
    as [l'|] eqn:Hins; [|discriminate].
  revert Hq'. run. cbn [_next _messages]. intros Hq'.
  destruct (insert_split _ _ _ _ _ Hins) as (l1 & l2 & Hl & -> & Hb & Hfresh).
  exists q', l1, l2.
  split; [unfold insert_message; rewrite Hins; run; exact Hq'|].
  split; [exact Hl|]. split; [exact Hb|].
  destruct (_next q) as [h|] eqn:Hn.
  - (* a queue with messages *)
    assert (iter_eqb (Some h) end_ = false) as E
        by (apply iter_eqb_neq; discriminate).
    rewrite E in Hq'. injection Hq' as <-. cbn [_messages _next _targets].
    assert (empty (_messages q) = false) as ->.
    { destruct (_messages q) eqn:El; [|reflexivity].
      destruct (Hnext h eq_refl). }
    split; [reflexivity|]. split; [reflexivity|]. split; [|reflexivity].
    cbn [_messages] in Hnd'.
    destruct l2 as [|[h2 y2] l2]; [discriminate|].
    simpl in Hb. injection Hb as ->.
    assert (nodes (l1 ++ (node_supply q, message) :: (h, y2) :: l2)
              !! S (length l1) = Some h) as Hk.
    { rewrite nodes_app. rewrite lookup_app_r by (rewrite nodes_length; lia).
      rewrite nodes_length. replace (S (length l1) - length l1)%nat with 1%nat by lia.
      reflexivity. }
    assert (nodes (l1 ++ (node_supply q, message) :: (h, y2) :: l2)
              !! length l1 = Some (node_supply q)) as Hk'.
    { rewrite nodes_app. rewrite lookup_app_r by (rewrite nodes_length; lia).
      rewrite nodes_length, Nat.sub_diag. reflexivity. }
    unfold terminator. cbn [_messages _next].
    assert (iter_eqb (Some h)
              (begin_ (l1 ++ (node_supply q, message) :: (h, y2) :: l2)) = false)
      as ->.
    { apply iter_eqb_neq. rewrite begin_head. intros E0. symmetry in E0.
      pose proof (nodes_index_unique _ _ _ _ Hnd' Hk E0). lia. }
    simpl decr. rewrite (pred_index _ _ _ Hnd' Hk), Hk'. reflexivity.
  - (* an empty queue *)
    assert (_messages q = []) as Hnil by (apply Hinv; exact Hn).
    rewrite Hnil in Hl. symmetry in Hl. apply app_eq_nil in Hl.
    destruct Hl as [-> ->].
    assert (iter_eqb None end_ = true) as E by (apply iter_eqb_eq; reflexivity).
    rewrite E in Hq'. injection Hq' as <-. rewrite Hnil.
    cbn. split; [reflexivity|]. split; [reflexivity|]. split; [|reflexivity].
    unfold terminator. cbn [_messages _next set_next begin_ app].
    assert (iter_eqb (Some (node_supply q)) (Some (node_supply q)) = true) as ->
        by (apply iter_eqb_eq; reflexivity).
    reflexivity.
Qed.

Lemma insert_message_before_cursor_witness :
  exists q' l1 l2,
    insert_message (queue (example_state [(0, 100); (1, 101)]%nat (Some 1%nat) 64))
                   102%nat = Ok q' /\
    [(0, 100); (1, 101)]%nat = l1 ++ l2 /\ begin_ l2 = Some 1%nat /\
    _messages q' = l1 ++ (10, 102)%nat :: l2 /\
    _next q' = Some 1%nat /\
    terminator q' = Some (Some 10%nat) /\
    _targets q' = {[1%N]}.
Proof.
  apply (insert_message_before_cursor
           (queue (example_state [(0, 100); (1, 101)]%nat (Some 1%nat) 64)) 102%nat).
  - split; [|split].
    + repeat constructor; simpl; intuition lia.
    + simpl. intros h [<-|[<-|[]]]; lia.
    + simpl. intros h [= <-]. auto.
  - split; discriminate.
Defined.

(** X10: [erase] takes one node out of the list and keeps the others in
    their order, releases the erased message in the registry, and touches
    the cursor only when it is on the erased node: it then goes to the
    node that followed, or around to the first one.  Nothing else
    changes. *)
Theorem erase_keeps_the_others s h :
  In h (nodes (_messages (queue s))) ->
  exists s' l1 p l2,
    erase s (Some h) = Ok s' /\
    _messages (queue s) = l1 ++ (h, p) :: l2 /\ ~ In h (nodes l1) /\
    _messages (queue s') = l1 ++ l2 /\
    _next (queue s') =
      (if iter_eqb (Some h) (_next (queue s)) then begin_ (l2 ++ l1)
       else _next (queue s)) /\
    outbound s' = OutboundMessages.release (outbound s) p /\
    _targets (queue s') = _targets (queue s) /\
    heap s' = heap s /\ encoder s' = encoder s /\ memory s' = memory s.
Proof.
  intros Hin. destruct (erase_In _ _ Hin) as (l' & i & He & _).
  destruct (erase_split _ _ _ _ He) as (l1 & p & l2 & Hl & -> & -> & Hnot).
  assert (get (_messages (queue s)) h = Some p) as Hp.
  { rewrite Hl, get_app_fresh by assumption. simpl. rewrite Nat.eqb_refl.
    reflexivity. }
  unfold erase. run. rewrite Hp. run. rewrite He. run. cbn [fst snd].
  eexists _, l1, p, l2. split; [reflexivity|]. cbn [queue heap outbound encoder memory].
  split; [exact Hl|]. split; [exact Hnot|].
  destruct (iter_eqb (Some h) (_next (queue s))); fields.
  - destruct (iter_eqb (begin_ l2) end_) eqn:E; fields.
    + apply iter_eqb_eq in E. apply begin_None in E. subst l2.
      rewrite app_nil_r. simpl. repeat split; reflexivity.
    + apply iter_eqb_neq in E. rewrite begin_app.
      destruct (begin_ l2); [|exfalso; apply E; reflexivity].
      repeat split; reflexivity.
  - repeat split; reflexivity.
Qed.

Lemma erase_keeps_the_others_witness :
  exists s' l1 p l2,
    erase (example_state [(0, 100); (1, 101); (2, 102)]%nat (Some 2%nat) 64)
          (Some 2%nat) = Ok s' /\
    [(0, 100); (1, 101); (2, 102)]%nat = l1 ++ (2%nat, p) :: l2 /\
    ~ In 2%nat (nodes l1) /\
    _messages (queue s') = l1 ++ l2 /\
    _next (queue s') =
      (if iter_eqb (Some 2%nat) (Some 2%nat) then begin_ (l2 ++ l1)
       else Some 2%nat) /\
    outbound s' = OutboundMessages.release ∅ p /\
    _targets (queue s') = {[1%N]} /\
    heap s' = example_heap /\ encoder s' = Encoder.mk 0 64 false /\
    memory s' = replicate 64 0.
Proof.
  apply (erase_keeps_the_others
           (example_state [(0, 100); (1, 101); (2, 102)]%nat (Some 2%nat) 64) 2%nat).
  simpl. auto.
Defined.

(** X11: erasing a message right after [insert_message] put it in gives
    back the list and the cursor that were there before the insertion. *)
Theorem insert_then_erase s message :
  valid (queue s) -> invariant (queue s) ->
  exists q' s'',
    insert_message (queue s) message = Ok q' /\
    erase (set_queue s q') (Some (node_supply (queue s))) = Ok s'' /\
    _messages (queue s'') = _messages (queue s) /\
    _next (queue s'') = _next (queue s) /\
    _targets (queue s'') = _targets (queue s) /\
    outbound s'' = OutboundMessages.release (outbound s) message.
Proof.
  intros Hv Hinv.
  destruct (insert_message_valid _ message Hv) as (q' & Hq' & Hv' & Hinv').
  destruct Hv as (Hnd & Hsup & Hnext).
  exists q'. unfold insert_message in Hq'.
  destruct (insert (_messages (queue s)) (_next (queue s))
                   (node_supply (queue s)) message) as [l'|] eqn:Hins;
    [|discriminate].
  revert Hq'. run. cbn [_next _messages]. intros Hq'.
  destruct (insert_split _ _ _ _ _ Hins) as (l1 & l2 & Hl & -> & Hb & Hfresh).
  assert (~ In (node_supply (queue s)) (nodes l1)) as Hf1.
  { intros Hin. assert (In (node_supply (queue s)) (nodes (_messages (queue s)))) as H
        by (rewrite Hl, nodes_app; apply in_or_app; auto).
    apply Hsup in H. lia. }
  assert (forall q1, _messages q1 = l1 ++ (node_supply (queue s), message) :: l2 ->
            get (_messages q1) (node_supply (queue s)) = Some message /\
            StdList.erase (_messages q1) (node_supply (queue s))
            = Some (l1 ++ l2, begin_ l2)) as Hops.
  { intros q1 ->. rewrite get_app_fresh, erase_app_fresh by assumption.
    simpl. rewrite Nat.eqb_refl. auto. }
  destruct (_next (queue s)) as [h|] eqn:Hn.
  - assert (iter_eqb (Some h) end_ = false) as E
        by (apply iter_eqb_neq; discriminate).
    rewrite E in Hq'. injection Hq' as <-.
    eexists. split; [unfold insert_message; rewrite ?Hn, Hins; run;
                     cbn [_next]; rewrite E; reflexivity|].
    unfold erase. fields. run.
    destruct (Hops (mk (_targets (queue s))
                       (l1 ++ (node_supply (queue s), message) :: l2)
                       (Some h) (_target_intersection (queue s))
                       (S (node_supply (queue s)))) eq_refl) as [Hg He].
    cbn [_messages] in Hg, He. rewrite Hg. run. rewrite He. run. cbn [fst snd].
    assert (iter_eqb (Some (node_supply (queue s))) (Some h) = false) as ->.
    { apply iter_eqb_neq. intros [= Hh]. specialize (Hsup h (Hnext h eq_refl)). lia. }
    split; [reflexivity|]. fields. rewrite Hl. auto.
  - assert (_messages (queue s) = []) as Hnil by (apply Hinv; exact Hn).
    rewrite Hnil in Hl. symmetry in Hl. apply app_eq_nil in Hl.
    destruct Hl as [-> ->].
    assert (iter_eqb None end_ = true) as E by (apply iter_eqb_eq; reflexivity).
    rewrite E in Hq'. injection Hq' as <-.
    eexists. split; [unfold insert_message; rewrite ?Hn, Hins; run;
                     cbn [_next]; rewrite E; reflexivity|].
    unfold erase. fields. run. cbn [app get]. rewrite Nat.eqb_refl. run.
    cbn [StdList.erase]. rewrite Nat.eqb_refl. run. cbn [fst snd begin_].
    assert (iter_eqb (Some (node_supply (queue s))) (Some (node_supply (queue s)))
            = true) as -> by (apply iter_eqb_eq; reflexivity).
    rewrite E. split; [reflexivity|]. fields. rewrite Hnil. auto.
Qed.

Lemma insert_then_erase_witness :
  exists q' s'',
    insert_message (queue (example_state [(0, 100); (1, 101)]%nat (Some 1%nat) 64))
                   102%nat = Ok q' /\
    erase (set_queue (example_state [(0, 100); (1, 101)]%nat (Some 1%nat) 64) q')
          (Some 10%nat) = Ok s'' /\
    _messages (queue s'') = [(0, 100); (1, 101)]%nat /\
    _next (queue s'') = Some 1%nat /\
    _targets (queue s'') = {[1%N]} /\
    outbound s'' = OutboundMessages.release ∅ 102%nat.
Proof.
  apply (insert_then_erase
           (example_state [(0, 100); (1, 101)]%nat (Some 1%nat) 64) 102%nat).
  - split; [|split].
    + repeat constructor; simpl; intuition lia.
    + simpl. intros h [<-|[<-|[]]]; lia.
    + simpl. intros h [= <-]. auto.
  - split; discriminate.
Defined.

(** X12: [circular_increment] walks the list in its order and wraps from
    the last node to the first: from the node at position [k], [j] steps
    lead to the node at position [(k + j) mod n] of the [n] nodes, so [n]
    steps lead back to where they started, and fewer do not. *)
Theorem circular_increment_cycles NDEBUG q :
  List.NoDup (nodes (_messages q)) ->
  forall j k h,
    nodes (_messages q) !! k = Some h ->
    exists h',
      advance NDEBUG q j (Some h) = Ok (Some h') /\
      nodes (_messages q) !! ((k + j) mod length (_messages q))%nat = Some h' /\
      (h' = h <-> (j mod length (_messages q) = 0)%nat).
Proof.
  intros Hnd.
  assert (forall j k h,
             nodes (_messages q) !! k = Some h ->
             exists h',
               advance NDEBUG q j (Some h) = Ok (Some h') /\
               nodes (_messages q) !! ((k + j) mod length (_messages q))%nat
               = Some h') as Hwalk.
  { induction j as [|j IH]; intros k h Hk.
    - pose proof (lookup_lt_Some _ _ _ Hk) as Hlt. rewrite nodes_length in Hlt.
      exists h. split; [reflexivity|].
      rewrite Nat.add_0_r, Nat.mod_small by lia. exact Hk.
    - destruct (circular_increment_index NDEBUG q k h Hnd Hk) as (h1 & Hc & Hk1).
      destruct (IH _ _ Hk1) as (h' & Ha & Hk').
      exists h'. split; [simpl; rewrite Hc; run; exact Ha|].
      rewrite Nat.Div0.add_mod_idemp_l in Hk'.
      replace (k + S j)%nat with (S k + j)%nat by lia. exact Hk'. }
  intros j k h Hk. destruct (Hwalk j k h Hk) as (h' & Ha & Hk').
  exists h'. split; [exact Ha|]. split; [exact Hk'|].
  pose proof (lookup_lt_Some _ _ _ Hk) as Hlt. rewrite nodes_length in Hlt.
  assert (((k + j) mod length (_messages q) = k)%nat
          <-> (j mod length (_messages q) = 0)%nat) as Hmod.
  { rewrite <- Nat.Div0.add_mod_idemp_r.
    pose proof (Nat.mod_upper_bound j (length (_messages q))) as Hj.
    destruct (Nat.lt_ge_cases (k + j mod length (_messages q))
                              (length (_messages q))) as [Hs|Hs].
    - rewrite Nat.mod_small by lia. lia.
    - replace (k + j mod length (_messages q))%nat
        with ((k + j mod length (_messages q) - length (_messages q))
              + 1 * length (_messages q))%nat by lia.
      rewrite Nat.Div0.mod_add, Nat.mod_small by lia. lia. }
  rewrite <- Hmod. split.
  - intros ->. eapply nodes_index_unique; eassumption.
  - intros E. rewrite E in Hk'. congruence.
Qed.

Lemma circular_increment_cycles_witness :
  exists h',
    advance false (queue (example_state [(0, 100); (1, 101); (2, 102)]%nat
                                        (Some 0%nat) 64))
            5 (Some 1%nat) = Ok (Some h') /\
    [0; 1; 2]%nat !! ((1 + 5) mod 3)%nat = Some h' /\
    (h' = 1%nat <-> (5 mod 3 = 0)%nat).
Proof.
  apply (circular_increment_cycles false
           (queue (example_state [(0, 100); (1, 101); (2, 102)]%nat
                                 (Some 0%nat) 64))).
  - repeat constructor; simpl; intuition lia.
  - reflexivity.
Defined.

Lemma erased_from_incl q q' h p x :
  erased_from q q' h p -> In x (_messages q') -> In x (_messages q).
Proof.
  intros (l1 & l2 & -> & _ & -> & _) Hin.
  apply in_app_or in Hin. apply in_or_app. simpl. tauto.
Qed.

Lemma erased_from_other q q' h p x :
  erased_from q q' h p -> In x (_messages q) -> x = (h, p) \/ In x (_messages q').
Proof.
  intros (l1 & l2 & -> & _ & -> & _) Hin.
  apply in_app_or in Hin. rewrite in_app_iff. simpl in Hin.
  destruct Hin as [?|[<-|?]]; auto.
Qed.

(** X13: when no queued message has a target on this link, [encode_few]
    erases them all: it returns 0 with the queue empty and the cursor at
    the end, and leaves the encoder, the buffer and the messages
    themselves as they were. *)
Theorem nothing_for_this_link NDEBUG s :
  valid_state s -> invariant (queue s) -> no_assert NDEBUG (queue s) ->
  (forall h p, In (h, p) (_messages (queue s)) ->
               exists m, heap s !! p = Some m /\
                         Message.targets m ∩ _targets (queue s) = ∅) ->
  exists s',
    encode_few NDEBUG s = Ok (0, s') /\
    _messages (queue s') = [] /\ _next (queue s') = end_ /\
    _targets (queue s') = _targets (queue s) /\
    encoder s' = encoder s /\ memory s' = memory s /\ heap s' = heap s /\
    encoded s' = encoded s.
Proof.
  intros Hv Hinv Hna Hnone.
  destruct (encode_few_spec NDEBUG (fun _ _ => True)
              (fun _ _ _ _ _ _ _ _ _ => Logic.I) s Hv Hinv Hna Logic.I)
    as (c' & s' & He & _ & Hinv' & _ & _).
  pose (I := fun (s1 : state) (c : Z) =>
               c = 0 /\ _targets (queue s1) = _targets (queue s) /\
               encoder s1 = encoder s /\ memory s1 = memory s /\
               heap s1 = heap s /\ encoded s1 = encoded s /\
               forall x, In x (_messages (queue s1)) -> In x (_messages (queue s))).
  assert (I s' c' /\ _messages (queue s') = []) as [HI Hnil].
  { apply (encode_few_post NDEBUG I (fun s1 c => I s1 c /\ _messages (queue s1) = []))
      with (s := s); auto.
    - intros last s1 c f s2 c2 Hlh _ (-> & HT & Henc & Hmem & Hheap & Hlog & Hsub)
             (h & i & p & m & Hn & Hc & Hp & Hm & Hcases).
      cbv zeta in Hcases.
      destruct (Hnone h p (Hsub _ (get_In _ _ _ Hp))) as (m0 & Hm0 & Hdisj).
      assert (m0 = m) as -> by (rewrite Hheap in Hm; congruence).
      assert (set_intersection (Message.targets m) (_targets (queue s1)) = [])
        as Hempty by (apply set_intersection_nil; rewrite HT; exact Hdisj).
      destruct Hcases as [Hdrop|[Hfull|[Hsent|Hsent]]];
        try (destruct Hfull as [Hne _]; contradiction);
        try (destruct Hsent as [Hne _]; contradiction).
      destruct Hdrop as (_ & Her & _ & Hh2 & He2 & Hm2 & Hl2 & -> & ->).
      assert (I s2 0) as HI2.
      { unfold I. repeat split; try congruence.
        - destruct Her as (l1 & l2 & _ & _ & _ & _ & HT2). rewrite HT2. exact HT.
        - intros x Hx. apply Hsub. apply (erased_from_incl _ _ _ _ _ Her Hx). }
      destruct (empty (_messages (queue s2))) eqn:Hemp.
      + split; [discriminate|]. intros _. split; [exact HI2|].
        apply empty_nil. exact Hemp.
      + split; [intros _; exact HI2 | discriminate].
    - unfold I. repeat split; auto. }
  destruct HI as (-> & HT & Henc & Hmem & Hheap & Hlog & _).
  exists s'. repeat split; auto. apply Hinv'. exact Hnil.
Qed.

Lemma nothing_for_this_link_witness :
  exists s',
    encode_few false (example_state [(0, 101); (1, 101)]%nat (Some 1%nat) 64)
    = Ok (0, s') /\
    _messages (queue s') = [] /\ _next (queue s') = end_ /\
    _targets (queue s') = {[1%N]} /\
    encoder s' = Encoder.mk 0 64 false /\ memory s' = replicate 64 0 /\
    heap s' = example_heap /\ encoded s' = [].
Proof.
  apply (nothing_for_this_link false
           (example_state [(0, 101); (1, 101)]%nat (Some 1%nat) 64)).
  - split; [|split].
    + split; [|split].
      * repeat constructor; simpl; intuition lia.
      * simpl. intros h [<-|[<-|[]]]; lia.
      * simpl. intros h [= <-]. auto.
    + simpl. intros h p [[= <- <-]|[[= <- <-]|[]]]; vm_compute; eauto.
    + vm_compute. lia.
  - split; discriminate.
  - right. vm_compute. lia.
  - simpl. intros h p [[= <- <-]|[[= <- <-]|[]]];
      (eexists; split; [vm_compute; reflexivity|]);
      simpl; apply set_eq; intros x; set_solver.
Defined.

(** ** What a call keeps and what it writes *)

Lemma kept_refl s : kept s s.
Proof.
  constructor; auto.
  intros p. destruct (heap s !! p); auto.
Qed.

Lemma kept_heap_some s0 s1 p m :
  kept s0 s1 -> heap s1 !! p = Some m ->
  exists m0,
    heap s0 !! p = Some m0 /\
    Message.source m = Message.source m0 /\
    Message.bytes m = Message.bytes m0 /\
    Message.is_reliable m = Message.is_reliable m0 /\
    Message.targets m ⊆ Message.targets m0 /\
    (m = m0 \/
     (Message.is_reliable m0 = false /\
      m = Message.set_targets m0 (Message.targets m0 ∖ _targets (queue s0)))).
Proof.
  intros Hk Hm. pose proof (kept_heap _ _ Hk p) as H. rewrite Hm in H.
  destruct (heap s0 !! p) as [m0|]; [|contradiction].
  exists m0. split; [reflexivity|].
  destruct H as [->|[Hrel ->]].
  - repeat split; auto.
  - repeat split; auto. simpl. set_solver.
Qed.

Lemma kept_round NDEBUG last s0 s1 c f s2 c2 :
  kept s0 s1 -> round_outcome NDEBUG last s1 c f s2 c2 -> kept s0 s2.
Proof.
  intros Hk (h & i & p & m & Hn & Hc & Hp & Hm & Hcases). cbv zeta in Hcases.
  pose proof (get_In _ _ _ Hp) as Hin.
  destruct (kept_heap_some _ _ _ _ Hk Hm)
    as (m0 & Hm0 & Hsrc & Hbytes & Hrel & Hsub & Hshape).
  destruct Hk as [HT Hheap Hord Hwant].
  assert (forall q1 q2, erased_from q1 q2 h p ->
            _messages q1 = _messages (queue s1) ->
            sublist (_messages q2) (_messages (queue s0))) as Hsl.
  { intros q1 q2 (l1 & l2 & Hl & _ & -> & _) E. rewrite E in Hl.
    etransitivity; [|exact Hord]. rewrite Hl.
    apply sublist_app; [reflexivity|]. apply sublist_cons. reflexivity. }
  assert (forall hp',
            <[p := Message.set_targets m
                     (Message.targets m ∖ _targets (queue s1))]> (heap s1) = hp' ->
            Message.is_reliable m = false ->
            forall p',
              match heap s0 !! p', hp' !! p' with
              | Some m, Some m' =>
                  m' = m \/
                  (Message.is_reliable m = false /\
                   m' = Message.set_targets m
                          (Message.targets m ∖ _targets (queue s0)))
              | None, None => True
              | _, _ => False
              end) as Hupd.
  { intros hp' <- Hunrel p'. destruct (decide (p' = p)) as [->|Hne].
    - rewrite lookup_insert_eq, Hm0. right. rewrite HT.
      split; [congruence|].
      destruct Hshape as [->|[_ ->]]; [reflexivity|].
      unfold Message.set_targets. simpl. f_equal. set_solver.
    - rewrite lookup_insert_ne by congruence. apply Hheap. }
  assert (forall hp',
            <[p := Message.set_targets m
                     (Message.targets m ∖ _targets (queue s1))]> (heap s1) = hp' ->
            forall p' m1,
              heap s1 !! p' = Some m1 ->
              Message.targets m1 ∩ _targets (queue s0) = ∅ ->
              exists m', hp' !! p' = Some m' /\
                         Message.targets m' ∩ _targets (queue s0) = ∅) as Hstay.
  { intros hp' <- p' m1 Hm1 Hdisj. destruct (decide (p' = p)) as [->|Hne].
    - rewrite lookup_insert_eq. eexists. split; [reflexivity|].
      simpl. rewrite HT. set_solver.
    - rewrite lookup_insert_ne by congruence. eauto. }
  destruct Hcases as [Hdrop|[Hfull|[Hsent|Hsent]]].
  - destruct Hdrop as (Hempty & Her & _ & Hh2 & _).
    apply set_intersection_nil in Hempty. rewrite HT in Hempty.
    constructor.
    + destruct Her as (l1 & l2 & _ & _ & _ & _ & HT2). rewrite HT2. exact HT.
    + rewrite Hh2. exact Hheap.
    + apply (Hsl _ _ Her). reflexivity.
    + intros h' p' Hin'. rewrite Hh2.
      destruct (Hwant h' p' Hin') as [Hstill|Hgone]; [|auto].
      destruct (erased_from_other _ _ _ _ _ Her Hstill) as [[= -> ->]|?]; eauto.
  - destruct Hfull as (_ & _ & Hl2 & _ & HT2 & _ & Hh2 & _).
    constructor; rewrite ?Hl2, ?Hh2; auto. congruence.
  - destruct Hsent as (_ & _ & _ & _ & Hl2 & _ & HT2 & _ & _ & Hheap2).
    destruct Hheap2 as [[_ Hh2]|(Hunrel & _ & Hh2)].
    + constructor; rewrite ?Hl2, ?Hh2; auto. congruence.
    + constructor; rewrite ?Hl2; auto; [congruence | |].
      * apply (Hupd _ (eq_sym Hh2) Hunrel).
      * intros h' p' Hin'.
        destruct (Hwant h' p' Hin') as [?|(m1 & Hm1 & Hdisj)]; [auto|].
        right. apply (Hstay _ (eq_sym Hh2) _ _ Hm1 Hdisj).
  - destruct Hsent as (_ & _ & _ & _ & Hunrel & Hnone & Hh2 & Her & _).
    constructor.
    + destruct Her as (l1 & l2 & _ & _ & _ & _ & HT2). rewrite HT2. exact HT.
    + apply (Hupd _ (eq_sym Hh2) Hunrel).
    + apply (Hsl _ _ Her). reflexivity.
    + intros h' p' Hin'.
      destruct (Hwant h' p' Hin') as [Hstill|(m1 & Hm1 & Hdisj)].
      * destruct (erased_from_other _ _ _ _ _ Her Hstill) as [[= -> ->]|?]; [|auto].
        right. rewrite Hh2, lookup_insert_eq. eexists. split; [reflexivity|].
        simpl. rewrite HT. set_solver.
      * right. apply (Hstay _ (eq_sym Hh2) _ _ Hm1 Hdisj).
Qed.

Lemma take_le_eq {A} (l l' : list A) n m :
  (n <= m)%nat -> take m l = take m l' -> take n l = take n l'.
Proof.
  intros Hle H. rewrite <- (Nat.min_l n m) by lia.
  rewrite <- !take_take. rewrite H. reflexivity.
Qed.

Lemma region_take mem mem' b0 b1 :
  (b0 <= b1)%nat -> take b1 mem' = take b1 mem ->
  region mem' b0 b1 = region mem b0 b1.
Proof.
  intros Hle H. unfold region. rewrite !take_drop_commute.
  replace (b0 + (b1 - b0))%nat with b1 by lia. rewrite H. reflexivity.
Qed.

Lemma region_write mem b0 b1 bs :
  (b0 <= b1)%nat -> (b1 + length bs <= length mem)%nat ->
  region (Encoder.write_at mem b1 bs) b0 (b1 + length bs) = region mem b0 b1 ++ bs.
Proof.
  intros Hle Hfit. unfold region, Encoder.write_at.
  rewrite drop_app_le by (rewrite length_take; lia).
  rewrite take_drop_commute. replace (b0 + (b1 - b0))%nat with b1 by lia.
  rewrite app_assoc. apply take_app_length'.
  rewrite length_app, length_drop, length_take. lia.
Qed.

Lemma laid_out_snoc heap0 T p r :
  record_of heap0 T p r ->
  forall entries off recs,
    laid_out heap0 T off entries recs ->
    laid_out heap0 T off (entries ++ [(p, (off + length (concat recs))%nat)])
             (recs ++ [r]).
Proof.
  intros Hr. induction entries as [|[p0 o0] entries IH]; intros off recs.
  - destruct recs; [|contradiction]. intros _. simpl.
    rewrite Nat.add_0_r. auto.
  - destruct recs as [|r0 recs]; [contradiction|].
    intros (-> & Hr0 & Hrest). simpl. split; [reflexivity|]. split; [exact Hr0|].
    rewrite length_app, Nat.add_assoc. apply IH. exact Hrest.
Qed.

Lemma laid_out_length heap0 T :
  forall entries off recs,
    laid_out heap0 T off entries recs -> length recs = length entries.
Proof.
  induction entries as [|[p0 o0] entries IH]; intros off recs.
  - destruct recs; [reflexivity | contradiction].
  - destruct recs as [|r0 recs]; [contradiction|].
    intros (_ & _ & Hrest). simpl. f_equal. eapply IH, Hrest.
Qed.

Lemma written_refl s : written s s 0 [] [].
Proof.
  constructor; simpl; auto; [|congruence].
  unfold region. rewrite Nat.sub_diag. reflexivity.
Qed.

Lemma written_round NDEBUG last s0 s1 c new recs f s2 c2 :
  kept s0 s1 -> written s0 s1 c new recs ->
  valid_state s1 -> no_assert NDEBUG (queue s1) ->
  round_outcome NDEBUG last s1 c f s2 c2 ->
  exists new2 recs2, written s0 s2 c2 new2 recs2.
Proof.
  intros Hk Hw Hv Hna (h & i & p & m & Hn & Hc & Hp & Hm & Hcases).
  cbv zeta in Hcases.
  destruct (kept_heap_some _ _ _ _ Hk Hm)
    as (m0 & Hm0 & Hsrc & Hbytes & Hrel & Hsub & Hshape).
  pose proof (kept_targets _ _ Hk) as HT.
  destruct Hv as (_ & _ & Hcap).
  set (inter := set_intersection (Message.targets m) (_targets (queue s1))) in *.
  assert (NDEBUG = true \/ (length inter <= 255)%nat) as Hna'.
  { destruct Hna as [?|Hsize]; [auto|]. right.
    etransitivity; [apply set_intersection_bound | exact Hsize]. }
  destruct (try_encode_total NDEBUG (encoder s1) (memory s1) inter m Hna' Hcap)
    as (b & e' & mem' & Htry & Hlen & Htake & Hfalse & Htrue).
  destruct Hw as [Hlog Hcount Hrecs Hcur Hbytes' Hbefore Hlength Hend Herr Hsent
                  Hroom].
  assert (Encoder.current_begin (encoder s0)
          <= Encoder.current_begin (encoder s1))%nat as Hb01 by lia.
  assert (inter <> [] ->
          try_encode NDEBUG (encoder s1) (memory s1) inter m
          = Ok (true, encoder s2, memory s2) ->
          encoded s2 = (p, Encoder.current_begin (encoder s1)) :: encoded s1 ->
          c2 = (c + 1) mod 2 ^ 16 ->
          heap s2 = heap s1 \/
          heap s2 = <[p := Message.set_targets m
                             (Message.targets m ∖ _targets (queue s1))]> (heap s1) ->
          written s0 s2 c2 ((p, Encoder.current_begin (encoder s1)) :: new)
                  (recs ++ [record_bytes inter m])) as Hsentcase.
  { intros Hne Ht Hlog2 -> Hheap2. rewrite Htry in Ht.
    injection Ht as -> -> ->.
    destruct (Htrue eq_refl) as (Herr1 & Hlen255 & Hfit & He' & Hmem').
    assert (record_of (heap s0) (_targets (queue s0)) p (record_bytes inter m))
      as Hrec.
    { exists m0, inter. split; [exact Hm0|]. split.
      - unfold record_bytes. rewrite Hsrc, Hbytes. reflexivity.
      - split; [destruct inter; [congruence | simpl in *; lia]|].
        intros id Hid. apply set_intersection_In in Hid. rewrite <- HT.
        destruct Hid as [Hid1 Hid2].
        split; [exact (proj1 (elem_of_subseteq _ _) Hsub id Hid1) | exact Hid2]. }
    constructor.
    - rewrite Hlog2, Hlog. reflexivity.
    - rewrite Hcount. cbn [length]. rewrite Nat2Z.inj_succ.
      rewrite Z.add_mod_idemp_l by lia. reflexivity.
    - cbn [rev]. rewrite Hcur. apply laid_out_snoc; assumption.
    - rewrite He'. cbn [Encoder.current_begin].
      rewrite Hcur, concat_app, length_app. simpl. rewrite app_nil_r. lia.
    - rewrite He', Hmem'. cbn [Encoder.current_begin].
      rewrite region_write by lia. rewrite Hbytes', concat_app. simpl.
      rewrite app_nil_r. reflexivity.
    - rewrite Hmem', EncoderFacts.write_at_take by lia. exact Hbefore.
    - rewrite Hlen. exact Hlength.
    - rewrite He'. cbn [Encoder.current_end]. exact Hend.
    - rewrite He'. cbn [Encoder.was_error]. congruence.
    - intros p'. destruct Hheap2 as [->| ->].
      + destruct (Hsent p'); [auto | right; simpl; auto].
      + destruct (decide (p' = p)) as [->|Hnp]; [right; simpl; auto|].
        rewrite lookup_insert_ne by congruence.
        destruct (Hsent p'); [auto | right; simpl; auto].
    - intros _. rewrite He'. cbn [Encoder.current_begin].
      split; [congruence | lia]. }
  destruct Hcases as [Hdrop|[Hfull|[Hsent1|Hsent1]]].
  - destruct Hdrop as (_ & _ & _ & Hh2 & He2 & Hm2 & Hl2 & -> & _).
    exists new, recs. constructor; rewrite ?Hh2, ?He2, ?Hm2, ?Hl2; auto.
  - destruct Hfull as (_ & Ht & _ & _ & _ & _ & Hh2 & Hl2 & -> & _).
    rewrite Htry in Ht. injection Ht as -> -> ->.
    pose proof (Hfalse eq_refl) as He2.
    exists new, recs. constructor; rewrite ?Hh2, ?Hl2, ?He2; auto.
    + rewrite <- Hbytes'. apply region_take; assumption.
    + rewrite <- Hbefore. eapply take_le_eq; eassumption.
    + congruence.
  - destruct Hsent1 as (Hne & Ht & Hlog2 & Hc2 & _ & _ & _ & _ & _ & Hheap2).
    eexists _, _. apply Hsentcase; auto.
    destruct Hheap2 as [[_ ?]|(_ & _ & ?)]; auto.
  - destruct Hsent1 as (Hne & Ht & Hlog2 & Hc2 & _ & _ & Hh2 & _).
    eexists _, _. apply Hsentcase; auto.
Qed.

Lemma encode_few_effect NDEBUG s :
  valid_state s -> invariant (queue s) -> no_assert NDEBUG (queue s) ->
  exists c s' new recs,
    encode_few NDEBUG s = Ok (c, s') /\
    kept s s' /\ written s s' c new recs.
Proof.
  intros Hv Hinv Hna.
  destruct (encode_few_spec NDEBUG (fun _ _ => True)
              (fun _ _ _ _ _ _ _ _ _ => Logic.I) s Hv Hinv Hna Logic.I)
    as (c & s' & He & _).
  pose (I := fun (s1 : state) (c1 : Z) =>
               kept s s1 /\ exists new recs, written s s1 c1 new recs).
  assert (I s' c) as (Hk & new & recs & Hw).
  { apply (encode_few_post NDEBUG I I) with (s := s); auto.
    - intros last s1 c1 f s2 c2 (Hv1 & _) Hna1 (Hk1 & new1 & recs1 & Hw1) Hround.
      assert (I s2 c2); [|auto].
      split; [eapply kept_round; eassumption|].
      eapply written_round; eassumption.
    - split; [apply kept_refl|]. exists [], []. apply written_refl. }
  exists c, s', new, recs. auto.
Qed.

(** X14: [encode_few] takes messages out of the queue but never puts one in
    or reorders them, and a message it takes out has, when the call
    returns, no target left that this link reaches.  The link's own target
    set is not changed. *)
Theorem encode_few_drops_only_unwanted NDEBUG s :
  valid_state s -> invariant (queue s) -> no_assert NDEBUG (queue s) ->
  exists c s',
    encode_few NDEBUG s = Ok (c, s') /\
    _targets (queue s') = _targets (queue s) /\
    sublist (_messages (queue s')) (_messages (queue s)) /\
    forall h p,
      In (h, p) (_messages (queue s)) ->
      ~ In (h, p) (_messages (queue s')) ->
      exists m', heap s' !! p = Some m' /\
                 Message.targets m' ∩ _targets (queue s) = ∅.
Proof.
  intros Hv Hinv Hna.
  destruct (encode_few_effect NDEBUG s Hv Hinv Hna)
    as (c & s' & new & recs & He & [HT Hheap Hord Hwant] & _).
  exists c, s'. repeat split; auto.
  intros h p Hin Hout. destruct (Hwant h p Hin); [contradiction | assumption].
Qed.

Lemma encode_few_drops_only_unwanted_witness :
  exists c s',
    encode_few false (example_state [(0, 100); (1, 101); (2, 102)]%nat (Some 0%nat) 64)
    = Ok (c, s') /\
    _targets (queue s') = {[1%N]} /\
    sublist (_messages (queue s')) [(0, 100); (1, 101); (2, 102)]%nat /\
    forall h p,
      In (h, p) [(0, 100); (1, 101); (2, 102)]%nat ->
      ~ In (h, p) (_messages (queue s')) ->
      exists m', heap s' !! p = Some m' /\ Message.targets m' ∩ {[1%N]} = ∅.
Proof.
  apply (encode_few_drops_only_unwanted false
           (example_state [(0, 100); (1, 101); (2, 102)]%nat (Some 0%nat) 64)).
  - split; [|split].
    + split; [|split].
      * repeat constructor; simpl; intuition lia.
      * simpl. intros h [<-|[<-|[<-|[]]]]; lia.
      * simpl. intros h [= <-]. auto.
    + simpl. intros h p [[= <- <-]|[[= <- <-]|[[= <- <-]|[]]]]; vm_compute; eauto.
    + vm_compute. lia.
  - split; discriminate.
  - right. vm_compute. lia.
Defined.



(** X16: what [encode_few] writes is a run of records lying back to back:
    it starts at the encoder's cursor and ends at the new cursor, holds one
    record per message encoded, in the order they were encoded, each with
    the source and bytes of its message and between 1 and 255 of its
    targets on this link.  The bytes before the old cursor, the size of the
    buffer, the encoder's end and its error flag stay as they were. *)
Theorem encode_few_writes_records NDEBUG s :
  valid_state s -> invariant (queue s) -> no_assert NDEBUG (queue s) ->
  exists c s' new recs,
    encode_few NDEBUG s = Ok (c, s') /\
    encoded s' = new ++ encoded s /\
    c = Z.of_nat (length recs) mod 2 ^ 16 /\
    laid_out (heap s) (_targets (queue s))
             (Encoder.current_begin (encoder s)) (rev new) recs /\
    Encoder.current_begin (encoder s')
    = (Encoder.current_begin (encoder s) + length (concat recs))%nat /\
    region (memory s') (Encoder.current_begin (encoder s))
           (Encoder.current_begin (encoder s')) = concat recs /\
    take (Encoder.current_begin (encoder s)) (memory s')
    = take (Encoder.current_begin (encoder s)) (memory s) /\
    length (memory s') = length (memory s) /\
    Encoder.current_end (encoder s') = Encoder.current_end (encoder s) /\
    Encoder.was_error (encoder s') = Encoder.was_error (encoder s) /\
    (recs <> [] ->
     Encoder.was_error (encoder s) = false /\
     (Encoder.current_begin (encoder s') <= Encoder.current_end (encoder s))%nat).
Proof.
  intros Hv Hinv Hna.
  destruct (encode_few_effect NDEBUG s Hv Hinv Hna)
    as (c & s' & new & recs & He & _ & Hw).
  destruct Hw as [Hlog Hcount Hrecs Hcur Hbytes Hbefore Hlength Hend Herr Hsent
                  Hroom].
  exists c, s', new, recs. split; [exact He|]. split; [exact Hlog|].
  split; [|repeat split; auto; apply Hroom; assumption].
  rewrite (laid_out_length _ _ _ _ _ Hrecs), length_rev. exact Hcount.
Qed.

Lemma encode_few_writes_records_witness :
  exists c s' new recs,
    encode_few false (example_state [(0, 100); (1, 101); (2, 102)]%nat (Some 0%nat) 64)
    = Ok (c, s') /\
    encoded s' = new ++ [] /\
    c = Z.of_nat (length recs) mod 2 ^ 16 /\
    laid_out example_heap {[1%N]} 0 (rev new) recs /\
    Encoder.current_begin (encoder s') = (0 + length (concat recs))%nat /\
    region (memory s') 0 (Encoder.current_begin (encoder s')) = concat recs /\
    take 0 (memory s') = take 0 (replicate 64 0) /\
    length (memory s') = length (replicate 64 0) /\
    Encoder.current_end (encoder s') = 64%nat /\
    Encoder.was_error (encoder s') = false /\
    (recs <> [] ->
     false = false /\ (Encoder.current_begin (encoder s') <= 64)%nat).
Proof.
  apply (encode_few_writes_records false
           (example_state [(0, 100); (1, 101); (2, 102)]%nat (Some 0%nat) 64)).
  - split; [|split].
    + split; [|split].
      * repeat constructor; simpl; intuition lia.
      * simpl. intros h [<-|[<-|[<-|[]]]]; lia.
      * simpl. intros h [= <-]. auto.
    + simpl. intros h p [[= <- <-]|[[= <- <-]|[[= <- <-]|[]]]]; vm_compute; eauto.
    + vm_compute. lia.
  - split; discriminate.
  - right. vm_compute. lia.
Defined.

(** ** A call that only meets reliable messages with targets on the link *)

Lemma nodes_lookup {A} (l : list (node * A)) i : nodes l !! i = fst <$> l !! i.
Proof.
  revert i. induction l as [|[h y] l IH]; intros [|i]; simpl; auto.
Qed.

Lemma get_lookup {A} (l : list (node * A)) :
  forall i h y,
    List.NoDup (nodes l) -> l !! i = Some (h, y) -> get l h = Some y.
Proof.
  induction l as [|[h0 y0] l IH]; intros i h y Hnd Hi; [discriminate|].
  apply List.NoDup_cons_iff in Hnd. destruct Hnd as [Hh0 Hnd].
  simpl. destruct i as [|i].
  - injection Hi as -> ->. rewrite Nat.eqb_refl. reflexivity.
  - simpl in Hi. destruct (Nat.eqb_spec h0 h) as [->|Hne].
    + exfalso. apply Hh0. apply (lookup_nodes_In l i).
      rewrite nodes_lookup, Hi. reflexivity.
    + eapply IH; eassumption.
Qed.

Lemma mod_wrap a n :
  (0 < n)%nat -> (a < 2 * n)%nat ->
  (a mod n = if (a <? n)%nat then a else a - n)%nat.
Proof.
  intros Hn Ha. destruct (Nat.ltb_spec a n).
  - apply Nat.mod_small. assumption.
  - replace a with ((a - n) + 1 * n)%nat at 1 by lia.
    rewrite Nat.Div0.mod_add. apply Nat.mod_small. lia.
Qed.

Lemma try_encode_fits NDEBUG e mem targets msg :
  Encoder.was_error e = false ->
  (length targets <= 255)%nat ->
  (Encoder.current_begin e + length (record_bytes targets msg)
   <= Encoder.current_end e)%nat ->
  (Encoder.current_end e <= length mem)%nat ->
  try_encode NDEBUG e mem targets msg
  = Ok (true,
        Encoder.mk (Encoder.current_begin e + length (record_bytes targets msg))
                   (Encoder.current_end e) false,
        Encoder.write_at mem (Encoder.current_begin e) (record_bytes targets msg)).
Proof.
  intros Herr Hlen Hfit Hmem.
  unfold try_encode. rewrite encode_put_all by assumption.
  simpl mbind. unfold mbind, result_bind.
  rewrite EncoderFacts.put_all_fits by (rewrite ?concat_chunks; auto).
  rewrite concat_chunks. unfold Encoder.error. simpl. reflexivity.
Qed.

Lemma round_reliable_sent NDEBUG last s c h i p m e' mem' :
  _next (queue s) = Some h ->
  circular_increment NDEBUG (queue s) (Some h) = Ok i ->
  get (_messages (queue s)) h = Some p ->
  heap s !! p = Some m ->
  Message.is_reliable m = true ->
  set_intersection (Message.targets m) (_targets (queue s)) <> [] ->
  try_encode NDEBUG (encoder s) (memory s)
             (set_intersection (Message.targets m) (_targets (queue s))) m
  = Ok (true, e', mem') ->
  encode_round NDEBUG last s c
  = Ok (if iter_eqb (Some h) last then Break else Continue,
        mkState (mk (_targets (queue s)) (_messages (queue s)) i
                    (set_intersection (Message.targets m) (_targets (queue s)))
                    (node_supply (queue s)))
                (heap s) (outbound s) e' mem'
                ((p, Encoder.current_begin (encoder s)) :: encoded s),
        (c + 1) mod 2 ^ 16).
Proof.
  intros Hn Hc Hp Hm Hrel Hne Htry.
  unfold encode_round. rewrite Hn, Hc. run. fields. rewrite Hp. run.
  rewrite Hm. run.
  destruct (set_intersection (Message.targets m) (_targets (queue s)))
    as [|u inter] eqn:Hinter; [contradiction|].
  rewrite Htry. run. cbn [negb]. rewrite Hrel. cbn [negb].
  destruct (iter_eqb (Some h) last); reflexivity.
Qed.

Lemma round_full NDEBUG last s c h i p m e' mem' :
  _next (queue s) = Some h ->
  circular_increment NDEBUG (queue s) (Some h) = Ok i ->
  get (_messages (queue s)) h = Some p ->
  heap s !! p = Some m ->
  set_intersection (Message.targets m) (_targets (queue s)) <> [] ->
  try_encode NDEBUG (encoder s) (memory s)
             (set_intersection (Message.targets m) (_targets (queue s))) m
  = Ok (false, e', mem') ->
  encode_round NDEBUG last s c
  = Ok (Break,
        mkState (mk (_targets (queue s)) (_messages (queue s)) (Some h)
                    (set_intersection (Message.targets m) (_targets (queue s)))
                    (node_supply (queue s)))
                (heap s) (outbound s) e' mem' (encoded s),
        c).
Proof.
  intros Hn Hc Hp Hm Hne Htry.
  unfold encode_round. rewrite Hn, Hc. run. fields. rewrite Hp. run.
  rewrite Hm. run.
  destruct (set_intersection (Message.targets m) (_targets (queue s)))
    as [|u inter] eqn:Hinter; [contradiction|].
  rewrite Htry. run. cbn [negb]. reflexivity.
Qed.

Section Reliable.

Variable NDEBUG : bool.
Variable T : gset uuid.
Variable msgs : StdList.t MessagePtr.
Variable hp : gmap MessagePtr Message.t.
Variable k : nat.

Let n := length msgs.
Let rot := rotation k msgs.
Let last : iterator := nodes msgs !! ((k + (n - 1)) mod n)%nat.
Let rsize (x : node * MessagePtr) : nat := record_size hp T (snd x).

Hypothesis msgs_distinct : List.NoDup (nodes msgs).
Hypothesis k_in_range : (k < n)%nat.
Hypothesis few_targets : (size T <= 255)%nat.
Hypothesis all_reliable :
  forall h p, In (h, p) msgs ->
              exists m, hp !! p = Some m /\ Message.is_reliable m = true /\
                        Message.targets m ∩ T <> ∅.

Lemma encode_loop_reliable :
  forall r j0 fuel s c,
    (j0 + r = n)%nat -> (1 <= r)%nat -> (r <= fuel)%nat ->
    _targets (queue s) = T -> _messages (queue s) = msgs ->
    _next (queue s) = nodes msgs !! ((k + j0) mod n)%nat ->
    heap s = hp ->
    Encoder.was_error (encoder s) = false ->
    (Encoder.current_end (encoder s) <= length (memory s))%nat ->
    0 <= c < 2 ^ 16 ->
    exists s',
      encode_loop NDEBUG fuel last s c
      = Ok ((c + Z.of_nat (fits (map rsize (drop j0 rot))
                                (Encoder.room (encoder s)))) mod 2 ^ 16, s') /\
      map fst (encoded s')
      = rev (map snd (take (fits (map rsize (drop j0 rot))
                                 (Encoder.room (encoder s)))
                           (drop j0 rot)))
        ++ map fst (encoded s) /\
      _messages (queue s') = msgs /\ heap s' = hp /\
      _targets (queue s') = T /\
      _next (queue s')
      = nodes msgs !! ((k + (j0 + fits (map rsize (drop j0 rot))
                                       (Encoder.room (encoder s)))) mod n)%nat.
Proof.
  induction r as [|r IH]; intros j0 fuel s c Hj0 Hr Hfuel HT Hl Hn Hheap Herr Hcap Hc;
    [lia|].
  destruct fuel as [|fuel]; [lia|].
  assert (0 < n)%nat as Hpos by lia.
  pose proof (Nat.mod_upper_bound (k + j0) n ltac:(lia)) as Hkj.
  destruct (lookup_lt_is_Some_2 msgs ((k + j0) mod n)%nat Hkj) as ([hj pj] & Hx).
  assert (nodes msgs !! ((k + j0) mod n)%nat = Some hj) as Hhj
      by (rewrite nodes_lookup, Hx; reflexivity).
  assert (rot !! j0 = Some (hj, pj)) as Hrot
      by (unfold rot; rewrite rotation_lookup by (fold n; lia); exact Hx).
  rewrite (drop_S _ _ _ Hrot). cbn [map fits].
  destruct (all_reliable hj pj (proj1 (list_elem_of_In _ _)
                                      (list_elem_of_lookup_2 _ _ _ Hx)))
    as (m & Hm & Hrel & Hdisj).
  assert (set_intersection (Message.targets m) T <> []) as Hne
      by (rewrite set_intersection_nil; exact Hdisj).
  assert (length (set_intersection (Message.targets m) T) <= 255)%nat as Hlen255
      by (etransitivity; [apply set_intersection_bound | exact few_targets]).
  assert (rsize (hj, pj)
          = length (record_bytes (set_intersection (Message.targets m) T) m))
    as Hsize by (unfold rsize, record_size; simpl; rewrite Hm; reflexivity).
  rewrite Hsize.
  set (L := length (record_bytes (set_intersection (Message.targets m) T) m)) in *.
  assert (0 < L)%nat as HL by (unfold L; rewrite record_bytes_length; lia).
  assert (List.NoDup (nodes (_messages (queue s)))) as Hnd
      by (rewrite Hl; exact msgs_distinct).
  assert (nodes (_messages (queue s)) !! ((k + j0) mod n)%nat = Some hj) as Hhj'
      by (rewrite Hl; exact Hhj).
  destruct (circular_increment_index NDEBUG (queue s) _ hj Hnd Hhj')
    as (h' & Hci & Hh').
  rewrite Hl in Hh'. fold n in Hh'.
  assert (S ((k + j0) mod n) mod n = (k + S j0) mod n)%nat as Hidx.
  { replace (S ((k + j0) mod n)) with ((k + j0) mod n + 1)%nat by lia.
    rewrite Nat.Div0.add_mod_idemp_l. f_equal. lia. }
  rewrite Hidx in Hh'.
  assert (get (_messages (queue s)) hj = Some pj) as Hget
      by (rewrite Hl; eapply get_lookup; eassumption).
  assert (_next (queue s) = Some hj) as Hnext by congruence.
  rewrite <- Hheap in Hm. rewrite <- HT in Hne.
  cbn [encode_loop].
  destruct (Nat.leb_spec L (Encoder.room (encoder s))) as [Hfit|Hover].
  - (* the record fits *)
    assert (try_encode NDEBUG (encoder s) (memory s)
              (set_intersection (Message.targets m) (_targets (queue s))) m
            = Ok (true,
                  Encoder.mk (Encoder.current_begin (encoder s) + L)
                             (Encoder.current_end (encoder s)) false,
                  Encoder.write_at (memory s) (Encoder.current_begin (encoder s))
                    (record_bytes
                       (set_intersection (Message.targets m) (_targets (queue s)))
                       m))) as Htry.
    { rewrite HT. apply try_encode_fits; auto.
      unfold Encoder.room in Hfit. fold L. lia. }
    rewrite (round_reliable_sent NDEBUG last s c hj (Some h') pj m _ _
               Hnext Hci Hget Hm Hrel Hne Htry).
    run.
    assert (Encoder.room (Encoder.mk (Encoder.current_begin (encoder s) + L)
                                     (Encoder.current_end (encoder s)) false)
            = (Encoder.room (encoder s) - L)%nat) as Hroom
        by (unfold Encoder.room; simpl; lia).
    destruct r as [|r].
    + (* it was the last one of the rotation *)
      assert (iter_eqb (Some hj) last = true) as ->.
      { apply iter_eqb_eq. unfold last. rewrite <- Hhj.
        f_equal. f_equal. lia. }
      assert (drop (S j0) rot = []) as ->
          by (apply drop_ge; unfold rot; rewrite rotation_length; fold n; lia).
      eexists. split; [reflexivity|]. cbn.
      repeat split; auto. rewrite <- Hh'. f_equal. f_equal. lia.
    + assert (iter_eqb (Some hj) last = false) as ->.
      { apply iter_eqb_neq. unfold last. intros E. symmetry in E.
        pose proof (nodes_index_unique _ _ _ _ msgs_distinct Hhj E) as Heq.
        rewrite (mod_wrap (k + j0) n), (mod_wrap (k + (n - 1)) n) in Heq by lia.
        destruct (Nat.ltb_spec (k + j0) n), (Nat.ltb_spec (k + (n - 1)) n); lia. }
      match goal with
      | |- context [encode_loop NDEBUG fuel last ?s1 ?c1] =>
          destruct (IH (S j0) fuel s1 c1) as (s' & Hloop & Hlog & Hl' & Hh2 & HT' & Hn')
      end; cbn [queue heap encoder memory _targets _messages _next];
        try assumption; try lia.
      * rewrite Hh'. reflexivity.
      * reflexivity.
      * cbn [Encoder.current_end].
        rewrite EncoderFacts.write_at_length; [assumption|].
        unfold Encoder.room in Hfit. rewrite HT. fold L. lia.
      * apply Z.mod_pos_bound. lia.
      * cbn [encoder encoded] in Hloop, Hlog, Hn'. rewrite Hroom in Hloop, Hlog, Hn'.
        exists s'. split; [|split; [|repeat split; auto]].
        -- rewrite Hloop. f_equal. f_equal.
           rewrite Z.add_mod_idemp_l by lia. f_equal. lia.
        -- rewrite Hlog. cbn [take map rev snd fst].
           rewrite <- app_assoc. reflexivity.
        -- rewrite Hn'. f_equal. f_equal. lia.
  - (* it does not fit *)
    assert (NDEBUG = true \/
            (length (set_intersection (Message.targets m) (_targets (queue s)))
             <= 255)%nat) as Hna by (right; rewrite HT; exact Hlen255).
    destruct (try_encode_total NDEBUG (encoder s) (memory s)
                (set_intersection (Message.targets m) (_targets (queue s))) m
                Hna Hcap)
      as (b & e' & mem' & Htry & Hlen & _ & Hfalse & Htrue).
    destruct b.
    + exfalso. destruct (Htrue eq_refl) as (_ & _ & Hfits & _).
      rewrite HT in Hfits. fold L in Hfits. unfold Encoder.room in Hover. lia.
    + rewrite (round_full NDEBUG last s c hj (Some h') pj m _ _
                 Hnext Hci Hget Hm Hne Htry).
      run. eexists. split; [rewrite Z.add_0_r, Z.mod_small by lia; reflexivity|].
      cbn. repeat split; auto. rewrite <- Hhj. f_equal. f_equal. lia.
Qed.

End Reliable.

(** X17: on a queue that holds only reliable messages, each with a target
    on this link, [encode_few] erases nothing and encodes the messages in
    queue order, starting at the cursor and wrapping around, each at most
    once: as many of them as fit one after the other into the room the
    encoder has.  The cursor is left on the first message that did not
    fit, or back where it started when all of them did. *)
Theorem reliable_round_robin NDEBUG s k h :
  valid_state s -> (size (_targets (queue s)) <= 255)%nat ->
  nodes (_messages (queue s)) !! k = Some h -> _next (queue s) = Some h ->
  Encoder.was_error (encoder s) = false ->
  (forall h' p,
      In (h', p) (_messages (queue s)) ->
      exists m, heap s !! p = Some m /\ Message.is_reliable m = true /\
                Message.targets m ∩ _targets (queue s) <> ∅) ->
  let rot := rotation k (_messages (queue s)) in
  let j := fits (map (fun x => record_size (heap s) (_targets (queue s)) (snd x)) rot)
                (Encoder.room (encoder s)) in
  exists s',
    encode_few NDEBUG s = Ok (Z.of_nat j mod 2 ^ 16, s') /\
    map fst (encoded s') = rev (map snd (take j rot)) ++ map fst (encoded s) /\
    (j <= length (_messages (queue s)))%nat /\
    _messages (queue s') = _messages (queue s) /\ heap s' = heap s /\
    _next (queue s')
    = nodes (_messages (queue s)) !! ((k + j) mod length (_messages (queue s)))%nat.
Proof.
  intros ((Hnd & _ & _) & _ & Hcap) Hsize Hk Hn Herr Hall rot j.
  pose proof (lookup_lt_Some _ _ _ Hk) as Hlt. rewrite nodes_length in Hlt.
  destruct (terminator_index (queue s) k h Hnd Hk Hn) as (hl & Hterm & Hlast).
  unfold terminator in Hterm. rewrite Hn in Hterm.
  unfold encode_few.
  assert (empty (_messages (queue s)) = false) as ->
      by (destruct (_messages (queue s)); [simpl in Hlt; lia | reflexivity]).
  rewrite Hn.
  assert ((if iter_eqb (Some h) (begin_ (_messages (queue s)))
           then defined (decr (_messages (queue s)) end_)
           else defined (decr (_messages (queue s)) (Some h)))
          = Ok (Some hl)) as ->
      by (destruct (iter_eqb (Some h) (begin_ (_messages (queue s))));
          rewrite Hterm; reflexivity).
  run. rewrite <- Hlast.
  destruct (encode_loop_reliable NDEBUG (_targets (queue s)) (_messages (queue s))
              (heap s) k Hnd Hlt Hsize Hall
              (length (_messages (queue s))) 0%nat (rounds s) s 0)
    as (s' & Hloop & Hlog & Hl' & Hh' & _ & Hn'); auto; try lia.
  - unfold rounds. lia.
  - rewrite Nat.add_0_r, Hn. symmetry.
    rewrite Nat.mod_small by lia. exact Hk.
  - rewrite drop_0 in *. rewrite Z.add_0_l in Hloop. rewrite Nat.add_0_l in Hn'.
    exists s'. fold rot in Hloop, Hlog, Hn'. fold j in Hloop, Hlog, Hn'.
    repeat split; auto.
    assert (forall sizes room, (fits sizes room <= length sizes)%nat) as Hbound.
    { induction sizes as [|L sizes IHs]; intros room; simpl; [lia|].
      destruct (L <=? room)%nat; [specialize (IHs (room - L)%nat)|]; lia. }
    unfold j. etransitivity; [apply Hbound|].
    rewrite length_map. unfold rot. rewrite rotation_length. reflexivity.
Qed.

Lemma reliable_round_robin_witness :
  let s := example_state [(0, 100); (1, 100); (2, 100)]%nat (Some 1%nat) 80 in
  let rot := rotation 1 (_messages (queue s)) in
  let j := fits (map (fun x => record_size (heap s) (_targets (queue s)) (snd x)) rot)
                (Encoder.room (encoder s)) in
  exists s',
    encode_few false s = Ok (Z.of_nat j mod 2 ^ 16, s') /\
    map fst (encoded s') = rev (map snd (take j rot)) ++ map fst (encoded s) /\
    (j <= length (_messages (queue s)))%nat /\
    _messages (queue s') = _messages (queue s) /\ heap s' = heap s /\
    _next (queue s')
    = nodes (_messages (queue s)) !! ((1 + j) mod length (_messages (queue s)))%nat.
Proof.
  apply (reliable_round_robin false
           (example_state [(0, 100); (1, 100); (2, 100)]%nat (Some 1%nat) 80)
           1%nat 1%nat).
  - split; [|split].
    + split; [|split].
      * repeat constructor; simpl; intuition lia.
      * simpl. intros h [<-|[<-|[<-|[]]]]; lia.
      * simpl. intros h [= <-]. auto.
    + simpl. intros h p [[= <- <-]|[[= <- <-]|[[= <- <-]|[]]]]; vm_compute; eauto.
    + vm_compute. lia.
  - vm_compute. lia.
  - reflexivity.
  - reflexivity.
  - reflexivity.
  - simpl. intros h p [[= <- <-]|[[= <- <-]|[[= <- <-]|[]]]];
      (eexists; split; [vm_compute; reflexivity|]);
      (split; [reflexivity|]); intros E;
      apply (f_equal (fun X : gset uuid => bool_decide (1%N ∈ X))) in E;
      vm_compute in E; discriminate.
Defined.

Lemma encode_few_kept NDEBUG s :
  valid_state s -> invariant (queue s) -> no_assert NDEBUG (queue s) ->
  exists c s',
    encode_few NDEBUG s = Ok (c, s') /\
    valid_state s' /\ invariant (queue s') /\ kept s s'.
Proof.
  intros Hv Hinv Hna.
  destruct (encode_few_spec NDEBUG (fun _ _ => True)
              (fun _ _ _ _ _ _ _ _ _ => Logic.I) s Hv Hinv Hna Logic.I)
    as (c & s' & He & Hv' & Hinv' & _).
  destruct (encode_few_effect NDEBUG s Hv Hinv Hna)
    as (c1 & s1 & new & recs & He1 & Hk & _).
  rewrite He in He1. injection He1 as <- <-.
  exists c, s'. auto.
Qed.

(** X18: no number of [encode_few] calls takes a reliable message out of
    the queue or changes it, as long as it has a target that this link
    reaches: it stays queued for the next call. *)
Theorem reliable_stays_queued NDEBUG calls :
  Forall (fun em => (Encoder.current_end (fst em) <= length (snd em))%nat) calls ->
  forall s h p m,
    valid (queue s) ->
    (forall h' q, In (h', q) (_messages (queue s)) -> is_Some (heap s !! q)) ->
    invariant (queue s) -> no_assert NDEBUG (queue s) ->
    In (h, p) (_messages (queue s)) ->
    heap s !! p = Some m -> Message.is_reliable m = true ->
    Message.targets m ∩ _targets (queue s) <> ∅ ->
    exists s',
      encode_many NDEBUG calls s = Ok s' /\
      In (h, p) (_messages (queue s')) /\ heap s' !! p = Some m /\
      _targets (queue s') = _targets (queue s).
Proof.
  induction 1 as [|[e mem] calls Hem _ IH];
    intros s h p m Hv Hheap Hinv Hna Hin Hm Hrel Hwant.
  - exists s. auto.
  - cbn [encode_many].
    destruct (encode_few_kept NDEBUG
                (mkState (queue s) (heap s) (outbound s) e mem (encoded s)))
      as (c & s1 & -> & (Hv1 & Hheap1 & _) & Hinv1 & [HT Hh Hord Hkeep]);
      [split; [assumption|]; split; assumption | assumption | assumption |].
    cbn [queue heap] in *. run. cbn [snd].
    assert (heap s1 !! p = Some m) as Hm1.
    { specialize (Hh p). rewrite Hm in Hh.
      destruct (heap s1 !! p) as [m'|]; [|contradiction].
      destruct Hh as [->|[Hunrel _]]; [reflexivity | congruence]. }
    assert (In (h, p) (_messages (queue s1))) as Hin1.
    { destruct (Hkeep h p Hin) as [?|(m' & Hm' & Hnone)]; [assumption|].
      exfalso. apply Hwant. congruence. }
    destruct (IH s1 h p m) as (s' & Hmany & Hin' & Hm' & HT'); auto.
    + unfold no_assert in *. rewrite HT. assumption.
    + rewrite HT. assumption.
    + exists s'. repeat split; auto. congruence.
Qed.

Lemma reliable_stays_queued_witness :
  exists s',
    encode_many false [(Encoder.mk 0 20 false, replicate 20 0);
                       (Encoder.mk 0 64 false, replicate 64 0)]
                (example_state [(0, 100); (1, 101); (2, 102)]%nat (Some 0%nat) 64)
    = Ok s' /\
    In (0, 100)%nat (_messages (queue s')) /\
    heap s' !! 100%nat = Some (Message.mk 10%N {[1%N]} [7] true) /\
    _targets (queue s') = {[1%N]}.
Proof.
  apply (reliable_stays_queued false
           [(Encoder.mk 0 20 false, replicate 20 0);
            (Encoder.mk 0 64 false, replicate 64 0)]).
  - repeat constructor; vm_compute; lia.
  - split; [|split].
    + repeat constructor; simpl; intuition lia.
    + simpl. intros h [<-|[<-|[<-|[]]]]; lia.
    + simpl. intros h [= <-]. auto.
  - simpl. intros h p [[= <- <-]|[[= <- <-]|[[= <- <-]|[]]]]; vm_compute; eauto.
  - split; discriminate.
  - right. vm_compute. lia.
  - simpl. auto.
  - reflexivity.
  - reflexivity.
  - intros E.
    apply (f_equal (fun X : gset uuid => bool_decide (1%N ∈ X))) in E.
    vm_compute in E. discriminate.
Defined.

(** X19: [try_encode] writes a record whole or not at all.  It returns true
    exactly when the error flag is clear, there are at most 255 targets and
    the record fits before the encoder's end; the record then lies at the
    old cursor, the cursor is behind it and the rest of the buffer is as it
    was.  Otherwise the cursor and the flag are as before the call and no
    byte in front of the cursor has changed. *)
Theorem try_encode_whole_or_nothing NDEBUG e mem targets msg :
  NDEBUG = true \/ (length targets <= 255)%nat ->
  (Encoder.current_end e <= length mem)%nat ->
  exists b e' mem',
    try_encode NDEBUG e mem targets msg = Ok (b, e', mem') /\
    (b = true <->
     Encoder.was_error e = false /\ (length targets <= 255)%nat /\
     (Encoder.current_begin e + length (record_bytes targets msg)
      <= Encoder.current_end e)%nat) /\
    (b = true ->
     e' = Encoder.mk (Encoder.current_begin e + length (record_bytes targets msg))
                     (Encoder.current_end e) false /\
     mem' = take (Encoder.current_begin e) mem ++ record_bytes targets msg
            ++ drop (Encoder.current_begin e + length (record_bytes targets msg))
                    mem) /\
    (b = false ->
     e' = e /\ length mem' = length mem /\
     take (Encoder.current_begin e) mem' = take (Encoder.current_begin e) mem).
Proof.
  intros Hna Hmem.
  destruct (try_encode_total NDEBUG e mem targets msg Hna Hmem)
    as (b & e' & mem' & Htry & Hlen & Htake & Hfalse & Htrue).
  exists b, e', mem'. split; [exact Htry|]. split; [|split].
  - split.
    + intros Hb. destruct (Htrue Hb) as (? & ? & ? & _). auto.
    + intros (Herr & Hlen255 & Hfit).
      rewrite (try_encode_fits NDEBUG e mem targets msg Herr Hlen255 Hfit Hmem)
        in Htry.
      congruence.
  - intros Hb. destruct (Htrue Hb) as (_ & _ & _ & He' & Hmem'). auto.
  - intros Hb. auto.
Qed.

Lemma try_encode_whole_or_nothing_witness :
  exists b e' mem',
    try_encode false (Encoder.mk 3 40 false) (replicate 40 0) [1%N]
               (Message.mk 10%N {[1%N]} [7%Z] true) = Ok (b, e', mem') /\
    (b = true <->
     false = false /\ (1 <= 255)%nat /\
     (3 + length (record_bytes [1%N] (Message.mk 10%N {[1%N]} [7%Z] true))
      <= 40)%nat) /\
    (b = true ->
     e' = Encoder.mk (3 + length (record_bytes [1%N] (Message.mk 10%N {[1%N]} [7%Z] true)))
                     40 false /\
     mem' = take 3 (replicate 40 0)
            ++ record_bytes [1%N] (Message.mk 10%N {[1%N]} [7%Z] true)
            ++ drop (3 + length (record_bytes [1%N]
                                   (Message.mk 10%N {[1%N]} [7%Z] true)))
                    (replicate 40 0)) /\
    (b = false ->
     e' = Encoder.mk 3 40 false /\ length mem' = length (replicate 40 0) /\
     take 3 mem' = take 3 (replicate 40 0)).
Proof.
  apply (try_encode_whole_or_nothing false (Encoder.mk 3 40 false) (replicate 40 0)
           [1%N] (Message.mk 10%N {[1%N]} [7%Z] true)).
  - right. simpl. lia.
  - vm_compute. lia.
Defined.

Lemma erased_from_perm q q' h p :
  erased_from q q' h p -> _messages q ≡ₚ (h, p) :: _messages q'.
Proof.
  intros (l1 & l2 & -> & _ & -> & _). symmetry. apply Permutation_middle.
Qed.

(** X20: [encode_few] tells the registry of outbound messages about the
    messages it takes out of the queue and about no others: each of them is
    released once, whether it was dropped unencoded or erased after it was
    encoded. *)
Theorem encode_few_releases_what_it_drops NDEBUG s :
  valid_state s -> invariant (queue s) -> no_assert NDEBUG (queue s) ->
  exists c s' dropped,
    encode_few NDEBUG s = Ok (c, s') /\
    _messages (queue s) ≡ₚ dropped ++ _messages (queue s') /\
    outbound s'
    = foldr (fun x o => OutboundMessages.release o (snd x)) (outbound s) dropped.
Proof.
  intros Hv Hinv Hna.
  destruct (encode_few_spec NDEBUG (fun _ _ => True)
              (fun _ _ _ _ _ _ _ _ _ => Logic.I) s Hv Hinv Hna Logic.I)
    as (c & s' & He & _).
  pose (I := fun (s1 : state) (_ : Z) =>
               exists dropped,
                 _messages (queue s) ≡ₚ dropped ++ _messages (queue s1) /\
                 outbound s1
                 = foldr (fun x o => OutboundMessages.release o (snd x))
                         (outbound s) dropped).
  assert (I s' c) as (dropped & Hperm & Hout).
  { apply (encode_few_post NDEBUG I I) with (s := s); auto.
    - intros last s1 c1 f s2 c2 _ _ (dropped & Hperm & Hout)
             (h & i & p & m & _ & _ & _ & _ & Hcases).
      cbv zeta in Hcases. assert (I s2 c2); [|auto].
      assert (forall q1, erased_from q1 (queue s2) h p ->
                _messages q1 = _messages (queue s1) ->
                outbound s2 = OutboundMessages.release (outbound s1) p ->
                I s2 c2) as Herased.
      { intros q1 Her E Hob. exists ((h, p) :: dropped). split.
        - rewrite Hperm, <- E, (erased_from_perm _ _ _ _ Her).
          simpl. rewrite Permutation_middle. reflexivity.
        - simpl. rewrite Hob, Hout. reflexivity. }
      destruct Hcases as [Hdrop|[Hfull|[Hsent|Hsent]]].
      + destruct Hdrop as (_ & Her & Hob & _). apply (Herased _ Her); auto.
      + destruct Hfull as (_ & _ & Hl2 & _ & _ & Hob & _).
        exists dropped. rewrite Hl2, Hob. auto.
      + destruct Hsent as (_ & _ & _ & _ & Hl2 & _ & _ & Hob & _).
        exists dropped. rewrite Hl2, Hob. auto.
      + destruct Hsent as (_ & _ & _ & _ & _ & _ & _ & Her & Hob & _).
        apply (Herased _ Her); auto.
    - exists []. simpl. auto. }
  exists c, s', dropped. auto.
Qed.

Lemma encode_few_releases_what_it_drops_witness :
  exists c s' dropped,
    encode_few false (example_state [(0, 100); (1, 101); (2, 102)]%nat (Some 0%nat) 64)
    = Ok (c, s') /\
    [(0, 100); (1, 101); (2, 102)]%nat ≡ₚ dropped ++ _messages (queue s') /\
    outbound s'
    = foldr (fun x o => OutboundMessages.release o (snd x)) ∅ dropped.
Proof.
  apply (encode_few_releases_what_it_drops false
           (example_state [(0, 100); (1, 101); (2, 102)]%nat (Some 0%nat) 64)).
  - split; [|split].
    + split; [|split].
      * repeat constructor; simpl; intuition lia.
      * simpl. intros h [<-|[<-|[<-|[]]]]; lia.
      * simpl. intros h [= <-]. auto.
    + simpl. intros h p [[= <- <-]|[[= <- <-]|[[= <- <-]|[]]]]; vm_compute; eauto.
    + vm_compute. lia.
  - split; discriminate.
  - right. vm_compute. lia.
Defined.

End TransmitQueueLaws.
